(** * gym_wrappers: observation wrappers and the environment pool

    A shallow embedding of [wrappers/gym_wrappers.py]: the image
    preprocessing wrapper [PreprocessImage], the frame-stacking wrapper
    [FrameBuffer] and the sequential environment pool [EnvPool].

    NumPy arrays are modelled as a shape together with the elements in
    C (row-major) order; floating-point values are IEEE-754 values of
    the standard library's [SpecFloat] (binary64 unless rounded to
    binary32); Python objects that are shared by reference live in
    explicit stores. *)

From Stdlib Require Import ZArith QArith Qpower Qabs Lia Bool.
From Stdlib Require Import Strings.Byte.
From Stdlib Require Import Floats.SpecFloat.
From stdpp Require Import base option list numbers.

(** ** NumPy arrays *)

Module Np.

Record ndarray (A : Type) : Type := mk_ndarray {
  shape : list nat;
  data : list A
}.
Arguments mk_ndarray {A} _ _.
Arguments shape {A} _.
Arguments data {A} _.

(** number of elements of an array of a given shape *)
Definition size_of (shp : list nat) : nat := foldr Nat.mul 1 shp.

Definition wf {A} (x : ndarray A) : Prop :=
  length (data x) = size_of (shape x).

(** [np.zeros(shp)] and [np.zeros_like(x)] *)
Definition zeros {A} (z : A) (shp : list nat) : ndarray A :=
  mk_ndarray shp (replicate (size_of shp) z).

Definition zeros_like {A} (z : A) (x : ndarray A) : ndarray A :=
  zeros z (shape x).

(** [x[None]]: a new leading axis of length one *)
Definition newaxis {A} (x : ndarray A) : ndarray A :=
  mk_ndarray (1 :: shape x) (data x).

(** [x[:-1]]: all rows but the last along the first axis; indexing a
    0-d array raises *)
Definition drop_last_row {A} (x : ndarray A) : option (ndarray A) :=
  match shape x with
  | [] => None
  | n :: rest =>
      Some (mk_ndarray (pred n :: rest) (take (pred n * size_of rest) (data x)))
  end.

(** [x[i]]: row [i] along the first axis *)
Definition row {A} (x : ndarray A) (i : nat) : option (ndarray A) :=
  match shape x with
  | [] => None
  | n :: rest =>
      if decide (i < n)
      then Some (mk_ndarray rest
                   (take (size_of rest) (drop (i * size_of rest) (data x))))
      else None
  end.

Definition atleast_2d {A} (x : ndarray A) : ndarray A :=
  match shape x with
  | [] => mk_ndarray [1; 1] (data x)
  | [n] => mk_ndarray [1; n] (data x)
  | _ => x
  end.

(** [np.concatenate([a, b], axis=0)]: the trailing axes must agree *)
Definition concatenate0 {A} (a b : ndarray A) : option (ndarray A) :=
  match shape a, shape b with
  | na :: ra, nb :: rb =>
      if decide (ra = rb)
      then Some (mk_ndarray (na + nb :: ra) (data a ++ data b))
      else None
  | _, _ => None
  end.

(** [np.vstack([a, b])] *)
Definition vstack2 {A} (a b : ndarray A) : option (ndarray A) :=
  concatenate0 (atleast_2d a) (atleast_2d b).

(** multi-index of a flat position, and back (C order) *)
Fixpoint unravel (shp : list nat) (n : nat) : list nat :=
  match shp with
  | [] => []
  | _ :: rest => n / size_of rest :: unravel rest (n mod size_of rest)
  end.

Fixpoint ravel (shp idx : list nat) : nat :=
  match shp, idx with
  | _ :: rest, i :: idx' => i * size_of rest + ravel rest idx'
  | _, _ => 0
  end.

(** position of [a] in [l] ([length l] when absent) *)
Fixpoint index_of (a : nat) (l : list nat) : nat :=
  match l with
  | [] => 0
  | b :: l' => if decide (a = b) then 0 else S (index_of a l')
  end.

(** the source multi-index read by [np.transpose(x, axes)] at the
    output multi-index [idx]: component [axes[k]] of the source is
    component [k] of the output *)
Definition source_index (axes idx : list nat) : list nat :=
  (λ a, idx !!! index_of a axes) <$> seq 0 (length axes).

(** [np.transpose(x, axes)]: [axes] must be a permutation of the axes
    of [x] *)
Definition transpose {A} (x : ndarray A) (axes : list nat)
  : option (ndarray A) :=
  if bool_decide (axes ≡ₚ seq 0 (length (shape x))) then
    let shp := (λ a, shape x !!! a) <$> axes in
    elts ← mapM (λ j, data x !! ravel (shape x) (source_index axes (unravel shp j)))
              (seq 0 (size_of shp));
    Some (mk_ndarray shp elts)
  else None.

(** [x.reshape(shp)]: the number of elements must be that of [x];
    the elements keep their (C) order *)
Definition reshape {A} (x : ndarray A) (shp : list nat)
  : option (ndarray A) :=
  if decide (size_of shp = size_of (shape x))
  then Some (mk_ndarray shp (data x))
  else None.

End Np.

Import Np.

(** ** Floating-point values *)

Module F.

Definition float : Type := spec_float.

(** binary64 ([float64], Python's [float]) and binary32 ([float32]) *)
Definition prec64 : Z := 53.
Definition emax64 : Z := 1024.
Definition prec32 : Z := 24.
Definition emax32 : Z := 128.

Definition zero : float := S754_zero false.

(** the binary64 value of an integer *)
Definition of_Z (z : Z) : float := binary_normalize prec64 emax64 z 0 false.

Definition one : float := Eval vm_compute in of_Z 1.

(** [x.astype('float32')], also the conversion done by a store into a
    [float32] array: round to nearest even *)
Definition to_float32 (x : float) : float :=
  match x with
  | S754_finite s m e => binary_round prec32 emax32 s m e
  | _ => x
  end.

Definition div64 : float → float → float := SFdiv prec64 emax64.
Definition div32 : float → float → float := SFdiv prec32 emax32.
Definition add64 : float → float → float := SFadd prec64 emax64.

End F.

Import F.

(** [gym.spaces.Box(low, high, shape)] *)
Record Box : Type := mk_Box {
  low : float;
  high : float;
  box_shape : list nat
}.

(** ** The environment interface

    What the wrappers use of a [gym] environment: [observation_space],
    [reset], [step], [close], and Python's [copy.copy] of the object.
    [E] is the type of references to environment objects and [W] the
    store they live in; every call may raise ([None]). *)

Class Env (action info W E : Type) : Type := {
  env_observation_space : E → W → option Box;
  env_reset : E → W → option (ndarray float * W);
  env_step : E → action → W
             → option ((ndarray float * float * bool * info) * W);
  env_close : E → W → option W;
  env_copy : E → W → option (E * W)
}.

(** ** FrameBuffer *)

Module FrameBuffer.

Record t (E : Type) : Type := mk {
  env : E;
  framebuffer : ndarray float;
  reshape_fn : ndarray float → option (ndarray float);
  observation_space : Box
}.
Arguments mk {E} _ _ _ _.
Arguments env {E} _.
Arguments framebuffer {E} _.
Arguments reshape_fn {E} _.
Arguments observation_space {E} _.

Definition set_framebuffer {E} (self : t E) (fb : ndarray float) : t E :=
  mk (env self) fb (reshape_fn self) (observation_space self).

(** [shape_dims = list(range(ndim)); shape_dims[1:] + [shape_dims[0]]] *)
Definition auto_shape_dims (ndim : nat) : option (list nat) :=
  let shape_dims := seq 0 ndim in
  d0 ← head shape_dims;
  Some (tail shape_dims ++ [d0]).

(** [result_shape]: the base shape, with a unit axis appended when it
    has one axis, and its last entry multiplied by [n_frames];
    [result_shape[-1]] raises on an empty shape *)
Definition auto_result_shape (base : list nat) (n_frames : nat)
  : option (list nat) :=
  let result_shape := base in
  let result_shape :=
    if decide (length result_shape = 1) then result_shape ++ [1]
    else result_shape in
  let i := length result_shape - 1 in
  d ← result_shape !! i;
  Some (<[i := d * n_frames]> result_shape).

Definition auto_reshape_fn (shape_dims result_shape : list nat)
  : ndarray float → option (ndarray float) :=
  λ x, y ← transpose x shape_dims; reshape y result_shape.

Section Methods.
Context {action info W E : Type} `{!Env action info W E}.

Definition __init__ (e : E) (n_frames : nat)
    (reshape_fn : option (ndarray float → option (ndarray float))) (w : W)
  : option (t E) :=
  space ← env_observation_space e w;
  let framebuffer := zeros zero (n_frames :: box_shape space) in
  reshape_fn ←
    match reshape_fn with
    | Some f => Some f
    | None =>
        shape_dims ← auto_shape_dims (length (shape framebuffer));
        result_shape ← auto_result_shape (box_shape space) n_frames;
        Some (auto_reshape_fn shape_dims result_shape)
    end;
  out ← reshape_fn framebuffer;
  Some (mk e framebuffer reshape_fn (mk_Box zero one (shape out))).

(** push a new observation, remove the earliest one *)
Definition update_buffer (self : t E) (obs : ndarray float) : option (t E) :=
  rest ← drop_last_row (framebuffer self);
  fb ← vstack2 (newaxis obs) rest;
  Some (set_framebuffer self fb).

Definition reset (self : t E) (w : W) : option (ndarray float * t E * W) :=
  let self := set_framebuffer self (zeros_like zero (framebuffer self)) in
  '(obs, w) ← env_reset (env self) w;
  self ← update_buffer self obs;
  out ← reshape_fn self (framebuffer self);
  Some (out, self, w).

Definition step (self : t E) (a : action) (w : W)
  : option ((ndarray float * float * bool * info) * t E * W) :=
  '(new_obs, r, done, i, w) ← env_step (env self) a w;
  self ← update_buffer self new_obs;
  out ← reshape_fn self (framebuffer self);
  Some ((out, r, done, i), self, w).

(** a sequence of calls on one instance, collecting the observations
    it returns *)
Inductive call : Type :=
  | Reset
  | Step (a : action).

Definition run_call (c : call) (self : t E) (w : W)
  : option (ndarray float * t E * W) :=
  match c with
  | Reset => reset self w
  | Step a => '(out, _, _, _, self, w) ← step self a w; Some (out, self, w)
  end.

Fixpoint run (cs : list call) (self : t E) (w : W)
  : option (list (ndarray float) * t E * W) :=
  match cs with
  | [] => Some ([], self, w)
  | c :: cs' =>
      '(out, self, w) ← run_call c self w;
      '(outs, self, w) ← run cs' self w;
      Some (out :: outs, self, w)
  end.

End Methods.

End FrameBuffer.

(** ** PreprocessImage *)

Module PreprocessImage.

(** pixels of a raw image: [uint8] *)
Definition uint8 : Type := Byte.byte.

Definition of_uint8 (b : uint8) : float := of_Z (Z.of_N (Byte.to_N b)).

Record t : Type := mk {
  img_size : nat * nat;
  grayscale : bool;
  crop : ndarray uint8 → option (ndarray uint8);
  observation_space : Box
}.

Definition no_crop (img : ndarray uint8) : option (ndarray uint8) := Some img.

Definition __init__ (height width : nat) (grayscale : bool)
    (crop : option (ndarray uint8 → option (ndarray uint8))) : t :=
  let n_colors := if grayscale then 1 else 3 in
  mk (height, width) grayscale (default no_crop crop)
     (mk_Box zero one [height; width; n_colors]).

(** the [float64] sum of a run of pixels, as [np.mean] accumulates it *)
Definition sum64 (l : list uint8) : float := foldl add64 zero (of_uint8 <$> l).

(** [img.mean(-1, keepdims=True)] on a [uint8] array: the last axis is
    reduced to length one, each entry the [float64] sum divided by the
    length of the axis; a 0-d array has no axis to reduce *)
Definition mean_last_keepdims (x : ndarray uint8) : option (ndarray float) :=
  let n := length (shape x) in
  c ← shape x !! (n - 1);
  let lead := take (n - 1) (shape x) in
  Some (mk_ndarray (lead ++ [1])
          ((λ k, div64 (sum64 (take c (drop (k * c) (data x))))
                       (of_Z (Z.of_nat c)))
             <$> seq 0 (size_of lead))).

(** [img.astype('float32') / 255.]: each entry is rounded to
    [float32] and divided, in [float32], by 255 *)
Definition scale_value (v : float) : float :=
  div32 (to_float32 v) (to_float32 (of_Z 255)).

Definition scale (img : ndarray float) : ndarray float :=
  mk_ndarray (shape img) (scale_value <$> data img).

Section Methods.
(** [scipy.misc.imresize(img, size)]: an external primitive, which
    returns a [uint8] image *)
Variable imresize : ndarray uint8 → nat * nat → option (ndarray uint8).

Definition _observation (self : t) (img : ndarray uint8)
  : option (ndarray float) :=
  img ← crop self img;
  img ← imresize img (img_size self);
  img ← (if grayscale self then mean_last_keepdims img
         else Some (mk_ndarray (shape img) (of_uint8 <$> data img)));
  Some (scale img).

End Methods.

End PreprocessImage.

(** the rational value of a finite floating-point number *)
Definition float_value (x : float) : option Q :=
  match x with
  | S754_zero _ => Some 0%Q
  | S754_finite s m e =>
      Some ((if s then -1 else 1) * inject_Z (Z.pos m) * Qpower 2 e)%Q
  | _ => None
  end.

Definition in_unit_interval (x : float) : Prop :=
  ∃ q, float_value x = Some q ∧ (0 <= q)%Q ∧ (q <= 1)%Q.

Definition in_unit_intervalb (x : float) : bool :=
  match x with
  | S754_zero _ => true
  | S754_finite false m e => (e <=? 0)%Z && (Z.pos m <=? 2 ^ (- e))%Z
  | _ => false
  end.

(** ** The store of NumPy arrays

    The arrays of a pool are shared objects: the pool writes into them
    in place and hands out copies.  An array therefore lives at a
    location of a store, and [copy()] allocates a new location. *)

Definition loc : Type := nat.

Inductive pyval : Type :=
  | VFloat (a : ndarray float)
  | VBool (a : ndarray bool).

(** NumPy's broadcasting of the value of an assignment to the shape
    it is assigned to: axes of length one in excess at the front are
    dropped, the others are aligned to the right and must have the
    length of the target axis or length one *)
Fixpoint strip_leading_ones (extra : nat) (shp : list nat)
  : option (list nat) :=
  match extra, shp with
  | 0, _ => Some shp
  | S k, 1 :: shp' => strip_leading_ones k shp'
  | S _, _ => None
  end.

Definition broadcast_to {A} (v : ndarray A) (target : list nat)
  : option (list A) :=
  vs ← strip_leading_ones (length (shape v) - length target) (shape v);
  let vs := replicate (length target - length vs) 1 ++ vs in
  if bool_decide (Forall2 (λ d t, d = t ∨ d = 1) vs target) then
    mapM (λ j, data v !! ravel vs
                 (zip_with (λ d ix, if decide (d = 1) then 0 else ix)
                    vs (unravel target j)))
         (seq 0 (size_of target))
  else None.

(** [arr[i] = v] on the first axis of a [float32] array: [v] is
    broadcast to the shape of a row and converted to [float32]; an
    index out of range raises *)
Definition setitem_row (arr : ndarray float) (i : nat) (v : ndarray float)
  : option (ndarray float) :=
  match shape arr with
  | [] => None
  | n :: rest =>
      if decide (i < n) then
        elts ← broadcast_to v rest;
        let sz := size_of rest in
        Some (mk_ndarray (shape arr)
                (take (i * sz) (data arr) ++ (to_float32 <$> elts)
                   ++ drop (S i * sz) (data arr)))
      else None
  end.

(** [arr[i] = x] on a one-axis array; an index out of range raises *)
Definition setitem {A} (arr : ndarray A) (i : nat) (x : A)
  : option (ndarray A) :=
  if decide (i < length (data arr))
  then Some (mk_ndarray (shape arr) (<[i := x]> (data arr)))
  else None.

(** ** EnvPool *)

Module EnvPool.

Section Pool.
Context {action info W E : Type} `{!Env action info W E}.

(** calls made to the slot environments, in the order they happen *)
Inductive event : Type :=
  | EvReset (e : E)
  | EvStep (e : E) (a : action)
  | EvClose (e : E)
  | EvCopy (e new : E).

Record state : Type := mk_state {
  world : W;
  arrays : list pyval;
  log : list event
}.

Definition set_arrays (st : state) (arrs : list pyval) : state :=
  mk_state (world st) arrs (log st).

(** a computation that reads and writes the state and may raise *)
Definition M (A : Type) : Type := state → option (A * state).

#[global] Instance M_ret : MRet M := λ A x st, Some (x, st).
#[global] Instance M_bind : MBind M :=
  λ A B k m st, match m st with
                | Some (x, st') => k x st'
                | None => None
                end.
Definition raise {A} : M A := λ _, None.

Definition get_array (l : loc) : M pyval :=
  λ st, v ← arrays st !! l; Some (v, st).

Definition set_array (l : loc) (v : pyval) : M unit :=
  λ st, if decide (l < length (arrays st))
        then Some (tt, set_arrays st (<[l := v]> (arrays st)))
        else None.

Definition alloc (v : pyval) : M loc :=
  λ st, Some (length (arrays st), set_arrays st (arrays st ++ [v])).

(** an attribute that is only bound by [reset] *)
Definition attr {A} (o : option A) : M A :=
  match o with Some x => mret x | None => raise end.

(** [a.copy()] *)
Definition np_copy (l : loc) : M loc := v ← get_array l; alloc v.

Definition call_reset (e : E) : M (ndarray float) :=
  λ st, '(obs, w) ← env_reset e (world st);
        Some (obs, mk_state w (arrays st) (log st ++ [EvReset e])).

Definition call_step (e : E) (a : action)
  : M (ndarray float * float * bool * info) :=
  λ st, '(r, w) ← env_step e a (world st);
        Some (r, mk_state w (arrays st) (log st ++ [EvStep e a])).

Definition call_close (e : E) : M unit :=
  λ st, w ← env_close e (world st);
        Some (tt, mk_state w (arrays st) (log st ++ [EvClose e])).

Definition call_copy (e : E) : M E :=
  λ st, '(e', w) ← env_copy e (world st);
        Some (e', mk_state w (arrays st) (log st ++ [EvCopy e e'])).

Definition call_observation_space (e : E) : M Box :=
  λ st, b ← env_observation_space e (world st); Some (b, st).

(** [self._states[i] = v], [self._rewards[i] = r], [self._dones[i] = d] *)
Definition store_row (l : loc) (i : nat) (v : ndarray float) : M unit :=
  a ← get_array l;
  match a with
  | VFloat arr =>
      match setitem_row arr i v with
      | Some arr' => set_array l (VFloat arr')
      | None => raise
      end
  | VBool _ => raise
  end.

Definition store_float (l : loc) (i : nat) (x : float) : M unit :=
  a ← get_array l;
  match a with
  | VFloat arr =>
      match setitem arr i (to_float32 x) with
      | Some arr' => set_array l (VFloat arr')
      | None => raise
      end
  | VBool _ => raise
  end.

Definition store_bool (l : loc) (i : nat) (b : bool) : M unit :=
  a ← get_array l;
  match a with
  | VBool arr =>
      match setitem arr i b with
      | Some arr' => set_array l (VBool arr')
      | None => raise
      end
  | VFloat _ => raise
  end.

Record t : Type := mk {
  initial_env : E;
  n_envs : nat;
  env_shape : list nat;
  envs : list E;
  _states : option loc;
  _rewards : option loc;
  _dones : option loc
}.

Definition close (self : t) : M unit :=
  foldr (λ env k, call_close env;; k) (mret tt) (envs self).

(** [[copy(self.initial_env) for _ in range(n)]] *)
Fixpoint copies (e : E) (n : nat) : M (list E) :=
  match n with
  | 0 => mret []
  | S n' => c ← call_copy e; cs ← copies e n'; mret (c :: cs)
  end.

Definition recreate_envs (self : t) : M t :=
  close self;;
  es ← copies (initial_env self) (n_envs self);
  mret (mk (initial_env self) (n_envs self) (env_shape self) es
          (_states self) (_rewards self) (_dones self)).

(** [for i, env in enumerate(self.envs): self._states[i] = env.reset()] *)
Fixpoint reset_loop (self : t) (i : nat) (es : list E) : M unit :=
  match es with
  | [] => mret tt
  | env :: es' =>
      s ← call_reset env;
      l ← attr (_states self);
      store_row l i s;;
      reset_loop self (S i) es'
  end.

Definition reset (self : t) : M (loc * t) :=
  s ← alloc (VFloat (zeros zero (n_envs self :: env_shape self)));
  r ← alloc (VFloat (zeros zero [n_envs self]));
  d ← alloc (VBool (zeros false [n_envs self]));
  let self := mk (initial_env self) (n_envs self) (env_shape self)
                 (envs self) (Some s) (Some r) (Some d) in
  reset_loop self 0 (envs self);;
  l ← attr (_states self);
  out ← np_copy l;
  mret (out, self).

(** the body of the loop of [step] for slot [i] *)
Definition step_slot (self : t) (i : nat) (a : action) (env : E) : M unit :=
  '(new_s, r, done, _) ← call_step env a;
  lr ← attr (_rewards self);
  store_float lr i r;;
  ld ← attr (_dones self);
  store_bool ld i done;;
  if negb done then
    ls ← attr (_states self);
    store_row ls i new_s
  else
    s ← call_reset env;
    ls ← attr (_states self);
    store_row ls i s.

(** [for i, (action, env) in enumerate(zip(actions, self.envs))] *)
Fixpoint step_loop (self : t) (i : nat) (pairs : list (action * E))
  : M unit :=
  match pairs with
  | [] => mret tt
  | (a, env) :: pairs' =>
      step_slot self i a env;; step_loop self (S i) pairs'
  end.

Definition step (self : t) (actions : list action)
  : M (loc * loc * loc * option info) :=
  step_loop self 0 (zip actions (envs self));;
  ls ← attr (_states self);
  s ← np_copy ls;
  lr ← attr (_rewards self);
  r ← np_copy lr;
  ld ← attr (_dones self);
  d ← np_copy ld;
  mret (s, r, d, None).

Definition pool_states (self : t) : M loc :=
  ls ← attr (_states self); np_copy ls.

Definition __init__ (env : E) (n_envs : nat) (autoreload_envs : bool)
  : M t :=
  space ← call_observation_space env;
  let self := mk env n_envs (box_shape space) [] None None None in
  self ← recreate_envs self;
  '(_, self) ← reset self;
  mret self.

(** *** The loops on array values

    What one pass of the loops of [step] and [reset] does to the three
    arrays of the pool, with the arrays taken as values rather than as
    locations of the store.  [EnvPoolFacts] shows that the methods
    above compute exactly this on the arrays the pool holds. *)

Record view : Type := mk_view {
  v_world : W;
  v_events : list event;
  v_states : ndarray float;
  v_rewards : ndarray float;
  v_dones : ndarray bool
}.

Definition slot_effect (i : nat) (a : action) (env : E) (v : view)
  : option view :=
  '(new_s, r, done, _, w) ← env_step env a (v_world v);
  rewards ← setitem (v_rewards v) i (to_float32 r);
  dones ← setitem (v_dones v) i done;
  if negb done then
    states ← setitem_row (v_states v) i new_s;
    Some (mk_view w (v_events v ++ [EvStep env a]) states rewards dones)
  else
    '(s, w) ← env_reset env w;
    states ← setitem_row (v_states v) i s;
    Some (mk_view w (v_events v ++ [EvStep env a; EvReset env])
            states rewards dones).

Fixpoint loop_effect (i : nat) (pairs : list (action * E)) (v : view)
  : option view :=
  match pairs with
  | [] => Some v
  | (a, env) :: pairs' =>
      v ← slot_effect i a env v; loop_effect (S i) pairs' v
  end.

Definition reset_slot_effect (i : nat) (env : E) (v : view) : option view :=
  '(s, w) ← env_reset env (v_world v);
  states ← setitem_row (v_states v) i s;
  Some (mk_view w (v_events v ++ [EvReset env]) states
          (v_rewards v) (v_dones v)).

Fixpoint reset_effect (i : nat) (es : list E) (v : view) : option view :=
  match es with
  | [] => Some v
  | env :: es' => v ← reset_slot_effect i env v; reset_effect (S i) es' v
  end.

(** the view of a state through the three locations of a pool, and
    the state that holds a view at them *)
Definition put (ls lr ld : loc) (v : view) (st : state) : state :=
  mk_state (v_world v)
    (<[ls := VFloat (v_states v)]>
       (<[ld := VBool (v_dones v)]>
          (<[lr := VFloat (v_rewards v)]> (arrays st))))
    (v_events v).

(** the state [st] holds the view [v] at the three locations bound
    in [self] *)
Definition pool_at (self : t) (ls lr ld : loc) (v : view) (st : state)
  : Prop :=
  _states self = Some ls ∧ _rewards self = Some lr ∧ _dones self = Some ld
  ∧ ls ≠ lr ∧ ls ≠ ld ∧ lr ≠ ld
  ∧ arrays st !! ls = Some (VFloat (v_states v))
  ∧ arrays st !! lr = Some (VFloat (v_rewards v))
  ∧ arrays st !! ld = Some (VBool (v_dones v))
  ∧ world st = v_world v ∧ log st = v_events v.

(** the view a state holds at three locations *)
Definition view_at (ls lr ld : loc) (st : state) : option view :=
  match arrays st !! ls, arrays st !! lr, arrays st !! ld with
  | Some (VFloat s), Some (VFloat r), Some (VBool d) =>
      Some (mk_view (world st) (log st) s r d)
  | _, _, _ => None
  end.

(** the three arrays have the shapes [reset] gives them *)
Definition shaped (self : t) (v : view) : Prop :=
  shape (v_states v) = n_envs self :: env_shape self ∧ wf (v_states v)
  ∧ shape (v_rewards v) = [n_envs self] ∧ wf (v_rewards v)
  ∧ shape (v_dones v) = [n_envs self] ∧ wf (v_dones v).

(** the three arrays of a view, in the order [step] returns them *)
Definition returned (v : view) : list pyval :=
  [VFloat (v_states v); VFloat (v_rewards v); VBool (v_dones v)].

(** the arrays [reset] allocates, the state once they are allocated,
    and the pool once they are bound *)
Definition fresh_view (self : t) (st : state) : view :=
  mk_view (world st) (log st)
    (zeros zero (n_envs self :: env_shape self))
    (zeros zero [n_envs self]) (zeros false [n_envs self]).

Definition after_alloc (self : t) (st : state) : state :=
  set_arrays st (arrays st ++ returned (fresh_view self st)).

Definition bound (self : t) (l : loc) : t :=
  mk (initial_env self) (n_envs self) (env_shape self) (envs self)
     (Some l) (Some (S l)) (Some (S (S l))).

(** the entries of slot [j] in the three arrays *)
Definition slot_entry (v : view) (j : nat)
  : option (ndarray float) * option float * option bool :=
  (row (v_states v) j, data (v_rewards v) !! j, data (v_dones v) !! j).

(** the slots stepped, in the order of the log *)
Definition steps_of (evs : list event) : list (action * E) :=
  omap (λ ev, match ev with EvStep e a => Some (a, e) | _ => None end) evs.

(** the slots reset, in the order of the log *)
Definition resets_of (evs : list event) : list E :=
  omap (λ ev, match ev with EvReset e => Some e | _ => None end) evs.

(** *** Calls from outside *)

Inductive call : Type :=
  | CReset
  | CStep (actions : list action)
  | CPoolStates.

(** a call, with the locations of the arrays it returns *)
Definition run_call (c : call) (self : t) : M (list loc * t) :=
  match c with
  | CReset => '(out, self) ← reset self; mret ([out], self)
  | CStep actions => '(s, r, d, _) ← step self actions; mret ([s; r; d], self)
  | CPoolStates => out ← pool_states self; mret ([out], self)
  end.

Fixpoint run_calls (cs : list call) (self : t) : M t :=
  match cs with
  | [] => mret self
  | c :: cs' => '(_, self) ← run_call c self; run_calls cs' self
  end.

End Pool.

End EnvPool.

(** ** Wrapper objects as environments

    A [FrameBuffer] is itself an environment, and the pool copies it
    with [copy.copy].  The copy is a new object whose attributes are
    the attributes of the original: in particular its [env] attribute
    is the same reference.  The [framebuffer] attribute is only ever
    rebound to a new array, never written in place, so it is kept by
    value. *)

Module FrameBufferObj.

Section Objects.
Context {action info W E : Type} `{!Env action info W E}.

Definition store : Type := W * list (FrameBuffer.t E).

Definition observation_space (l : loc) (s : store) : option Box :=
  self ← s.2 !! l; Some (FrameBuffer.observation_space self).

Definition reset (l : loc) (s : store) : option (ndarray float * store) :=
  self ← s.2 !! l;
  '(out, self, w) ← FrameBuffer.reset self s.1;
  Some (out, (w, <[l := self]> s.2)).

Definition step (l : loc) (a : action) (s : store)
  : option ((ndarray float * float * bool * info) * store) :=
  self ← s.2 !! l;
  '(out, self, w) ← FrameBuffer.step self a s.1;
  Some (out, (w, <[l := self]> s.2)).

(** [gym.Wrapper.close] closes the wrapped environment *)
Definition close (l : loc) (s : store) : option store :=
  self ← s.2 !! l;
  w ← env_close (FrameBuffer.env self) s.1;
  Some (w, s.2).

(** [copy.copy(obj)] *)
Definition copy (l : loc) (s : store) : option (loc * store) :=
  self ← s.2 !! l;
  Some (length s.2, (s.1, s.2 ++ [self])).

#[global] Instance FrameBuffer_Env : Env action info store loc := {
  env_observation_space := observation_space;
  env_reset := reset;
  env_step := step;
  env_close := close;
  env_copy := copy
}.

End Objects.

End FrameBufferObj.

(** ** A scripted base environment

    A stand-in for the external simulator: a counter that [reset] sets
    to a fixed start value and every step increments; the observation
    shows the counter in every entry of an array of the declared
    shape, the reward is the counter, and the episode ends when the
    action says so. *)

Module Ticker.

Record sim : Type := mk_sim {
  sim_shape : list nat;
  start : nat;
  ticks : nat
}.

Definition observe (s : sim) : ndarray float :=
  mk_ndarray (sim_shape s)
    (replicate (size_of (sim_shape s)) (of_Z (Z.of_nat (ticks s)))).

Definition observation_space (l : loc) (w : list sim) : option Box :=
  s ← w !! l; Some (mk_Box zero one (sim_shape s)).

Definition reset (l : loc) (w : list sim) : option (ndarray float * list sim) :=
  s ← w !! l;
  let s := mk_sim (sim_shape s) (start s) (start s) in
  Some (observe s, <[l := s]> w).

Definition step (l : loc) (a : bool) (w : list sim)
  : option ((ndarray float * float * bool * unit) * list sim) :=
  s ← w !! l;
  let s := mk_sim (sim_shape s) (start s) (S (ticks s)) in
  Some ((observe s, of_Z (Z.of_nat (ticks s)), a, tt), <[l := s]> w).

Definition close (l : loc) (w : list sim) : option (list sim) :=
  _ ← w !! l; Some w.

Definition copy (l : loc) (w : list sim) : option (loc * list sim) :=
  s ← w !! l; Some (length w, w ++ [s]).

#[global] Instance Ticker_Env : Env bool unit (list sim) loc := {
  env_observation_space := observation_space;
  env_reset := reset;
  env_step := step;
  env_close := close;
  env_copy := copy
}.

End Ticker.

(** ** Stand-ins and scenarios

    Concrete inputs on which the model is run. *)

(** a nearest-neighbour resize, in the place of the external
    [imresize] *)
Definition nearest_resize (im : ndarray PreprocessImage.uint8)
    (size : nat * nat) : option (ndarray PreprocessImage.uint8) :=
  match shape im with
  | [H; Wd; c] =>
      let '(h, w) := size in
      elts ← mapM (λ j, match unravel [h; w; c] j with
                        | [i; k; ch] =>
                            data im !! ravel [H; Wd; c]
                                         [i * H / h; k * Wd / w; ch]
                        | _ => None
                        end)
                (seq 0 (size_of [h; w; c]));
      Some (mk_ndarray [h; w; c] elts)
  | _ => None
  end.

Module Scenario.

(** one scripted environment, observing arrays of shape [(2,)] and
    starting every episode at 5 *)
Definition world0 : list Ticker.sim := [Ticker.mk_sim [2] 5 0].

Definition state0 : @EnvPool.state bool (list Ticker.sim) loc :=
  EnvPool.mk_state world0 [] [].

(** a pool of three slots on it, and the pool after one step in which
    no slot ends its episode *)
Definition built : option (EnvPool.t * EnvPool.state) :=
  EnvPool.__init__ (info:=unit) 0 3 false state0.

Definition stepped_once : option (EnvPool.t * EnvPool.state) :=
  '(pool, st) ← built;
  '(_, st) ← EnvPool.step (info:=unit) pool [false; false; false] st;
  Some (pool, st).

(** a scripted environment with image-like observations of shape
    [(2, 2, 3)], and one with flat observations of three features *)
Definition image_world : list Ticker.sim := [Ticker.mk_sim [2; 2; 3] 5 0].

Definition flat_world : list Ticker.sim := [Ticker.mk_sim [3] 5 0].

(** a [FrameBuffer] of two frames on [world0], as its constructor
    builds it, and the same with two observations in its buffer *)
Definition frames2 : FrameBuffer.t loc :=
  FrameBuffer.mk 0 (zeros zero [2; 2])
    (FrameBuffer.auto_reshape_fn [1; 0] [2; 2]) (mk_Box zero one [2; 2]).

Definition frames2_filled : FrameBuffer.t loc :=
  FrameBuffer.mk 0
    (mk_ndarray [2; 2] [of_Z 6; of_Z 6; of_Z 5; of_Z 5])
    (FrameBuffer.auto_reshape_fn [1; 0] [2; 2]) (mk_Box zero one [2; 2]).

(** a raw image of four by four pixels with three channels *)
Definition image443 : ndarray PreprocessImage.uint8 :=
  mk_ndarray [4; 4; 3]
    ((λ n, default "000"%byte (Byte.of_N (N.of_nat (5 * n)))) <$> seq 0 48).

(** a [FrameBuffer] of two frames on [world0], as an object of a
    store, and a pool of two slots on it *)
Definition wrapped_world : option (FrameBufferObj.store (E:=loc)) :=
  fb ← FrameBuffer.__init__ (action:=bool) (info:=unit) 0 2 None world0;
  Some (world0, [fb]).

Definition wrapped_built
  : option (EnvPool.t * @EnvPool.state bool (FrameBufferObj.store (E:=loc)) loc) :=
  w ← wrapped_world;
  EnvPool.__init__ (action:=bool) (info:=unit) 0 2 false
    (EnvPool.mk_state w [] []).

End Scenario.

(** ** Checks by exhaustive evaluation *)

#[global] Instance spec_float_eq_dec : EqDecision spec_float.
Proof. solve_decision. Defined.

(** [P] holds of every integer in [[0, n)] *)
Definition range_check (n : nat) (P : Z → bool) : bool :=
  forallb P (Z.of_nat <$> seq 0 n).

(** the [float64] values of the first [n] naturals *)
Definition floats_upto (n : nat) : list float :=
  (λ k, of_Z (Z.of_nat k)) <$> seq 0 n.

(** a table of exact sums: for the [a]-th entry [fa] of [fas] and the
    [b]-th entry [p] of [addends], the [float64] sum of [fa] and [p]
    is entry [a + b] of [sums] *)
Fixpoint rows_exact (addends sums fas : list float) : bool :=
  match fas, sums with
  | fa :: fas', _ :: sums' =>
      forallb (λ p, bool_decide (add64 fa p.1 = p.2)) (zip addends sums)
      && rows_exact addends sums' fas'
  | [], _ => true
  | _ :: _, [] => false
  end.

(** the scaled mean of [c] pixels whose sum is [s] is in the unit
    interval *)
Definition gray_checkb (c s : Z) : bool :=
  in_unit_intervalb
    (PreprocessImage.scale_value (div64 (of_Z s) (of_Z c))).

(** the sum of the pixels of a run, as an integer *)
Definition sumZ (l : list PreprocessImage.uint8) : Z :=
  foldr (λ b acc, Z.of_N (Byte.to_N b) + acc)%Z 0%Z l.

(** ** Values of the observation *)

(** the channel values of pixel [k] of an image with [c] channels *)
Definition channels_of (x : ndarray PreprocessImage.uint8) (c k : nat)
  : list PreprocessImage.uint8 :=
  take c (drop (k * c) (data x)).

(** [x] is finite and within [2^-23], the spacing of [float32] just
    below one, of the rational [q] *)
Definition close_to (x : float) (q : Q) : Prop :=
  ∃ v, float_value x = Some v ∧ (Qabs (v - q) <= 1 # 8388608)%Q.

Definition close_tob (x : float) (num den : Z) : bool :=
  match float_value x with
  | Some v => Qle_bool (Qabs (v - inject_Z num / inject_Z den)) (1 # 8388608)
  | None => false
  end.

(** the scaled mean of [c] pixels whose sum is [s] is close to
    [s / (255 c)], and the scaled pixel [b] to [b / 255] *)
Definition gray_close_checkb (c s : Z) : bool :=
  close_tob (PreprocessImage.scale_value (div64 (of_Z s) (of_Z c)))
    s (c * 255).

Definition color_close_checkb (b : Z) : bool :=
  close_tob (PreprocessImage.scale_value (of_Z b)) b 255.

(** ** Bounds of rounded values

    [between lo hi x]: [x] is zero or a positive finite value with
    [lo ≤ x ≤ hi], held with an exponent that is not positive. *)
Definition between (lo hi : Z) (x : float) : Prop :=
  match x with
  | S754_zero false => (lo ≤ 0 ≤ hi)%Z
  | S754_finite false m e =>
      (e ≤ 0 ∧ lo * 2 ^ (- e) ≤ Z.pos m ≤ hi * 2 ^ (- e))%Z
  | _ => False
  end.

(** one when bits have been shifted out of the record, or the value
    it was made from was not exact *)
Definition lost (mrs : shr_record) : Z :=
  if shr_r mrs || shr_s mrs then 1%Z else 0%Z.

Definition inexact (l : location) : Z :=
  match l with loc_Exact => 0%Z | loc_Inexact _ => 1%Z end.

(** the mantissa of a record at exponent [e], with what was lost,
    stays between [lo] and [hi] *)
Definition held (lo hi : Z) (mrs : shr_record) (e : Z) : Prop :=
  (e ≤ 0 ∧ 0 ≤ shr_m mrs ∧ lo * 2 ^ (- e) ≤ shr_m mrs
   ∧ shr_m mrs + lost mrs ≤ hi * 2 ^ (- e))%Z.

(** ** Runs of a wrapped environment *)

Section Runs.
Context {action info W E : Type} `{!Env action info W E}.

(** the observations an environment returns when it is stepped with
    the actions of a list, one after the other *)
Fixpoint env_observations (e : E) (acts : list action) (w : W)
  : option (list (ndarray float) * W) :=
  match acts with
  | [] => Some ([], w)
  | a :: acts' =>
      '(obs, _, _, _, w) ← env_step e a w;
      '(obss, w) ← env_observations e acts' w;
      Some (obs :: obss, w)
  end.

End Runs.

(** ** Objects that wrap the same environment *)

Section SameInner.
Context {E : Type}.

(** the objects of two stores wrap the same environments, object by
    object *)
Definition same_inner (objs0 objs : list (FrameBuffer.t E)) : Prop :=
  Forall2 (λ a b, FrameBuffer.env b = FrameBuffer.env a) objs0 objs.

End SameInner.

(** ** More checks and scenarios *)

(** the scripted environments never raise on a store of four
    simulators observing arrays of shape [(2,)] *)
Definition four_sims (w : list Ticker.sim) : Prop :=
  length w = 4 ∧ Forall (λ s, Ticker.sim_shape s = [2]) w.

(** the order of the rationals, as a test *)
Definition Qltb (p q : Q) : bool :=
  (Qnum p * Z.pos (Qden q) <? Qnum q * Z.pos (Qden p))%Z.

(** the scaled value of pixel [n] is finite and below that of pixel
    [n + 1] *)
Definition increasing_checkb (n : Z) : bool :=
  match float_value (PreprocessImage.scale_value (of_Z n)),
        float_value (PreprocessImage.scale_value (of_Z (n + 1))) with
  | Some p, Some q => Qltb p q
  | _, _ => false
  end.

(** the [float64] mean of [c] pixels of value [b] is [b] *)
Definition gray_exact_checkb (c b : Z) : bool :=
  bool_decide (div64 (of_Z (c * b)) (of_Z c) = of_Z b).

(** * Properties *)

Open Scope nat_scope.

Example transpose_2x3 :
  transpose (mk_ndarray [2; 3] [1; 2; 3; 4; 5; 6]) [1; 0]
  = Some (mk_ndarray [3; 2] [1; 4; 2; 5; 3; 6]).
Proof. reflexivity. Qed.

Example transpose_2x2x2 :
  transpose (mk_ndarray [2; 2; 2] [0; 1; 2; 3; 4; 5; 6; 7]) [1; 2; 0]
  = Some (mk_ndarray [2; 2; 2] [0; 4; 1; 5; 2; 6; 3; 7]).
Proof. reflexivity. Qed.

(** ** Arrays *)

Section NpLemmas.
Context {A : Type}.
Implicit Types (x y : ndarray A) (shp idx axes : list nat).

Lemma size_of_app shp1 shp2 :
  size_of (shp1 ++ shp2) = size_of shp1 * size_of shp2.
Proof.
  induction shp1 as [|d shp1 IH]; simpl; [lia|]. rewrite IH. lia.
Qed.

Lemma wf_zeros (z : A) shp : wf (zeros z shp).
Proof. unfold wf, zeros. simpl. apply length_replicate. Qed.

Lemma unravel_lt shp j :
  j < size_of shp → Forall2 lt (unravel shp j) shp.
Proof.
  revert j. induction shp as [|d rest IH]; intros j Hj; simpl in *.
  - constructor.
  - assert (size_of rest ≠ 0) by (intros E; rewrite E in Hj; lia).
    constructor.
    + apply Nat.Div0.div_lt_upper_bound. lia.
    + apply IH. apply Nat.mod_upper_bound. done.
Qed.

Lemma ravel_lt shp idx :
  Forall2 lt idx shp → ravel shp idx < size_of shp.
Proof.
  induction 1 as [|i d idx shp Hi _ IH]; simpl; [lia|]. nia.
Qed.

Lemma ravel_unravel shp j :
  j < size_of shp → ravel shp (unravel shp j) = j.
Proof.
  revert j. induction shp as [|d rest IH]; intros j Hj; simpl in *.
  - lia.
  - assert (size_of rest ≠ 0) by (intros E; rewrite E in Hj; lia).
    rewrite IH by (by apply Nat.mod_upper_bound).
    rewrite (Nat.div_mod_eq j (size_of rest)) at 3. lia.
Qed.

Lemma index_of_lookup a axes :
  a ∈ axes → axes !! index_of a axes = Some a.
Proof.
  induction axes as [|b axes IH]; intros Ha; [by inversion Ha|].
  simpl. destruct (decide (a = b)) as [->|Hne]; [done|].
  simpl. apply IH. inversion Ha; subst; done.
Qed.

Lemma source_index_lt axes idx shp :
  axes ≡ₚ seq 0 (length shp) →
  Forall2 lt idx ((λ a, shp !!! a) <$> axes) →
  Forall2 lt (source_index axes idx) shp.
Proof.
  intros Hp Hidx. unfold source_index.
  assert (Hlen : length axes = length shp).
  { rewrite Hp. by rewrite length_seq. }
  apply Forall2_same_length_lookup. split.
  { by rewrite length_fmap, length_seq. }
  intros a i d Hi Hd.
  rewrite list_lookup_fmap in Hi.
  destruct (seq 0 (length axes) !! a) as [a'|] eqn:Ha; [|done].
  simpl in Hi. injection Hi as <-.
  apply lookup_seq in Ha as [-> Ha]. simpl in *.
  assert (a ∈ axes) as Hin.
  { rewrite Hp. apply elem_of_seq. lia. }
  pose proof (index_of_lookup _ _ Hin) as Hk.
  assert (is_Some (idx !! index_of a axes)) as [i Hi].
  { apply lookup_lt_is_Some. rewrite (Forall2_length Hidx), length_fmap.
    by apply lookup_lt_Some in Hk. }
  rewrite (list_lookup_total_correct _ _ _ Hi).
  eapply Forall2_lookup_lr; [exact Hidx|exact Hi|].
  rewrite list_lookup_fmap, Hk. simpl.
  by rewrite (list_lookup_total_correct _ _ _ Hd).
Qed.

Lemma transpose_Some x axes :
  wf x → axes ≡ₚ seq 0 (length (shape x)) →
  ∃ y, transpose x axes = Some y
       ∧ shape y = (λ a, shape x !!! a) <$> axes ∧ wf y.
Proof.
  intros Hwf Hp. unfold transpose.
  rewrite bool_decide_eq_true_2 by done.
  set (shp := (λ a, shape x !!! a) <$> axes).
  destruct (mapM _ _) as [elts|] eqn:Hm.
  - eexists. split; [done|]. split; [done|].
    unfold wf. simpl. apply length_mapM in Hm.
    rewrite length_seq in Hm. done.
  - exfalso. assert (is_Some (mapM (λ j, data x !! ravel (shape x)
       (source_index axes (unravel shp j))) (seq 0 (size_of shp)))) as [? He].
    { apply mapM_is_Some. apply list.Forall_forall. intros j Hj.
      apply elem_of_seq in Hj. simpl.
      apply lookup_lt_is_Some. rewrite Hwf.
      apply ravel_lt, source_index_lt; [done|].
      apply unravel_lt. subst shp. simpl in *. lia. }
    congruence.
Qed.

End NpLemmas.

(** ** Stores into arrays *)

Section Setitem.

Lemma broadcast_to_length {A} (v : ndarray A) target elts :
  broadcast_to v target = Some elts → length elts = size_of target.
Proof.
  unfold broadcast_to. intros H.
  destruct (strip_leading_ones _ _) as [vs|]; [|done]. simpl in H.
  destruct (bool_decide _); [|done].
  apply length_mapM in H. by rewrite length_seq in H.
Qed.

Lemma broadcast_index_same idx shp :
  Forall2 lt idx shp →
  zip_with (λ d ix, if decide (d = 1) then 0 else ix) shp idx = idx.
Proof.
  induction 1 as [|ix d idx shp Hd _ IH]; simpl; [done|].
  rewrite IH. destruct (decide (d = 1)); [|done]. f_equal. lia.
Qed.

Lemma broadcast_to_same {A} (v : ndarray A) :
  wf v → broadcast_to v (shape v) = Some (data v).
Proof.
  intros Hwf. unfold broadcast_to.
  rewrite Nat.sub_diag. simpl. rewrite Nat.sub_diag. simpl.
  rewrite bool_decide_eq_true_2.
  2:{ apply Forall2_same_length_lookup. split; [done|]. intros i x y Hx Hy.
      left. congruence. }
  apply mapM_Some. apply Forall2_same_length_lookup. split.
  { by rewrite length_seq. }
  intros j k x Hk Hx. apply lookup_seq in Hk as [-> Hk]. simpl in *.
  rewrite broadcast_index_same by (by apply unravel_lt).
  by rewrite ravel_unravel.
Qed.

Lemma row_lookup {A} (x : ndarray A) n rest i :
  shape x = n :: rest → i < n →
  row x i = Some (mk_ndarray rest
                    (take (size_of rest) (drop (i * size_of rest) (data x)))).
Proof. intros Hs Hi. unfold row. rewrite Hs. by rewrite decide_True. Qed.

Lemma setitem_row_spec (arr arr' v : ndarray float) i n rest :
  setitem_row arr i v = Some arr' →
  shape arr = n :: rest → wf arr →
  ∃ elts,
    broadcast_to v rest = Some elts
    ∧ i < n
    ∧ shape arr' = n :: rest ∧ wf arr'
    ∧ row arr' i = Some (mk_ndarray rest (to_float32 <$> elts))
    ∧ ∀ j, j ≠ i → row arr' j = row arr j.
Proof.
  unfold setitem_row. intros H Hs Hwf. rewrite Hs in H.
  destruct (decide (i < n)) as [Hi|]; [|done].
  destruct (broadcast_to v rest) as [elts|] eqn:Hb; [|done].
  simpl in H. injection H as <-.
  pose proof (broadcast_to_length _ _ _ Hb) as Hlen.
  unfold wf in Hwf. rewrite Hs in Hwf. simpl in Hwf.
  set (sz := size_of rest) in *.
  assert (length (take (i * sz) (data arr)) = i * sz) as Hl1.
  { rewrite length_take. nia. }
  exists elts. split; [done|]. split; [done|]. split; [done|]. split; [|split].
  - unfold wf. simpl. fold sz.
    rewrite !length_app, Hl1, length_fmap, Hlen, length_drop. nia.
  - erewrite row_lookup; [|simpl; reflexivity|done]. simpl. fold sz. f_equal. f_equal.
    rewrite drop_app_length' by done.
    rewrite take_app_length' by (by rewrite length_fmap). done.
  - intros j Hj. unfold row. simpl. rewrite Hs.
    destruct (decide (j < n)) as [Hjn|]; [|done]. fold sz. do 2 f_equal.
    destruct (decide (j < i)) as [Hlt|Hge].
    + rewrite !take_drop_commute. f_equal.
      rewrite take_app_le by (rewrite Hl1; nia).
      rewrite take_take. f_equal. nia.
    + assert (i < j) as Hgt by lia.
      rewrite drop_app_ge by (rewrite Hl1; nia). rewrite Hl1.
      rewrite drop_app_ge by (rewrite length_fmap, Hlen; fold sz; nia).
      rewrite length_fmap, Hlen. fold sz. rewrite drop_drop. do 2 f_equal. nia.
Qed.

Lemma setitem_spec {A} (arr arr' : ndarray A) i x :
  setitem arr i x = Some arr' →
  i < length (data arr)
  ∧ shape arr' = shape arr
  ∧ length (data arr') = length (data arr)
  ∧ data arr' !! i = Some x
  ∧ ∀ j, j ≠ i → data arr' !! j = data arr !! j.
Proof.
  unfold setitem. intros H. destruct (decide _) as [Hi|]; [|done].
  injection H as <-. simpl. split; [done|]. split; [done|].
  split; [apply length_insert|]. split.
  - by apply list_lookup_insert_eq.
  - intros j Hj. by apply list_lookup_insert_ne.
Qed.

End Setitem.

(** ** FrameBuffer *)

Module FrameBufferFacts.
Import FrameBuffer.

Lemma rotation_perm n : seq 1 n ++ [0] ≡ₚ seq 0 (S n).
Proof. simpl. symmetry. apply Permutation_cons_append. Qed.

Lemma rotated_shape (K : nat) (base : list nat) :
  (λ a, (K :: base) !!! a) <$> (seq 1 (length base) ++ [0]) = base ++ [K].
Proof.
  rewrite fmap_app. simpl. f_equal.
  apply list_eq. intros i. rewrite list_lookup_fmap.
  destruct (decide (i < length base)) as [Hi|Hi].
  - rewrite lookup_seq_lt by done. simpl.
    destruct (lookup_lt_is_Some_2 base i Hi) as [d Hd].
    rewrite Hd. f_equal. by apply list_lookup_total_correct.
  - rewrite (lookup_ge_None_2 base) by lia.
    rewrite (lookup_ge_None_2 (seq _ _)); [done|]. rewrite length_seq. lia.
Qed.

Lemma auto_result_shape_flat features K :
  auto_result_shape [features] K = Some [features; K].
Proof. unfold auto_result_shape. simpl. by rewrite Nat.add_0_r. Qed.

Lemma auto_result_shape_stack base K :
  2 ≤ length base →
  ∃ d, base !! (length base - 1) = Some d
       ∧ auto_result_shape base K
         = Some (take (length base - 1) base ++ [d * K]).
Proof.
  intros Hlen. unfold auto_result_shape.
  rewrite decide_False by lia.
  destruct (lookup_lt_is_Some_2 base (length base - 1)) as [d Hd]; [lia|].
  exists d. split; [done|]. rewrite Hd. simpl. f_equal.
  rewrite <- (take_drop (length base - 1) base) at 2.
  assert (length (take (length base - 1) base) = length base - 1) as Hl
    by (rewrite length_take; lia).
  rewrite <- Hl at 1. rewrite <- (Nat.add_0_r (length (take _ _))).
  rewrite insert_app_r. f_equal.
  assert (length (drop (length base - 1) base) = 1) as Hd1
    by (rewrite length_drop; lia).
  destruct (drop (length base - 1) base) as [|x [|? ?]]; simpl in *; try lia.
  done.
Qed.

Lemma size_of_result_stack base d K :
  base !! (length base - 1) = Some d →
  size_of (take (length base - 1) base ++ [d * K]) = size_of (base ++ [K]).
Proof.
  intros Hd. rewrite <- (take_drop (length base - 1) base) at 3.
  rewrite !size_of_app.
  assert (drop (length base - 1) base = [d]) as ->.
  { apply list_eq. intros [|i].
    - rewrite lookup_drop, Nat.add_0_r. done.
    - rewrite lookup_drop. simpl. apply lookup_ge_None_2.
      apply lookup_lt_Some in Hd. lia. }
  simpl. lia.
Qed.

(** the default [reshape_fn] on a well-formed buffer *)
Lemma auto_reshape_fn_Some K base rs (x : ndarray float) :
  wf x → shape x = K :: base →
  size_of rs = size_of (base ++ [K]) →
  ∃ y, auto_reshape_fn (seq 1 (length base) ++ [0]) rs x = Some y
       ∧ shape y = rs ∧ wf y.
Proof.
  intros Hwf Hshape Hsize. unfold auto_reshape_fn.
  destruct (transpose_Some x (seq 1 (length base) ++ [0]) Hwf)
    as (y & Hy & Hsy & Hwy).
  { rewrite Hshape. apply rotation_perm. }
  rewrite Hy. simpl. unfold reshape.
  rewrite Hsy, Hshape, rotated_shape.
  rewrite decide_True by done.
  eexists. split; [done|]. split; [done|].
  unfold wf in *. simpl. rewrite Hwy, Hsy, Hshape, rotated_shape. done.
Qed.

Lemma auto_reshape_fn_shape dims rs (x y : ndarray float) :
  auto_reshape_fn dims rs x = Some y → shape y = rs.
Proof.
  unfold auto_reshape_fn, reshape. intros H.
  destruct (transpose x dims) as [z|]; simpl in H; [|done].
  destruct (decide _); [|done]. by injection H as <-.
Qed.

Section Rows.
Context {A : Type}.
Implicit Types (hd rest l : list A).

Lemma row_head K base hd rest :
  0 < K → length hd = size_of base →
  row (mk_ndarray (K :: base) (hd ++ rest)) 0 = Some (mk_ndarray base hd).
Proof.
  intros HK Hlen. unfold row. simpl.
  rewrite decide_True by done. rewrite drop_0.
  by rewrite take_app_length'.
Qed.

Lemma row_shift K base hd l k :
  S k < K → length hd = size_of base →
  row (mk_ndarray (K :: base) (hd ++ take ((K - 1) * size_of base) l)) (S k)
  = row (mk_ndarray (K :: base) l) k.
Proof.
  intros Hk Hlen. unfold row. simpl.
  rewrite !decide_True by lia. do 2 f_equal.
  rewrite drop_app_ge by lia.
  replace (size_of base + k * size_of base - length hd)
    with (k * size_of base) by lia.
  rewrite !take_drop_commute. f_equal.
  rewrite take_take. f_equal. nia.
Qed.

Lemma row_zeros K base hd (z : A) k :
  1 ≤ k < K → length hd = size_of base →
  row (mk_ndarray (K :: base)
         (hd ++ take ((K - 1) * size_of base)
                  (replicate (size_of (K :: base)) z))) k
  = Some (zeros z base).
Proof.
  intros Hk Hlen. destruct k as [|k]; [lia|].
  rewrite row_shift by (done || lia).
  unfold row, zeros. simpl. rewrite decide_True by lia.
  do 2 f_equal. rewrite drop_replicate, take_replicate. f_equal. nia.
Qed.

End Rows.

Section Wrapper.
Context {action info W E : Type} `{!Env action info W E}.
Implicit Types (self fb : t E) (obs : ndarray float).

Lemma init_default (e : E) (K : nat) (w : W) space rs :
  env_observation_space e w = Some space →
  auto_result_shape (box_shape space) K = Some rs →
  size_of rs = size_of (box_shape space ++ [K]) →
  let dims := seq 1 (length (box_shape space)) ++ [0] in
  __init__ e K None w
  = Some (mk e (zeros zero (K :: box_shape space))
               (auto_reshape_fn dims rs) (mk_Box zero one rs)).
Proof.
  intros Hsp Hrs Hsz dims. unfold __init__. rewrite Hsp. simpl.
  rewrite Hrs. simpl.
  destruct (auto_reshape_fn_Some K (box_shape space) rs
              (zeros zero (K :: box_shape space))) as (y & Hy & Hsy & _);
    [apply wf_zeros|done|done|].
  subst dims. rewrite Hy. simpl. by rewrite Hsy.
Qed.

Lemma update_buffer_Some self obs K base :
  shape (framebuffer self) = K :: base → base ≠ [] → 1 ≤ K →
  shape obs = base →
  update_buffer self obs
  = Some (set_framebuffer self
            (mk_ndarray (K :: base)
               (data obs ++ take ((K - 1) * size_of base)
                              (data (framebuffer self))))).
Proof.
  intros Hfb Hne HK Hobs. unfold update_buffer, drop_last_row.
  rewrite Hfb. simpl. unfold vstack2, atleast_2d, newaxis. simpl.
  rewrite Hobs. destruct base as [|d base]; [done|]. simpl.
  unfold concatenate0. simpl. rewrite decide_True by done. simpl.
  replace (Init.Nat.pred K) with (K - 1) by lia.
  replace (S (K - 1)) with K by lia. done.
Qed.

Lemma update_buffer_inv self self' obs K base :
  update_buffer self obs = Some self' →
  shape (framebuffer self) = K :: base → base ≠ [] → 1 ≤ K →
  shape (framebuffer self') = K :: base
  ∧ env self' = env self
  ∧ reshape_fn self' = reshape_fn self
  ∧ observation_space self' = observation_space self.
Proof.
  unfold update_buffer, drop_last_row. intros H Hfb Hne HK.
  rewrite Hfb in H. simpl in H.
  destruct (vstack2 _ _) as [fb|] eqn:Hv; [|done].
  injection H as <-. simpl. split; [|done].
  unfold vstack2, concatenate0 in Hv.
  destruct base as [|d base]; [done|].
  unfold atleast_2d at 2 in Hv. simpl in Hv.
  assert (∃ r, shape (atleast_2d (newaxis obs)) = 1 :: r) as [r Hr].
  { unfold atleast_2d, newaxis. simpl.
    destruct (shape obs) as [|? ?]; simpl; eauto. }
  rewrite Hr in Hv. destruct (decide _) as [->|]; [|done].
  injection Hv as <-. simpl. f_equal. lia.
Qed.

Lemma run_invariant K base rs dims cs :
  base ≠ [] → 1 ≤ K →
  ∀ fb w outs fb' w',
    shape (framebuffer fb) = K :: base →
    reshape_fn fb = auto_reshape_fn dims rs →
    run cs fb w = Some (outs, fb', w') →
    observation_space fb' = observation_space fb
    ∧ Forall (λ o, shape o = rs) outs.
Proof.
  intros Hne HK. induction cs as [|c cs IH]; intros fb w outs fb' w' Hsh Hfn Hrun.
  - simpl in Hrun. injection Hrun as <- <- <-. by split.
  - simpl in Hrun.
    destruct (run_call c fb w) as [[[out fb1] w1]|] eqn:Hc; [|done].
    simpl in Hrun.
    destruct (run cs fb1 w1) as [[[outs1 fb2] w2]|] eqn:Hr; [|done].
    simpl in Hrun. injection Hrun as <- <- <-.
    assert (shape (framebuffer fb1) = K :: base
            ∧ reshape_fn fb1 = reshape_fn fb
            ∧ observation_space fb1 = observation_space fb
            ∧ reshape_fn fb (framebuffer fb1) = Some out) as (H1 & H2 & H3 & H4).
    { destruct c as [|a]; simpl in Hc.
      - unfold reset in Hc. simpl in Hc.
        destruct (env_reset (env fb) w) as [[obs wr]|]; [|done]. simpl in Hc.
        destruct (update_buffer _ obs) as [fbu|] eqn:Hu; [|done]. simpl in Hc.
        destruct (update_buffer_inv _ _ _ K base Hu) as (?&?&Hf&?);
          [done..|].
        destruct (reshape_fn fbu (framebuffer fbu)) as [o|] eqn:Ho; [|done].
        simpl in Hc. injection Hc as <- <- <-. simpl in *.
        rewrite <- Hf. done.
      - unfold step in Hc.
        destruct (env_step (env fb) a w) as [[[[[obs r] d] i] ws]|]; [|done].
        simpl in Hc.
        destruct (update_buffer _ obs) as [fbu|] eqn:Hu; [|done]. simpl in Hc.
        destruct (update_buffer_inv _ _ _ K base Hu) as (?&?&Hf&?);
          [done..|].
        destruct (reshape_fn fbu (framebuffer fbu)) as [o|] eqn:Ho; [|done].
        simpl in Hc. injection Hc as <- <- <-.
        rewrite <- Hf. done. }
    destruct (IH fb1 w1 outs1 fb2 w2 H1) as [IH1 IH2]; [congruence|done|].
    split; [congruence|]. constructor; [|done].
    rewrite Hfn in H4. by eapply auto_reshape_fn_shape.
Qed.

(** C3, as the code has it: on a flat feature vector of length
    [features] the exported observation shape has two axes,
    [(features, K)]. *)
Theorem flat_vector_exported_shape (e : E) (K : nat) (w : W) (space : Box)
    (features : nat) :
  1 ≤ K →
  env_observation_space e w = Some space →
  box_shape space = [features] →
  ∃ fb, __init__ e K None w = Some fb
        ∧ box_shape (observation_space fb) = [features; K].
Proof.
  intros HK Hsp Hflat.
  eexists. split.
  - apply init_default with (rs := [features; K]); [done|..].
    + rewrite Hflat. apply auto_result_shape_flat.
    + by rewrite Hflat.
  - done.
Qed.

(** C8: with a base shape of at least two axes the exported shape is
    the base shape with its last axis multiplied by [K]; it is set by
    the constructor, no sequence of [step] and [reset] calls changes
    it, and every observation these calls return has it. *)
Theorem stacked_exported_shape (e : E) (K : nat) (w : W) (space : Box) :
  1 ≤ K →
  env_observation_space e w = Some space →
  2 ≤ length (box_shape space) →
  ∃ fb d,
    __init__ e K None w = Some fb
    ∧ box_shape space !! (length (box_shape space) - 1) = Some d
    ∧ box_shape (observation_space fb)
      = take (length (box_shape space) - 1) (box_shape space) ++ [d * K]
    ∧ ∀ cs w1 outs fb' w',
        run cs fb w1 = Some (outs, fb', w') →
        observation_space fb' = observation_space fb
        ∧ Forall (λ o, shape o = box_shape (observation_space fb)) outs.
Proof.
  intros HK Hsp Hlen.
  destruct (auto_result_shape_stack (box_shape space) K Hlen) as (d & Hd & Hrs).
  eexists _, d. split; [|split; [exact Hd|split]].
  - eapply init_default; [done|exact Hrs|].
    by apply size_of_result_stack.
  - done.
  - intros cs w1 outs fb' w' Hrun.
    assert (box_shape space ≠ []) as Hne.
    { intros Hnil. rewrite Hnil in Hlen. simpl in Hlen. lia. }
    refine (run_invariant K (box_shape space) _ _ cs Hne HK
              (mk _ _ _ _) _ _ _ _ _ _ Hrun); reflexivity.
Qed.

(** C6: [reset] zeroes the buffer and pushes the initial observation
    of the wrapped environment once: row 0 of the buffer is that
    observation, the other [K - 1] rows are zero, and the value
    returned is [reshape_fn] of this buffer (a result whenever
    [reshape_fn] is the default one). *)
Theorem reset_buffer_contents self (w w' : W) obs (K : nat) (base : list nat) :
  1 ≤ K → base ≠ [] →
  shape (framebuffer self) = K :: base →
  env_reset (env self) w = Some (obs, w') →
  shape obs = base → wf obs →
  ∃ self',
    update_buffer (set_framebuffer self (zeros_like zero (framebuffer self))) obs
      = Some self'
    ∧ reset self w
      = (out ← reshape_fn self (framebuffer self'); Some (out, self', w'))
    ∧ shape (framebuffer self') = K :: base
    ∧ row (framebuffer self') 0 = Some obs
    ∧ (∀ k, 1 ≤ k < K → row (framebuffer self') k = Some (zeros zero base))
    ∧ (∀ rs, reshape_fn self = auto_reshape_fn (seq 1 (length base) ++ [0]) rs →
             size_of rs = size_of (base ++ [K]) →
             ∃ out, reset self w = Some (out, self', w') ∧ shape out = rs).
Proof.
  intros HK Hne Hsh Hreset Hobs Hwf.
  pose proof (update_buffer_Some
    (set_framebuffer self (zeros_like zero (framebuffer self))) obs K base) as Hu.
  simpl in Hu. rewrite Hsh in Hu. specialize (Hu eq_refl Hne HK Hobs).
  eexists. split; [exact Hu|].
  assert (reset self w = out ← reshape_fn self (mk_ndarray (K :: base)
     (data obs ++ take ((K - 1) * size_of base) (replicate (size_of (K :: base)) zero)));
     Some (out, set_framebuffer (set_framebuffer self (zeros_like zero (framebuffer self)))
       (mk_ndarray (K :: base)
     (data obs ++ take ((K - 1) * size_of base) (replicate (size_of (K :: base)) zero))), w')) as Hr.
  { unfold reset. simpl. rewrite Hreset. simpl. unfold zeros_like, zeros.
    rewrite Hsh. unfold zeros_like, zeros in Hu. rewrite Hsh in Hu.
    rewrite Hu. done. }
  unfold zeros_like, zeros. rewrite Hsh. simpl.
  split; [exact Hr|]. split; [done|].
  assert (length (data obs) = size_of base) as Hlen by (by rewrite <- Hobs).
  split; [|split].
  - rewrite row_head by (done || lia). destruct obs as [s dt]. simpl in *.
    by rewrite Hobs.
  - intros k Hk. by apply row_zeros.
  - intros rs Hfn Hsz. rewrite Hr, Hfn.
    edestruct (auto_reshape_fn_Some K base rs) as (y & Hy & Hsy & _);
      [| |done|].
    3:{ rewrite Hy. simpl. eauto. }
    + unfold wf. simpl. rewrite length_app, length_take, length_replicate, Hlen.
      nia.
    + done.
Qed.

(** C7: [step] passes the action to the wrapped environment, pushes
    the observation it returns at row 0, moves every older row one
    place back (the row at index [K - 1] is dropped), and returns
    [reshape_fn] of the buffer together with the reward, the done flag
    and the info of the wrapped environment. *)
Theorem step_delegates_and_shifts self (a : action) (w w' : W) obs r d i
    (K : nat) (base : list nat) :
  1 ≤ K → base ≠ [] →
  shape (framebuffer self) = K :: base → wf (framebuffer self) →
  env_step (env self) a w = Some ((obs, r, d, i), w') →
  shape obs = base → wf obs →
  ∃ self',
    update_buffer self obs = Some self'
    ∧ step self a w
      = (out ← reshape_fn self (framebuffer self'); Some ((out, r, d, i), self', w'))
    ∧ shape (framebuffer self') = K :: base
    ∧ wf (framebuffer self')
    ∧ row (framebuffer self') 0 = Some obs
    ∧ (∀ k, S k < K → row (framebuffer self') (S k) = row (framebuffer self) k)
    ∧ (∀ rs, reshape_fn self = auto_reshape_fn (seq 1 (length base) ++ [0]) rs →
             size_of rs = size_of (base ++ [K]) →
             ∃ out, step self a w = Some ((out, r, d, i), self', w')
                    ∧ shape out = rs).
Proof.
  intros HK Hne Hsh Hwfb Hstep Hobs Hwf.
  pose proof (update_buffer_Some self obs K base Hsh Hne HK Hobs) as Hu.
  eexists. split; [exact Hu|].
  assert (length (data obs) = size_of base) as Hlen by (by rewrite <- Hobs).
  assert (wf (mk_ndarray (K :: base)
           (data obs ++ take ((K - 1) * size_of base) (data (framebuffer self)))))
    as Hwf'.
  { unfold wf in *. simpl. rewrite length_app, length_take, Hlen, Hwfb, Hsh.
    simpl. nia. }
  assert (step self a w = out ← reshape_fn self (mk_ndarray (K :: base)
           (data obs ++ take ((K - 1) * size_of base) (data (framebuffer self))));
     Some ((out, r, d, i), set_framebuffer self (mk_ndarray (K :: base)
           (data obs ++ take ((K - 1) * size_of base) (data (framebuffer self)))), w')) as Hs.
  { unfold step. rewrite Hstep. simpl. rewrite Hu. done. }
  simpl. split; [exact Hs|]. split; [done|]. split; [done|].
  split; [|split].
  - rewrite row_head by (done || lia). destruct obs as [s dt]. simpl in *.
    by rewrite Hobs.
  - intros k Hk. rewrite row_shift by done.
    destruct (framebuffer self) as [s dt]. simpl in *. by rewrite Hsh.
  - intros rs Hfn Hsz. rewrite Hs, Hfn.
    edestruct (auto_reshape_fn_Some K base rs) as (y & Hy & Hsy & _);
      [exact Hwf'|done|done|].
    rewrite Hy. simpl. eauto.
Qed.

End Wrapper.

(** *** The claims on concrete inputs *)

Lemma flat_vector_exported_shape_witness :
  ∃ fb, __init__ (action:=bool) (info:=unit) 0 2 None Scenario.flat_world
        = Some fb
        ∧ box_shape (observation_space fb) = [3; 2].
Proof.
  apply (flat_vector_exported_shape (action:=bool) (info:=unit)
           0 2 Scenario.flat_world (mk_Box zero one [3]) 3);
    [lia | reflexivity | reflexivity].
Defined.

(** C3 as stated fails: three features stacked twice are exported
    with shape [(3, 2)], not [(6,)]. *)
Lemma flat_vector_shape_counterexample :
  ¬ ∃ fb, __init__ (action:=bool) (info:=unit) 0 2 None Scenario.flat_world
          = Some fb
          ∧ box_shape (observation_space fb) = [3 * 2].
Proof.
  intros (fb & Hfb & Hs). vm_compute in Hfb. injection Hfb as <-.
  simpl in Hs. discriminate.
Qed.

Lemma stacked_exported_shape_witness :
  ∃ fb d,
    __init__ (action:=bool) (info:=unit) 0 4 None Scenario.image_world
    = Some fb
    ∧ [2; 2; 3] !! 2 = Some d
    ∧ box_shape (observation_space fb) = [2; 2] ++ [d * 4]
    ∧ ∀ cs w1 outs fb' w',
        run cs fb w1 = Some (outs, fb', w') →
        observation_space fb' = observation_space fb
        ∧ Forall (λ o, shape o = box_shape (observation_space fb)) outs.
Proof.
  apply (stacked_exported_shape (action:=bool) (info:=unit)
           0 4 Scenario.image_world (mk_Box zero one [2; 2; 3]));
    [lia | reflexivity | simpl; lia].
Defined.

Lemma reset_buffer_contents_witness :
  ∃ self' out,
    reset (action:=bool) (info:=unit) Scenario.frames2 Scenario.world0
    = Some (out, self', [Ticker.mk_sim [2] 5 5])
    ∧ row (framebuffer self') 0 = Some (Ticker.observe (Ticker.mk_sim [2] 5 5))
    ∧ row (framebuffer self') 1 = Some (zeros zero [2]).
Proof.
  destruct (reset_buffer_contents (action:=bool) (info:=unit)
              Scenario.frames2 Scenario.world0 [Ticker.mk_sim [2] 5 5]
              (Ticker.observe (Ticker.mk_sim [2] 5 5)) 2 [2])
    as (self' & _ & _ & _ & Hrow0 & Hrows & Hdefault);
    [lia | discriminate | reflexivity | reflexivity | reflexivity
     | reflexivity |].
  destruct (Hdefault [2; 2] eq_refl eq_refl) as (out & Hout & _).
  exists self', out. split; [exact Hout|]. split; [exact Hrow0|].
  apply Hrows. lia.
Defined.

Lemma step_delegates_and_shifts_witness :
  ∃ self' out,
    step (action:=bool) (info:=unit) Scenario.frames2_filled true
      [Ticker.mk_sim [2] 5 6]
    = Some ((out, of_Z 7, true, tt), self', [Ticker.mk_sim [2] 5 7])
    ∧ row (framebuffer self') 0 = Some (Ticker.observe (Ticker.mk_sim [2] 5 7))
    ∧ row (framebuffer self') 1 = row (framebuffer Scenario.frames2_filled) 0.
Proof.
  destruct (step_delegates_and_shifts (action:=bool) (info:=unit)
              Scenario.frames2_filled true [Ticker.mk_sim [2] 5 6]
              [Ticker.mk_sim [2] 5 7]
              (Ticker.observe (Ticker.mk_sim [2] 5 7)) (of_Z 7) true tt 2 [2])
    as (self' & _ & _ & _ & _ & Hrow0 & Hrows & Hdefault);
    [lia | discriminate | reflexivity | reflexivity | reflexivity
     | reflexivity | reflexivity |].
  destruct (Hdefault [2; 2] eq_refl eq_refl) as (out & Hout & _).
  exists self', out. split; [exact Hout|]. split; [exact Hrow0|].
  apply Hrows. lia.
Defined.

End FrameBufferFacts.

(** ** PreprocessImage *)

Lemma range_check_spec n P z :
  range_check n P = true → (0 ≤ z < Z.of_nat n)%Z → P z = true.
Proof.
  unfold range_check. rewrite forallb_forall. intros H Hz. apply H.
  apply list_elem_of_In, list_elem_of_fmap. exists (Z.to_nat z). split; [lia|].
  apply elem_of_seq. lia.
Qed.

Lemma Qpower_2_opp (p : Z) :
  (0 <= p)%Z → (2 ^ (- p) == / inject_Z (2 ^ p))%Q.
Proof.
  intros Hp. rewrite Qpower_opp, (Zpower_Qpower 2 p Hp). reflexivity.
Qed.

Lemma in_unit_intervalb_sound (x : float) :
  in_unit_intervalb x = true → in_unit_interval x.
Proof.
  destruct x as [s|s| |s m e]; try done.
  - intros _. exists 0%Q. split; [done|]. split; [apply Qle_refl|done].
  - simpl. destruct s; [done|]. intros H.
    apply andb_true_iff in H as [He Hm].
    apply Z.leb_le in He, Hm.
    eexists. split; [reflexivity|].
    assert (e = - (- e))%Z as -> by lia.
    set (p := (- e)%Z) in *. assert (0 <= p)%Z as Hp by lia.
    assert (0 < 2 ^ p)%Z as Hpos by (apply Z.pow_pos_nonneg; lia).
    assert (0 < inject_Z (2 ^ p))%Q as HposQ.
    { rewrite <- (Zlt_Qlt 0). done. }
    split.
    + rewrite (Qpower_2_opp p Hp), Qmult_1_l.
      apply Qmult_le_0_compat.
      * rewrite <- (Zle_Qle 0). lia.
      * apply Qlt_le_weak, Qinv_lt_0_compat. done.
    + rewrite (Qpower_2_opp p Hp), Qmult_1_l.
      apply Qle_shift_div_r; [done|]. rewrite Qmult_1_l.
      rewrite <- Zle_Qle. done.
Qed.

(** ** Bounds kept by rounding

    Rounding to nearest keeps a value between two integers that the
    format represents: the mantissa of a bounded value has at most
    [prec] digits above exponent zero, so that every exponent on the
    way is nonpositive and the bounds are multiples of the last
    place. *)

Module Rounding.

Local Open Scope Z_scope.

Lemma pow2_pos (k : Z) : 0 ≤ k → 0 < 2 ^ k.
Proof. intros. apply Z.pow_pos_nonneg; lia. Qed.

Lemma pow2_succ (k : Z) : 0 ≤ k → 2 ^ (k + 1) = 2 * 2 ^ k.
Proof. intros. rewrite Z.pow_add_r by lia. lia. Qed.

Lemma digits2_pos_bounds (p : positive) :
  2 ^ (Z.pos (digits2_pos p) - 1) ≤ Z.pos p < 2 ^ Z.pos (digits2_pos p).
Proof.
  induction p as [p IH|p IH|]; cbn [digits2_pos]; [| |simpl; lia].
  - rewrite Pos2Z.inj_succ. set (d := Z.pos (digits2_pos p)) in *.
    replace (Z.succ d - 1) with (d - 1 + 1) by lia.
    replace (Z.succ d) with (d + 1) by lia.
    rewrite !pow2_succ by lia. lia.
  - rewrite Pos2Z.inj_succ. set (d := Z.pos (digits2_pos p)) in *.
    replace (Z.succ d - 1) with (d - 1 + 1) by lia.
    replace (Z.succ d) with (d + 1) by lia.
    rewrite !pow2_succ by lia. lia.
Qed.

Lemma iter_xO (d p : positive) :
  Z.pos (Pos.iter xO p d) = Z.pos p * 2 ^ Z.pos d.
Proof.
  revert p. induction d as [d IH|d IH|]; intros p; cbn [Pos.iter].
  - rewrite Pos2Z.inj_xO, !IH.
    replace (Z.pos d~1) with (Z.pos d + Z.pos d + 1) by lia.
    rewrite !Z.pow_add_r by lia. lia.
  - rewrite !IH. replace (Z.pos d~0) with (Z.pos d + Z.pos d) by lia.
    rewrite !Z.pow_add_r by lia. lia.
  - lia.
Qed.

Section Format.
Variables prec emax : Z.
Hypothesis prec_gt_1 : 1 < prec.
Hypothesis prec_emax : prec ≤ emax.

Lemma fexp_nonpos (x : Z) : x ≤ prec → fexp prec emax x ≤ 0.
Proof. unfold fexp, emin. lia. Qed.

Lemma digits_le (m e hi : Z) :
  e ≤ 0 → 0 ≤ m → hi < 2 ^ prec → m ≤ hi * 2 ^ (- e) →
  Zdigits2 m + e ≤ prec.
Proof.
  intros He Hm Hhi Hle. destruct m as [|p|p]; [simpl; lia| |lia].
  cbn [Zdigits2]. pose proof (digits2_pos_bounds p) as [Hd _].
  set (d := Z.pos (digits2_pos p)) in *.
  pose proof (pow2_pos (- e) ltac:(lia)) as Hpe.
  assert (2 ^ (d - 1) < 2 ^ (prec + - e)) as Hlt.
  { rewrite Z.pow_add_r by lia.
    apply Z.le_lt_trans with (hi * 2 ^ (- e)); [lia|].
    by apply Z.mul_lt_mono_pos_r. }
  apply Z.pow_lt_mono_r_iff in Hlt; lia.
Qed.

Lemma held_shr_1 lo hi mrs e :
  held lo hi mrs e → e + 1 ≤ 0 → held lo hi (shr_1 mrs) (e + 1).
Proof.
  unfold held, lost. intros (He & Hm & Hlo & Hhi) He'.
  replace (- e) with (- (e + 1) + 1) in Hlo, Hhi by lia.
  rewrite pow2_succ in Hlo, Hhi by lia.
  pose proof (pow2_pos (- (e + 1)) ltac:(lia)) as HP.
  set (P := 2 ^ (- (e + 1))) in *.
  destruct mrs as [m r s]. cbn [shr_m shr_r shr_s] in *.
  destruct m as [|[p|p|]|p]; [| | | |lia]; cbn [shr_1 shr_m shr_r shr_s];
    destruct r, s; cbn [orb] in *; lia.
Qed.

Lemma held_iter lo hi (n : positive) : ∀ mrs e,
  held lo hi mrs e → e + Z.pos n ≤ 0 →
  held lo hi (SpecFloat.iter_pos shr_1 n mrs) (e + Z.pos n).
Proof.
  induction n as [n IH|n IH|]; intros mrs e Hh He; cbn [SpecFloat.iter_pos].
  - replace (e + Z.pos n~1) with (e + 1 + Z.pos n + Z.pos n) by lia.
    apply IH; [|lia]. apply IH; [|lia]. apply held_shr_1; [done|lia].
  - replace (e + Z.pos n~0) with (e + Z.pos n + Z.pos n) by lia.
    apply IH; [|lia]. apply IH; [done|lia].
  - by apply held_shr_1.
Qed.

Lemma held_shr_fexp lo hi m e l :
  hi < 2 ^ prec → e ≤ 0 → 0 ≤ m →
  lo * 2 ^ (- e) ≤ m → m + inexact l ≤ hi * 2 ^ (- e) →
  held lo hi (shr_fexp prec emax m e l).1 (shr_fexp prec emax m e l).2.
Proof.
  intros Hhi He Hm Hlo Hup.
  assert (held lo hi (shr_record_of_loc m l) e) as Hh.
  { unfold held, lost. destruct l as [|[| |]]; cbn in *; lia. }
  unfold shr_fexp, shr.
  pose proof (fexp_nonpos (Zdigits2 m + e)
                (digits_le m e hi He Hm Hhi ltac:(unfold inexact in Hup; destruct l; lia)))
    as Hf.
  destruct (fexp prec emax (Zdigits2 m + e) - e) as [|n|n] eqn:Hn;
    cbn [fst snd]; [done| |done].
  apply held_iter; [done|lia].
Qed.

Lemma between_round_aux lo hi m e l :
  hi < 2 ^ prec → e ≤ 0 → 0 ≤ m →
  lo * 2 ^ (- e) ≤ m → m + inexact l ≤ hi * 2 ^ (- e) →
  between lo hi (binary_round_aux prec emax false m e l).
Proof.
  intros Hhi He Hm Hlo Hup. unfold binary_round_aux.
  pose proof (held_shr_fexp lo hi m e l Hhi He Hm Hlo Hup) as Hh.
  destruct (shr_fexp prec emax m e l) as [mrs' e']. cbn [fst snd] in Hh.
  destruct Hh as (He' & Hm' & Hlo' & Hup').
  set (m1 := round_nearest_even (shr_m mrs') (loc_of_shr_record mrs')).
  assert (shr_m mrs' ≤ m1 ≤ shr_m mrs' + lost mrs') as Hm1.
  { unfold m1, lost. destruct mrs' as [m' [|] [|]]; cbn;
      try destruct (Z.even m'); lia. }
  pose proof (held_shr_fexp lo hi m1 e' loc_Exact Hhi He' ltac:(lia)
                ltac:(lia) ltac:(cbn; lia)) as Hh.
  destruct (shr_fexp prec emax m1 e' loc_Exact) as [mrs'' e''].
  cbn [fst snd] in Hh. destruct Hh as (He'' & Hm'' & Hlo'' & Hup'').
  pose proof (pow2_pos (- e'') ltac:(lia)) as HP.
  assert (0 ≤ lost mrs'') as Hl by (unfold lost; destruct (_ || _); lia).
  destruct (shr_m mrs'') as [|p|p] eqn:Hp; [| |lia].
  - cbn. nia.
  - destruct (Z.leb_spec e'' (emax - prec)); [|lia]. cbn. lia.
Qed.

Lemma between_round lo hi (p : positive) e :
  hi < 2 ^ prec → e ≤ 0 →
  lo * 2 ^ (- e) ≤ Z.pos p ≤ hi * 2 ^ (- e) →
  between lo hi (binary_round prec emax false p e).
Proof.
  intros Hhi He [Hlo Hup]. unfold binary_round, shl_align.
  destruct (fexp prec emax (Z.pos (digits2_pos p) + e) - e) as [|d|d] eqn:Hd.
  - apply between_round_aux; cbn; lia.
  - apply between_round_aux; cbn; lia.
  - set (e' := fexp prec emax (Z.pos (digits2_pos p) + e)) in *.
    assert (- e' = - e + Z.pos d) as He' by lia.
    apply between_round_aux; [done|lia|lia|..];
      rewrite iter_xO, He', Z.pow_add_r by lia; cbn [inexact]; nia.
Qed.

Lemma inexact_new_location (d r : Z) :
  inexact (new_location d r) = if r =? 0 then 0 else 1.
Proof.
  unfold new_location, new_location_even, new_location_odd.
  destruct (Z.even d), (r =? 0); done.
Qed.

Lemma between_div lo hi c K x y :
  K < 2 ^ prec → 0 < c → hi ≤ K * c →
  between lo hi x → between c c y →
  between 0 K (SFdiv prec emax x y).
Proof.
  intros HK Hc Hhi Hx Hy.
  destruct y as [[|]|[|]| |[|] m2 e2]; cbn in Hy; try done; [lia|].
  destruct x as [[|]|[|]| |[|] m1 e1]; cbn in Hx; try done.
  { cbn. nia. }
  destruct Hx as (He1 & Hlo1 & Hup1). destruct Hy as (He2 & Hlo2 & Hup2).
  unfold SFdiv, SFdiv_core_binary. cbn [xorb Zdigits2].
  pose proof (pow2_pos (- e1) ltac:(lia)) as HP1.
  pose proof (pow2_pos (- e2) ltac:(lia)) as HP2.
  pose proof (digits2_pos_bounds m1) as [Hd1 _].
  pose proof (digits2_pos_bounds m2) as [_ Hd2].
  set (d1 := Z.pos (digits2_pos m1)) in *.
  set (d2 := Z.pos (digits2_pos m2)) in *.
  set (P1 := 2 ^ (- e1)) in *. set (P2 := 2 ^ (- e2)) in *.
  assert (Z.pos m2 = c * P2) as Hm2 by lia.
  assert (Z.pos m1 ≤ K * c * P1) as Hm1 by nia.
  assert (0 < K) as HK0 by nia.
  assert (d1 + e1 - (d2 + e2) ≤ prec) as Hd.
  { assert (2 ^ (d1 - 1 + - e2) < 2 ^ (prec + - e1 + d2)) as Hlt.
    { rewrite !Z.pow_add_r by lia. fold P1 P2.
      apply Z.le_lt_trans with (K * P1 * Z.pos m2); [nia|].
      apply Z.mul_lt_mono_nonneg; [nia| |lia|lia].
      by apply Z.mul_lt_mono_pos_r. }
    apply Z.pow_lt_mono_r_iff in Hlt; lia. }
  pose proof (fexp_nonpos _ Hd) as Hf.
  set (e' := Z.min _ (e1 - e2)) in *.
  assert (e' ≤ 0) as He' by lia.
  set (s := e1 - e2 - e').
  assert (0 ≤ s) as Hs by lia.
  set (m' := match s with Z.pos _ => Z.shiftl (Z.pos m1) s | 0 => Z.pos m1
             | Z.neg _ => 0 end).
  assert (m' = Z.pos m1 * 2 ^ s) as Hm'.
  { unfold m'. destruct s as [|p|p] eqn:Hsp; [lia| |lia].
    by rewrite Z.shiftl_mul_pow2. }
  assert (P1 * 2 ^ s = P2 * 2 ^ (- e')) as Hpow.
  { unfold P1, P2. rewrite <- !Z.pow_add_r by lia. f_equal. lia. }
  pose proof (pow2_pos s Hs) as HPs.
  pose proof (pow2_pos (- e') ltac:(lia)) as HPe.
  set (B := K * 2 ^ (- e')).
  assert (m' ≤ B * Z.pos m2) as Hbound.
  { rewrite Hm', Hm2. unfold B.
    replace (K * 2 ^ (- e') * (c * P2)) with (K * c * (P2 * 2 ^ (- e'))) by lia.
    rewrite <- Hpow. nia. }
  pose proof (Z_div_mod m' (Z.pos m2) ltac:(lia)) as Hdiv.
  destruct (Z.div_eucl m' (Z.pos m2)) as [q r]. destruct Hdiv as [Heq Hr].
  assert (0 ≤ q) as Hq by nia.
  apply between_round_aux; [done|done|done|lia|].
  rewrite inexact_new_location. fold B.
  destruct (Z.eqb_spec r 0); nia.
Qed.

Lemma between_mono lo hi lo' hi' x :
  lo' ≤ lo → hi ≤ hi' → between lo hi x → between lo' hi' x.
Proof.
  intros Hlo Hhi. destruct x as [[|]|[|]| |[|] m e]; cbn; try done; [lia|].
  intros (He & Hl & Hu). pose proof (pow2_pos (- e) ltac:(lia)). nia.
Qed.

Lemma shl_align_fst (m : positive) (e ez : Z) :
  ez ≤ e → Z.pos (shl_align m e ez).1 = Z.pos m * 2 ^ (e - ez).
Proof.
  intros He. unfold shl_align.
  destruct (ez - e) as [|d|d] eqn:Hd; cbn [fst]; [|lia|].
  - replace (e - ez) with 0 by lia. lia.
  - rewrite iter_xO. f_equal. f_equal. lia.
Qed.

Lemma between_add lo1 hi1 lo2 hi2 x y :
  hi1 + hi2 < 2 ^ prec →
  between lo1 hi1 x → between lo2 hi2 y →
  between (lo1 + lo2) (hi1 + hi2) (SFadd prec emax x y).
Proof.
  intros Hhi Hx Hy.
  destruct x as [[|]|[|]| |[|] m1 e1]; cbn in Hx; try done;
    destruct y as [[|]|[|]| |[|] m2 e2]; cbn in Hy; try done.
  - cbn. lia.
  - apply (between_mono lo2 hi2); [lia|lia|done].
  - apply (between_mono lo1 hi1); [lia|lia|done].
  - destruct Hx as (He1 & Hlo1 & Hup1). destruct Hy as (He2 & Hlo2 & Hup2).
    unfold SFadd. cbn [cond_Zopp]. set (ez := Z.min e1 e2).
    pose proof (shl_align_fst m1 e1 ez ltac:(lia)) as H1.
    pose proof (shl_align_fst m2 e2 ez ltac:(lia)) as H2.
    cbn [Z.add binary_normalize].
    assert (2 ^ (- ez) = 2 ^ (- e1) * 2 ^ (e1 - ez)) as Hp1.
    { rewrite <- Z.pow_add_r by lia. f_equal. lia. }
    assert (2 ^ (- ez) = 2 ^ (- e2) * 2 ^ (e2 - ez)) as Hp2.
    { rewrite <- Z.pow_add_r by lia. f_equal. lia. }
    pose proof (pow2_pos (e1 - ez) ltac:(lia)).
    pose proof (pow2_pos (e2 - ez) ltac:(lia)).
    apply between_round; [done|lia|].
    rewrite Pos2Z.inj_add, H1, H2, !Z.mul_add_distr_r.
    rewrite Hp1 at 1 3. rewrite Hp2. nia.
Qed.

Lemma between_normalize (z : Z) :
  0 ≤ z < 2 ^ prec → between z z (binary_normalize prec emax z 0 false).
Proof.
  intros Hz. destruct z as [|p|p]; [cbn; lia| |lia].
  cbn [binary_normalize]. apply between_round; [lia|lia|]. cbn. lia.
Qed.

End Format.

Lemma between_of_Z (z : Z) : 0 ≤ z < 2 ^ 53 → between z z (of_Z z).
Proof. intros Hz. apply between_normalize; unfold prec64, emax64; lia. Qed.

Lemma between_to_float32 lo hi x :
  hi < 2 ^ 24 → between lo hi x → between lo hi (to_float32 x).
Proof.
  intros Hhi Hx. destruct x as [[|]|[|]| |[|] m e]; cbn in Hx; try done.
  cbn [to_float32]. destruct Hx as (He & Hx).
  apply between_round; unfold prec32, emax32; try done; lia.
Qed.

Lemma between_div64 lo hi c K x y :
  K < 2 ^ 53 → 0 < c → hi ≤ K * c →
  between lo hi x → between c c y → between 0 K (div64 x y).
Proof. apply between_div; unfold prec64, emax64; lia. Qed.

Lemma between_div32 lo hi c K x y :
  K < 2 ^ 24 → 0 < c → hi ≤ K * c →
  between lo hi x → between c c y → between 0 K (div32 x y).
Proof. apply between_div; unfold prec32, emax32; lia. Qed.

Lemma between_add64 a b x y :
  a + b < 2 ^ 53 → between a a x → between b b y →
  between (a + b) (a + b) (add64 x y).
Proof. intros H. apply between_add; unfold prec64, emax64; lia. Qed.

Lemma between_unit (x : float) : between 0 1 x → in_unit_interval x.
Proof.
  intros Hx. apply in_unit_intervalb_sound.
  destruct x as [[|]|[|]| |[|] m e]; cbn in Hx; try done.
  cbn. destruct Hx as (He & _ & Hm).
  apply andb_true_iff. split; [apply Z.leb_le|apply Z.leb_le]; lia.
Qed.

End Rounding.

Module PreprocessImageFacts.
Import PreprocessImage.

Lemma floats_upto_lookup n i :
  i < n → floats_upto n !! i = Some (of_Z (Z.of_nat i)).
Proof.
  intros Hi. unfold floats_upto. rewrite list_lookup_fmap.
  by rewrite lookup_seq_lt.
Qed.

Lemma rows_exact_spec addends fas : ∀ sums k fa j p s,
  rows_exact addends sums fas = true →
  fas !! k = Some fa → addends !! j = Some p → sums !! (k + j) = Some s →
  add64 fa p = s.
Proof.
  induction fas as [|fa0 fas IH]; intros sums k fa j p s Hrows Hfa Hp Hs;
    [done|].
  destruct sums as [|s0 sums]; [done|]. simpl in Hrows.
  apply andb_true_iff in Hrows as [Hrow Hrest].
  destruct k as [|k]; simpl in *.
  - injection Hfa as ->. rewrite forallb_forall in Hrow.
    assert (In (p, s) (zip addends (s0 :: sums))) as Hin.
    { apply list_elem_of_In, list_elem_of_lookup. exists j.
      apply lookup_zip_with_Some. eauto. }
    apply Hrow in Hin. by apply bool_decide_eq_true in Hin.
  - by eapply IH.
Qed.

Lemma add_exact_rows :
  rows_exact (take 256 (floats_upto 1022)) (floats_upto 1022)
    (take 766 (floats_upto 1022)) = true.
Proof. vm_compute. reflexivity. Qed.

Lemma gray_check :
  range_check 5 (λ c, (c =? 0)%Z || range_check (Z.to_nat (255 * c + 1)) (gray_checkb c)) = true.
Proof. vm_compute. reflexivity. Qed.

Lemma color_check :
  range_check 256 (λ b, in_unit_intervalb (scale_value (of_Z b))) = true.
Proof. vm_compute. reflexivity. Qed.


Lemma uint8_range (b : uint8) : (0 ≤ Z.of_N (Byte.to_N b) < 256)%Z.
Proof. pose proof (Byte.to_N_bounded b). lia. Qed.

Lemma sumZ_range l : (0 ≤ sumZ l ≤ 255 * Z.of_nat (length l))%Z.
Proof.
  induction l as [|b l IH]; simpl; [lia|].
  pose proof (uint8_range b). lia.
Qed.

Lemma add64_exact (a b : Z) :
  (0 ≤ a < 766)%Z → (0 ≤ b < 256)%Z →
  add64 (of_Z a) (of_Z b) = of_Z (a + b).
Proof.
  intros Ha Hb.
  replace a with (Z.of_nat (Z.to_nat a)) by lia.
  replace b with (Z.of_nat (Z.to_nat b)) by lia.
  rewrite <- Nat2Z.inj_add.
  apply (rows_exact_spec _ _ _ (Z.to_nat a) _ (Z.to_nat b) _ _ add_exact_rows).
  - rewrite lookup_take_lt by lia. apply floats_upto_lookup. lia.
  - rewrite lookup_take_lt by lia. apply floats_upto_lookup. lia.
  - apply floats_upto_lookup. lia.
Qed.

Lemma foldl_add64_exact l (a : Z) :
  (0 ≤ a)%Z → (a + 255 * Z.of_nat (length l) ≤ 1020)%Z →
  foldl add64 (of_Z a) (of_uint8 <$> l) = of_Z (a + sumZ l).
Proof.
  revert a. induction l as [|b l IH]; intros a Ha Hl; simpl in *.
  - by rewrite Z.add_0_r.
  - pose proof (uint8_range b). unfold of_uint8 at 1.
    rewrite add64_exact by lia. rewrite IH by lia. f_equal. lia.
Qed.

Lemma sum64_exact l : length l ≤ 4 → sum64 l = of_Z (sumZ l).
Proof.
  intros Hl. unfold sum64. change zero with (of_Z 0).
  rewrite foldl_add64_exact by lia. done.
Qed.

Lemma mean_in_range l (c : nat) :
  1 ≤ c ≤ 4 → length l ≤ c →
  in_unit_interval (scale_value (div64 (sum64 l) (of_Z (Z.of_nat c)))).
Proof.
  intros Hc Hl. rewrite sum64_exact by lia.
  apply in_unit_intervalb_sound.
  pose proof (sumZ_range l) as Hs.
  assert (0 ≤ Z.of_nat c < Z.of_nat 5)%Z as Hc' by lia.
  pose proof (range_check_spec _ _ _ gray_check Hc') as H. simpl in H.
  apply orb_true_iff in H as [H|H]; [apply Z.eqb_eq in H; lia|].
  apply (range_check_spec _ _ (sumZ l) H). lia.
Qed.

Lemma pixel_in_range (b : uint8) : in_unit_interval (scale_value (of_uint8 b)).
Proof.
  apply in_unit_intervalb_sound.
  apply (range_check_spec _ _ _ color_check). apply uint8_range.
Qed.

(** *** Values close to the mean and bounds for any number of channels *)

Import Rounding.

Lemma close_tob_sound (x : float) (num den : Z) :
  close_tob x num den = true → close_to x (inject_Z num / inject_Z den).
Proof.
  unfold close_tob, close_to. destruct (float_value x) as [v|]; [|done].
  intros Hle. exists v. split; [done|]. by apply Qle_bool_iff.
Qed.

Lemma gray_close_check :
  range_check 5
    (λ c, (c =? 0)%Z
          || range_check (Z.to_nat (255 * c + 1)) (gray_close_checkb c))
  = true.
Proof. vm_compute. reflexivity. Qed.

Lemma color_close_check : range_check 256 color_close_checkb = true.
Proof. vm_compute. reflexivity. Qed.

Lemma mean_close l (c : nat) :
  1 ≤ c ≤ 4 → length l ≤ c →
  close_to (scale_value (div64 (of_Z (sumZ l)) (of_Z (Z.of_nat c))))
    (inject_Z (sumZ l) / inject_Z (Z.of_nat c * 255)).
Proof.
  intros Hc Hl. apply close_tob_sound.
  pose proof (sumZ_range l) as Hs.
  assert (0 ≤ Z.of_nat c < Z.of_nat 5)%Z as Hc' by lia.
  pose proof (range_check_spec _ _ _ gray_close_check Hc') as H. simpl in H.
  apply orb_true_iff in H as [H|H]; [apply Z.eqb_eq in H; lia|].
  apply (range_check_spec _ _ (sumZ l) H). lia.
Qed.

Lemma pixel_close (b : uint8) :
  close_to (scale_value (of_uint8 b))
    (inject_Z (Z.of_N (Byte.to_N b)) / inject_Z 255).
Proof.
  apply close_tob_sound.
  apply (range_check_spec _ _ _ color_close_check). apply uint8_range.
Qed.

Lemma channels_of_length (x : ndarray uint8) (lead : list nat) (c k : nat) :
  wf x → shape x = lead ++ [c] → k < size_of lead →
  length (channels_of x c k) = c.
Proof.
  unfold wf, channels_of. intros Hwf Hs Hk.
  rewrite Hs, size_of_app in Hwf. simpl in Hwf.
  rewrite length_take, length_drop. nia.
Qed.

(** as long as it stays below [2^53] the [float64] sum of pixels has
    the value of their integer sum *)
Lemma foldl_add64_between l : ∀ acc a,
  (0 ≤ a)%Z → (a + sumZ l < 2 ^ 53)%Z → between a a acc →
  between (a + sumZ l) (a + sumZ l) (foldl add64 acc (of_uint8 <$> l)).
Proof.
  induction l as [|b l IH]; intros acc a Ha Hs Hacc.
  - simpl. by rewrite Z.add_0_r.
  - pose proof (uint8_range b). pose proof (sumZ_range l).
    change (sumZ (b :: l)) with (Z.of_N (Byte.to_N b) + sumZ l)%Z in *.
    rewrite Z.add_assoc. rewrite fmap_cons. cbn [foldl].
    apply IH; [lia|lia|].
    apply between_add64; [lia|done|]. apply between_of_Z. lia.
Qed.

Lemma sum64_between l :
  (sumZ l < 2 ^ 53)%Z → between (sumZ l) (sumZ l) (sum64 l).
Proof.
  intros Hs. unfold sum64.
  apply (foldl_add64_between l zero 0); [lia|done|]. cbn. lia.
Qed.

(** the scaled mean is in the unit interval for a run of any length
    [c] with [255 c < 2^53] *)
Lemma mean_in_range_any l (c : nat) :
  1 ≤ c → (255 * Z.of_nat c < 2 ^ 53)%Z → length l ≤ c →
  in_unit_interval (scale_value (div64 (sum64 l) (of_Z (Z.of_nat c)))).
Proof.
  intros Hc Hbig Hl. pose proof (sumZ_range l) as Hs.
  apply between_unit. unfold scale_value.
  apply (between_div32 0 255 255 1); [lia|lia|lia| |].
  - apply between_to_float32; [lia|].
    apply (between_div64 (sumZ l) (sumZ l) (Z.of_nat c) 255); [lia|lia|nia| |].
    + apply sum64_between. lia.
    + apply between_of_Z. lia.
  - apply between_to_float32; [lia|]. apply between_of_Z. lia.
Qed.

Section Claim.
Variable imresize : ndarray uint8 → nat * nat → option (ndarray uint8).

(** [imresize] produces an image of the requested height and width
    and keeps the number of channels *)
Hypothesis imresize_shape : ∀ im h w H Wd c r,
  shape im = [H; Wd; c] → imresize im (h, w) = Some r → shape r = [h; w; c].

(** C9: the transformation of an image that [crop] and [imresize]
    accept returns an array [out]; [out] is well formed and all its
    values are in [0, 1].  Without grayscale [out] has the shape of
    the resized image, and its entry [j] is the scaled pixel [j],
    within [2^-23] of the pixel divided by 255.  With grayscale the
    last axis of the resized image, of any length [c ≥ 1] with
    [255 c < 2^53], is averaged and kept with length one: entry [k] of
    [out] is the scaled [float64] mean of the [c] channel values of
    pixel [k], within [2^-23] of their mean divided by 255 when
    [c ≤ 4].  For an image of three axes [out] has the requested
    height and width, with one channel under grayscale and the
    channels of the image otherwise: shape [(64, 64, 1)] for a
    3-channel image under grayscale at height 64 and width 64. *)
Theorem observation_range_and_shape (self : t)
    (img cropped resized : ndarray uint8) (lead : list nat) (c : nat) :
  crop self img = Some cropped →
  imresize cropped (img_size self) = Some resized →
  wf resized →
  (grayscale self = true →
     shape resized = lead ++ [c] ∧ 1 ≤ c ∧ (255 * Z.of_nat c < 2 ^ 53)%Z) →
  ∃ out,
    _observation imresize self img = Some out
    ∧ wf out
    ∧ Forall in_unit_interval (data out)
    ∧ shape out = (if grayscale self then lead ++ [1] else shape resized)
    ∧ (if grayscale self
       then ∀ k, k < size_of lead →
              ∃ x, data out !! k = Some x
                   ∧ x = scale_value
                           (div64 (sum64 (channels_of resized c k))
                                  (of_Z (Z.of_nat c)))
                   ∧ (c ≤ 4 →
                      close_to x
                        (inject_Z (sumZ (channels_of resized c k))
                         / inject_Z (Z.of_nat c * 255)))
       else ∀ j b, data resized !! j = Some b →
              ∃ x, data out !! j = Some x
                   ∧ x = scale_value (of_uint8 b)
                   ∧ close_to x
                       (inject_Z (Z.of_N (Byte.to_N b)) / inject_Z 255))
    ∧ ∀ H Wd ch, shape cropped = [H; Wd; ch] →
        shape out = [(img_size self).1; (img_size self).2;
                     if grayscale self then 1 else ch].
Proof.
  intros Hcrop Hres Hwf Hgray. unfold _observation. rewrite Hcrop. simpl.
  rewrite Hres. simpl.
  assert (∀ H Wd ch, shape cropped = [H; Wd; ch] →
            shape resized = [(img_size self).1; (img_size self).2; ch])
    as Hshape3.
  { intros H Wd ch Hs. destruct (img_size self) as [h w] eqn:Hsz.
    by eapply imresize_shape. }
  destruct (grayscale self) eqn:Hg.
  - destruct (Hgray eq_refl) as (Hs & Hc & Hbig).
    unfold mean_last_keepdims. rewrite Hs, length_app. cbn [length].
    replace (length lead + 1 - 1) with (length lead) by lia.
    rewrite lookup_app_r, Nat.sub_diag by done.
    cbn [lookup list_lookup mbind option_bind].
    rewrite take_app_length.
    eexists. split; [reflexivity|]. unfold scale. cbn [shape data].
    split; [|split; [|split; [done|split]]].
    + unfold wf. cbn [shape data].
      rewrite !length_fmap, length_seq, size_of_app. simpl. lia.
    + rewrite <- list_fmap_compose. apply Forall_fmap, list.Forall_forall.
      intros k _. simpl. apply mean_in_range_any; [done|done|].
      rewrite length_take. lia.
    + intros k Hk. rewrite <- list_fmap_compose, list_lookup_fmap.
      rewrite lookup_seq_lt by done. cbn [fmap option_fmap option_map compose].
      pose proof (channels_of_length resized lead c k Hwf Hs Hk) as Hlen.
      unfold channels_of in *. rewrite Nat.add_0_l.
      eexists. split; [reflexivity|]. split; [reflexivity|].
      intros Hc4. rewrite sum64_exact by lia. apply mean_close; lia.
    + intros H Wd ch Hsc. pose proof (Hshape3 H Wd ch Hsc) as Hs3.
      rewrite Hs in Hs3.
      change [(img_size self).1; (img_size self).2; ch]
        with ([(img_size self).1; (img_size self).2] ++ [ch]) in Hs3.
      apply app_inj_tail in Hs3 as [-> _]. done.
  - eexists. split; [reflexivity|]. unfold scale. cbn [shape data].
    split; [|split; [|split; [done|split]]].
    + unfold wf in *. cbn [shape data]. by rewrite !length_fmap.
    + rewrite <- list_fmap_compose. apply Forall_fmap, list.Forall_forall.
      intros b _. apply pixel_in_range.
    + intros j b Hb. rewrite <- list_fmap_compose, list_lookup_fmap, Hb.
      eexists. split; [reflexivity|]. split; [reflexivity|].
      apply pixel_close.
    + intros H Wd ch Hsc. by apply (Hshape3 H Wd ch).
Qed.

End Claim.

(** *** The claim on a concrete input *)

Lemma nearest_resize_shape (im : ndarray uint8) (h w H Wd c : nat) r :
  shape im = [H; Wd; c] → nearest_resize im (h, w) = Some r →
  shape r = [h; w; c].
Proof.
  intros Hs. unfold nearest_resize. rewrite Hs.
  destruct (mapM _ _); simpl; [|done]. by intros [= <-].
Qed.

Lemma nearest_resize_wf (im r : ndarray uint8) (size : nat * nat) :
  nearest_resize im size = Some r → wf r.
Proof.
  unfold nearest_resize.
  destruct (shape im) as [|H [|Wd [|c [|? ?]]]]; try done.
  destruct size as [h w]. destruct (mapM _ _) as [elts|] eqn:Hm; [|done].
  apply length_mapM in Hm. rewrite length_seq in Hm.
  cbn [mbind option_bind]. intros [= <-]. unfold wf. cbn [shape data]. done.
Qed.

(** on the 4 x 4 image with three channels, resized to 2 x 2 under
    grayscale: the first pixel has channels 0, 5 and 10 *)
Lemma observation_range_and_shape_witness :
  ∃ out x,
    _observation nearest_resize (__init__ 2 2 true None) Scenario.image443
    = Some out
    ∧ shape out = [2; 2; 1] ∧ length (data out) = 4
    ∧ Forall in_unit_interval (data out)
    ∧ data out !! 0 = Some x
    ∧ close_to x (inject_Z (0 + 5 + 10) / inject_Z (3 * 255)).
Proof.
  destruct (nearest_resize Scenario.image443 (2, 2)) as [resized|] eqn:Hres;
    [|vm_compute in Hres; discriminate].
  destruct (observation_range_and_shape nearest_resize nearest_resize_shape
              (__init__ 2 2 true None) Scenario.image443 Scenario.image443
              resized [2; 2] 3)
    as (out & Hobs & Hwf & Hrange & Hshape & Hmean & _);
    [reflexivity | exact Hres | exact (nearest_resize_wf _ _ _ Hres)
    | intros _; split; [|split; [lia|done]];
      exact (nearest_resize_shape Scenario.image443 2 2 4 4 3 _ eq_refl Hres) |].
  destruct (Hmean 0) as (x & Hx & _ & Hclose); [simpl; lia|].
  specialize (Hclose ltac:(lia)).
  exists out, x. split; [exact Hobs|]. split; [exact Hshape|].
  split. { unfold wf in Hwf. rewrite Hwf. simpl in Hshape. by rewrite Hshape. }
  split; [exact Hrange|]. split; [exact Hx|].
  vm_compute in Hres. injection Hres as <-. exact Hclose.
Defined.

End PreprocessImageFacts.

(** ** EnvPool *)

Module EnvPoolFacts.
Import EnvPool.

Section Pool.
Context {action info W E : Type} `{!Env action info W E}.
Local Abbreviation state := (@EnvPool.state action W E).
Local Abbreviation view := (@EnvPool.view action W E).
Implicit Types (st : state) (v : view) (self : @t E).

Lemma state_eq st st' :
  world st = world st' → arrays st = arrays st' → log st = log st' → st = st'.
Proof. destruct st, st'. simpl. by intros -> -> ->. Qed.

Lemma bind_eq {A B} (m : M A) (k : A → M B) st :
  (m ≫= k) st = match m st with Some (x, st') => k x st' | None => None end.
Proof. reflexivity. Qed.

Lemma ret_bind_eq {A B} (x : A) (k : A → M B) st : (mret x ≫= k) st = k x st.
Proof. reflexivity. Qed.

Lemma get_array_eq l st x :
  arrays st !! l = Some x → get_array l st = Some (x, st).
Proof. unfold get_array. by intros ->. Qed.

Lemma set_array_eq l st x y :
  arrays st !! l = Some x →
  set_array l y st = Some (tt, set_arrays st (<[l := y]> (arrays st))).
Proof.
  intros Hl. unfold set_array.
  rewrite decide_True; [done|]. by eapply lookup_lt_Some.
Qed.

Lemma store_row_eq l i x st S :
  arrays st !! l = Some (VFloat S) →
  store_row l i x st
  = (S' ← setitem_row S i x;
     Some (tt, set_arrays st (<[l := VFloat S']> (arrays st)))).
Proof.
  intros Hl. unfold store_row. rewrite bind_eq, (get_array_eq _ _ _ Hl).
  destruct (setitem_row S i x); [|done]. simpl. by erewrite set_array_eq.
Qed.

Lemma store_float_eq l i x st R :
  arrays st !! l = Some (VFloat R) →
  store_float l i x st
  = (R' ← setitem R i (to_float32 x);
     Some (tt, set_arrays st (<[l := VFloat R']> (arrays st)))).
Proof.
  intros Hl. unfold store_float. rewrite bind_eq, (get_array_eq _ _ _ Hl).
  destruct (setitem R i _); [|done]. simpl. by erewrite set_array_eq.
Qed.

Lemma store_bool_eq l i b st D :
  arrays st !! l = Some (VBool D) →
  store_bool l i b st
  = (D' ← setitem D i b;
     Some (tt, set_arrays st (<[l := VBool D']> (arrays st)))).
Proof.
  intros Hl. unfold store_bool. rewrite bind_eq, (get_array_eq _ _ _ Hl).
  destruct (setitem D i _); [|done]. simpl. by erewrite set_array_eq.
Qed.

Lemma np_copy_eq l st x :
  arrays st !! l = Some x →
  np_copy l st = Some (length (arrays st), set_arrays st (arrays st ++ [x])).
Proof. intros Hl. unfold np_copy. by rewrite bind_eq, (get_array_eq _ _ _ Hl). Qed.

(** ** [put] *)

Lemma put_lookup_states ls lr ld v st :
  ls < length (arrays st) →
  arrays (put ls lr ld v st) !! ls = Some (VFloat (v_states v)).
Proof.
  intros Hl. simpl. apply list_lookup_insert_eq. by rewrite !length_insert.
Qed.

Lemma put_lookup_dones ls lr ld v st :
  ls ≠ ld → ld < length (arrays st) →
  arrays (put ls lr ld v st) !! ld = Some (VBool (v_dones v)).
Proof.
  intros Hne Hl. simpl. rewrite list_lookup_insert_ne by done.
  apply list_lookup_insert_eq. by rewrite !length_insert.
Qed.

Lemma put_lookup_rewards ls lr ld v st :
  ls ≠ lr → lr ≠ ld → lr < length (arrays st) →
  arrays (put ls lr ld v st) !! lr = Some (VFloat (v_rewards v)).
Proof.
  intros Hne Hne' Hl. simpl. rewrite !list_lookup_insert_ne by done.
  by apply list_lookup_insert_eq.
Qed.

Lemma put_lookup_other ls lr ld v st l :
  l ≠ ls → l ≠ lr → l ≠ ld →
  arrays (put ls lr ld v st) !! l = arrays st !! l.
Proof. intros. simpl. by rewrite !list_lookup_insert_ne. Qed.

Lemma put_length ls lr ld v st :
  length (arrays (put ls lr ld v st)) = length (arrays st).
Proof. simpl. by rewrite !length_insert. Qed.

Lemma pool_at_lt self ls lr ld v st :
  pool_at self ls lr ld v st →
  ls < length (arrays st) ∧ lr < length (arrays st) ∧ ld < length (arrays st).
Proof.
  intros (_&_&_&_&_&_&Hs&Hr&Hd&_).
  repeat split; eapply lookup_lt_Some; eassumption.
Qed.

Lemma pool_at_put self ls lr ld v v' st :
  pool_at self ls lr ld v st → pool_at self ls lr ld v' (put ls lr ld v' st).
Proof.
  intros Hp. pose proof (pool_at_lt _ _ _ _ _ _ Hp) as (?&?&?).
  destruct Hp as (?&?&?&?&?&?&_).
  repeat split; try done.
  - by apply put_lookup_states.
  - by apply put_lookup_rewards.
  - by apply put_lookup_dones.
Qed.

Lemma put_put ls lr ld v v' st :
  put ls lr ld v' (put ls lr ld v st) = put ls lr ld v' st.
Proof.
  apply state_eq; [done| |done]. simpl.
  apply list_eq. intros l.
  destruct (decide (l = ls)) as [->|Hs].
  { destruct (decide (ls < length (arrays st))).
    - rewrite !list_lookup_insert_eq; [done|by rewrite ?length_insert..].
    - rewrite !(lookup_ge_None_2 _ ls); [done|rewrite ?length_insert; lia..]. }
  rewrite !(list_lookup_insert_ne _ ls) by done.
  destruct (decide (l = ld)) as [->|Hd].
  { destruct (decide (ld < length (arrays st))).
    - rewrite !list_lookup_insert_eq; [done|by rewrite ?length_insert..].
    - rewrite !(lookup_ge_None_2 _ ld); [done|rewrite ?length_insert; lia..]. }
  rewrite !(list_lookup_insert_ne _ ld) by done.
  destruct (decide (l = lr)) as [->|Hr].
  { destruct (decide (lr < length (arrays st))).
    - rewrite !list_lookup_insert_eq; [done|by rewrite ?length_insert..].
    - rewrite !(lookup_ge_None_2 _ lr); [done|rewrite ?length_insert; lia..]. }
  by rewrite !list_lookup_insert_ne by done.
Qed.

Lemma put_id self ls lr ld v st :
  pool_at self ls lr ld v st → put ls lr ld v st = st.
Proof.
  intros (_&_&_&?&?&?&Hs&Hr&Hd&Hw&Hl).
  apply state_eq; [done| |done]. simpl.
  rewrite (list_insert_id _ lr) by done.
  rewrite (list_insert_id _ ld) by done.
  by rewrite (list_insert_id _ ls) by done.
Qed.

(** ** The loops run on the arrays the pool holds *)

Lemma step_slot_eq self ls lr ld v st i a env :
  pool_at self ls lr ld v st →
  step_slot self i a env st
  = (v' ← slot_effect i a env v; Some (tt, put ls lr ld v' st)).
Proof.
  intros (Hs&Hr&Hd&Hsr&Hsd&Hrd&Has&Har&Had&Hw&Hl).
  unfold step_slot, slot_effect. rewrite bind_eq. unfold call_step.
  rewrite Hw.
  destruct (env_step env a (v_world v)) as [[[[[new_s r] dn] inf] w]|];
    [|done].
  simpl. rewrite Hr. simpl. rewrite ret_bind_eq, bind_eq.
  erewrite store_float_eq by (simpl; exact Har).
  destruct (setitem (v_rewards v) i (to_float32 r)) as [R'|]; [|done].
  simpl. rewrite Hd. simpl. rewrite ret_bind_eq, bind_eq.
  erewrite store_bool_eq
    by (simpl; rewrite list_lookup_insert_ne by done; exact Had).
  destruct (setitem (v_dones v) i dn) as [D'|]; [|done]. simpl.
  destruct dn; simpl.
  - rewrite bind_eq. unfold call_reset. simpl.
    destruct (env_reset env w) as [[s w']|]; [|done]. simpl.
    rewrite Hs. simpl. rewrite ret_bind_eq.
    erewrite store_row_eq
      by (simpl; rewrite !list_lookup_insert_ne by done; exact Has).
    destruct (setitem_row (v_states v) i s) as [S'|]; [|done]. simpl.
    f_equal. f_equal. apply state_eq; simpl; [done|done|].
    by rewrite Hl, <- app_assoc.
  - rewrite Hs. simpl. rewrite ret_bind_eq.
    erewrite store_row_eq
      by (simpl; rewrite !list_lookup_insert_ne by done; exact Has).
    destruct (setitem_row (v_states v) i new_s) as [S'|]; [|done]. simpl.
    f_equal. f_equal. apply state_eq; simpl; [done|done|].
    by rewrite Hl.
Qed.

Lemma step_loop_eq self ls lr ld pairs : ∀ i v st,
  pool_at self ls lr ld v st →
  step_loop self i pairs st
  = (v' ← loop_effect i pairs v; Some (tt, put ls lr ld v' st)).
Proof.
  induction pairs as [|[a env] pairs IH]; intros i v st Hp; simpl.
  - by erewrite put_id.
  - rewrite bind_eq. erewrite step_slot_eq by done.
    destruct (slot_effect i a env v) as [v1|]; [|done]. simpl.
    erewrite IH by (by eapply pool_at_put).
    destruct (loop_effect (S i) pairs v1) as [v2|]; [|done]. simpl.
    by rewrite put_put.
Qed.

Lemma reset_loop_eq self ls lr ld es : ∀ i v st,
  pool_at self ls lr ld v st →
  reset_loop self i es st
  = (v' ← reset_effect i es v; Some (tt, put ls lr ld v' st)).
Proof.
  induction es as [|env es IH]; intros i v st Hp; simpl.
  - by erewrite put_id.
  - pose proof Hp as (Hs&Hr&Hd&Hsr&Hsd&Hrd&Has&Har&Had&Hw&Hl).
    rewrite bind_eq. unfold call_reset, reset_slot_effect. rewrite Hw.
    destruct (env_reset env (v_world v)) as [[s w']|]; [|done]. simpl.
    rewrite Hs. simpl. rewrite ret_bind_eq, bind_eq.
    erewrite store_row_eq by (simpl; exact Has).
    destruct (setitem_row (v_states v) i s) as [S'|]; [|done]. simpl.
    set (v1 := mk_view w' (v_events v ++ [EvReset env]) S' (v_rewards v) (v_dones v)).
    assert (pool_at self ls lr ld v1
              (set_arrays (mk_state w' (arrays st) (log st ++ [EvReset env]))
                 (<[ls:=VFloat S']> (arrays st)))) as Hp1.
    { repeat split; simpl; try done.
      - apply list_lookup_insert_eq. by eapply lookup_lt_Some.
      - by rewrite list_lookup_insert_ne.
      - by rewrite list_lookup_insert_ne.
      - by rewrite Hl. }
    erewrite IH by exact Hp1.
    destruct (reset_effect (S i) es v1) as [v2|]; [|done]. simpl.
    f_equal. f_equal. apply state_eq; [done| |done]. simpl.
    apply list_eq. intros l.
    destruct (decide (l = ls)) as [->|?].
    { pose proof (lookup_lt_Some _ _ _ Has).
      rewrite !list_lookup_insert_eq; [done|by rewrite ?length_insert..]. }
    rewrite !(list_lookup_insert_ne _ ls) by done.
    destruct (decide (l = ld)) as [->|?].
    { pose proof (lookup_lt_Some _ _ _ Had).
      rewrite !list_lookup_insert_eq; [done|by rewrite ?length_insert..]. }
    rewrite !(list_lookup_insert_ne _ ld) by done.
    destruct (decide (l = lr)) as [->|?].
    { pose proof (lookup_lt_Some _ _ _ Har).
      rewrite !list_lookup_insert_eq; [done|by rewrite ?length_insert..]. }
    by rewrite !list_lookup_insert_ne by done.
Qed.

(** ** One slot *)

Lemma slot_effect_spec self i a env v v' :
  shaped self v → slot_effect i a env v = Some v' →
  ∃ new_s r dn inf w1 obs elts,
    env_step env a (v_world v) = Some ((new_s, r, dn, inf), w1)
    ∧ (if dn
       then env_reset env w1 = Some (obs, v_world v')
            ∧ v_events v' = v_events v ++ [EvStep env a; EvReset env]
       else obs = new_s ∧ v_world v' = w1
            ∧ v_events v' = v_events v ++ [EvStep env a])
    ∧ i < n_envs self
    ∧ broadcast_to obs (env_shape self) = Some elts
    ∧ slot_entry v' i
      = (Some (mk_ndarray (env_shape self) (to_float32 <$> elts)),
         Some (to_float32 r), Some dn)
    ∧ shaped self v'
    ∧ ∀ j, j ≠ i → slot_entry v' j = slot_entry v j.
Proof.
  intros (HsS & HwS & HsR & HwR & HsD & HwD) Hslot.
  unfold slot_effect in Hslot.
  destruct (env_step env a (v_world v)) as [[[[[new_s r] dn] inf] w1]|];
    [|done].
  simpl in Hslot.
  destruct (setitem (v_rewards v) i (to_float32 r)) as [R'|] eqn:HR; [|done].
  simpl in Hslot.
  destruct (setitem (v_dones v) i dn) as [D'|] eqn:HD; [|done].
  simpl in Hslot.
  apply setitem_spec in HR as (HiR & HsR' & HlR & HR1 & HR2).
  apply setitem_spec in HD as (HiD & HsD' & HlD & HD1 & HD2).
  assert (∃ obs S', (if dn then env_reset env w1 = Some (obs, v_world v')
                      ∧ v_events v' = v_events v ++ [EvStep env a; EvReset env]
             else obs = new_s ∧ v_world v' = w1
                  ∧ v_events v' = v_events v ++ [EvStep env a])
            ∧ setitem_row (v_states v) i obs = Some S'
            ∧ v_states v' = S' ∧ v_rewards v' = R' ∧ v_dones v' = D')
    as (obs & S' & Hdn & HS & <- & <- & <-).
  { destruct dn; simpl in Hslot.
    - destruct (env_reset env w1) as [[s w2]|]; [|done]. simpl in Hslot.
      destruct (setitem_row (v_states v) i s) as [S'|] eqn:HS; [|done].
      simpl in Hslot. injection Hslot as <-. simpl. by exists s, S'.
    - destruct (setitem_row (v_states v) i new_s) as [S'|] eqn:HS; [|done].
      simpl in Hslot. injection Hslot as <-. simpl. by exists new_s, S'. }
  destruct (setitem_row_spec _ _ _ _ _ _ HS HsS HwS)
    as (elts & Hb & Hi & HsS' & HwS' & Hrow & Hother).
  exists new_s, r, dn, inf, w1, obs, elts.
  split; [done|]. split; [done|]. split; [done|]. split; [done|].
  split; [|split].
  - unfold slot_entry. by rewrite Hrow, HR1, HD1.
  - unfold shaped, wf in *. rewrite HsR', HsD', HlR, HlD. done.
  - intros j Hj. unfold slot_entry.
    by rewrite (Hother j Hj), (HR2 j Hj), (HD2 j Hj).
Qed.

(** ** The loop of [step] *)

Lemma loop_effect_app pairs1 pairs2 : ∀ i v,
  loop_effect i (pairs1 ++ pairs2) v
  = (v1 ← loop_effect i pairs1 v; loop_effect (i + length pairs1) pairs2 v1).
Proof.
  induction pairs1 as [|[a env] pairs1 IH]; intros i v; simpl.
  - by rewrite Nat.add_0_r.
  - destruct (slot_effect i a env v) as [v1|]; [|done]. simpl.
    rewrite IH. by replace (S i + length pairs1) with (i + S (length pairs1)) by lia.
Qed.

Lemma loop_effect_frame self pairs : ∀ i v v',
  shaped self v → loop_effect i pairs v = Some v' →
  shaped self v'
  ∧ steps_of (v_events v')
    = steps_of (v_events v) ++ pairs
  ∧ ∀ j, j < i ∨ i + length pairs ≤ j → slot_entry v' j = slot_entry v j.
Proof.
  induction pairs as [|[a env] pairs IH]; intros i v v' Hsh Hl; simpl in *.
  - injection Hl as <-. split; [done|].
    split; [by rewrite app_nil_r|done].
  - destruct (slot_effect i a env v) as [v1|] eqn:Hslot; [|done]. simpl in Hl.
    destruct (slot_effect_spec _ _ _ _ _ _ Hsh Hslot)
      as (new_s & r & dn & inf & w1 & obs & elts & _ & Hev & Hi & _ & _ & Hsh1 & Hother).
    destruct (IH _ _ _ Hsh1 Hl) as (Hsh' & Hsteps & Hframe).
    split; [done|]. split.
    + rewrite Hsteps.
      assert (steps_of (v_events v1) = steps_of (v_events v) ++ [(a, env)]) as ->.
      { unfold steps_of. destruct dn.
        - destruct Hev as [_ ->]. rewrite omap_app. done.
        - destruct Hev as (_ & _ & ->). rewrite omap_app. done. }
      by rewrite <- app_assoc.
    + intros j Hj. rewrite Hframe by lia. apply Hother. lia.
Qed.

Lemma loop_effect_slot self pairs i v v' k a env :
  shaped self v → loop_effect i pairs v = Some v' →
  pairs !! k = Some (a, env) →
  ∃ vk vk',
    loop_effect i (take k pairs) v = Some vk
    ∧ shaped self vk
    ∧ slot_effect (i + k) a env vk = Some vk'
    ∧ slot_entry v' (i + k) = slot_entry vk' (i + k).
Proof.
  intros Hsh Hl Hk.
  pose proof (take_drop_middle _ _ _ Hk) as Hsplit.
  rewrite <- Hsplit in Hl. rewrite loop_effect_app in Hl.
  destruct (loop_effect i (take k pairs) v) as [vk|] eqn:Hk1; [|done].
  simpl in Hl.
  assert (length (take k pairs) = k) as Hlen.
  { apply length_take_le. apply lookup_lt_Some in Hk. lia. }
  rewrite Hlen in Hl. simpl in Hl.
  destruct (slot_effect (i + k) a env vk) as [vk'|] eqn:Hslot; [|done].
  simpl in Hl.
  destruct (loop_effect_frame _ _ _ _ _ Hsh Hk1) as (Hshk & _).
  destruct (slot_effect_spec _ _ _ _ _ _ Hshk Hslot)
    as (_&_&_&_&_&_&_&_&_&_&_&_&Hshk'&_).
  destruct (loop_effect_frame _ _ _ _ _ Hshk' Hl) as (_&_&Hframe).
  exists vk, vk'. split; [done|]. split; [done|]. split; [done|].
  apply Hframe. lia.
Qed.

(** ** [step], [pool_states] and [reset] on the store *)

#[local] Arguments put : simpl never.

Lemma step_eq self ls lr ld v st actions :
  pool_at self ls lr ld v st →
  step self actions st
  = (v' ← loop_effect 0 (zip actions (envs self)) v;
     let st1 := put ls lr ld v' st in
     let n := length (arrays st) in
     Some ((n, S n, S (S n), None),
           set_arrays st1 (arrays st1 ++ returned v'))).
Proof.
  intros Hp. unfold step. rewrite bind_eq.
  erewrite step_loop_eq by done.
  destruct (loop_effect 0 (zip actions (envs self)) v) as [v'|]; [|done].
  simpl.
  pose proof (pool_at_put _ _ _ _ _ v' _ Hp)
    as (Hs&Hr&Hd&Hsr&Hsd&Hrd&Has&Har&Had&Hw&Hl).
  pose proof (put_length ls lr ld v' st) as Hlen.
  assert (arrays (put ls lr ld v' st)
          = <[ls:=VFloat (v_states v')]> (<[ld:=VBool (v_dones v')]>
              (<[lr:=VFloat (v_rewards v')]> (arrays st)))) as Harr by done.
  rewrite <- Harr. clear Harr.
  generalize dependent (put ls lr ld v' st). intros st1 Has Har Had Hw Hl Hlen.
  rewrite Hs, Hr, Hd. simpl.
  pose proof (lookup_lt_Some _ _ _ Har) as Hlr.
  pose proof (lookup_lt_Some _ _ _ Had) as Hld.
  rewrite ret_bind_eq, bind_eq. erewrite np_copy_eq by exact Has.
  rewrite ret_bind_eq, bind_eq.
  erewrite np_copy_eq; last first.
  { simpl. rewrite lookup_app_l by done. exact Har. }
  rewrite ret_bind_eq, bind_eq.
  erewrite np_copy_eq; last first.
  { simpl. rewrite !lookup_app_l by (rewrite ?length_app; simpl; lia).
    exact Had. }
  simpl. rewrite !length_app. simpl. rewrite Hlen.
  replace (length (arrays st) + 1) with (S (length (arrays st))) by lia.
  replace (S (length (arrays st)) + 1) with (S (S (length (arrays st)))) by lia.
  unfold mret, M_ret. do 2 f_equal.
  apply state_eq; simpl; [done| |done]. by rewrite <- !app_assoc.
Qed.

Lemma pool_states_eq self ls lr ld v st :
  pool_at self ls lr ld v st →
  pool_states self st
  = Some (length (arrays st),
          set_arrays st (arrays st ++ [VFloat (v_states v)])).
Proof.
  intros (Hs&_&_&_&_&_&Has&_). unfold pool_states. rewrite Hs. simpl.
  rewrite ret_bind_eq. by erewrite np_copy_eq.
Qed.

(** ** The loop of [reset] *)

Lemma reset_slot_effect_spec self i env v v' :
  shaped self v → reset_slot_effect i env v = Some v' →
  ∃ obs elts,
    env_reset env (v_world v) = Some (obs, v_world v')
    ∧ v_events v' = v_events v ++ [EvReset env]
    ∧ i < n_envs self
    ∧ broadcast_to obs (env_shape self) = Some elts
    ∧ row (v_states v') i
      = Some (mk_ndarray (env_shape self) (to_float32 <$> elts))
    ∧ v_rewards v' = v_rewards v ∧ v_dones v' = v_dones v
    ∧ shaped self v'
    ∧ ∀ j, j ≠ i → row (v_states v') j = row (v_states v) j.
Proof.
  intros (HsS & HwS & HsR & HwR & HsD & HwD) Hslot.
  unfold reset_slot_effect in Hslot.
  destruct (env_reset env (v_world v)) as [[s w']|]; [|done]. simpl in Hslot.
  destruct (setitem_row (v_states v) i s) as [S'|] eqn:HS; [|done].
  simpl in Hslot. injection Hslot as <-. simpl.
  destruct (setitem_row_spec _ _ _ _ _ _ HS HsS HwS)
    as (elts & Hb & Hi & HsS' & HwS' & Hrow & Hother).
  exists s, elts. by repeat split.
Qed.

Lemma reset_effect_app es1 es2 : ∀ i v,
  reset_effect i (es1 ++ es2) v
  = (v1 ← reset_effect i es1 v; reset_effect (i + length es1) es2 v1).
Proof.
  induction es1 as [|env es1 IH]; intros i v; simpl.
  - by rewrite Nat.add_0_r.
  - destruct (reset_slot_effect i env v) as [v1|]; [|done]. simpl.
    rewrite IH. by replace (S i + length es1) with (i + S (length es1)) by lia.
Qed.

Lemma reset_effect_frame self es : ∀ i v v',
  shaped self v → reset_effect i es v = Some v' →
  shaped self v'
  ∧ v_events v' = v_events v ++ (EvReset <$> es)
  ∧ v_rewards v' = v_rewards v ∧ v_dones v' = v_dones v
  ∧ ∀ j, j < i ∨ i + length es ≤ j →
         row (v_states v') j = row (v_states v) j.
Proof.
  induction es as [|env es IH]; intros i v v' Hsh Hl; simpl in *.
  - injection Hl as <-. by rewrite app_nil_r.
  - destruct (reset_slot_effect i env v) as [v1|] eqn:Hslot; [|done].
    simpl in Hl.
    destruct (reset_slot_effect_spec _ _ _ _ _ Hsh Hslot)
      as (obs & elts & _ & Hev & _ & _ & _ & HR & HD & Hsh1 & Hother).
    destruct (IH _ _ _ Hsh1 Hl) as (Hsh' & Hevs & HR' & HD' & Hframe).
    split; [done|]. split; [|split; [congruence|split; [congruence|]]].
    + rewrite Hevs, Hev, <- app_assoc. done.
    + intros j Hj. rewrite Hframe by lia. apply Hother. lia.
Qed.

Lemma reset_effect_slot self es i v v' k env :
  shaped self v → reset_effect i es v = Some v' →
  es !! k = Some env →
  ∃ vk vk',
    reset_effect i (take k es) v = Some vk
    ∧ shaped self vk
    ∧ reset_slot_effect (i + k) env vk = Some vk'
    ∧ row (v_states v') (i + k) = row (v_states vk') (i + k).
Proof.
  intros Hsh Hl Hk.
  pose proof (take_drop_middle _ _ _ Hk) as Hsplit.
  rewrite <- Hsplit in Hl. rewrite reset_effect_app in Hl.
  destruct (reset_effect i (take k es) v) as [vk|] eqn:Hk1; [|done].
  simpl in Hl.
  assert (length (take k es) = k) as Hlen.
  { apply length_take_le. apply lookup_lt_Some in Hk. lia. }
  rewrite Hlen in Hl. simpl in Hl.
  destruct (reset_slot_effect (i + k) env vk) as [vk'|] eqn:Hslot; [|done].
  simpl in Hl.
  destruct (reset_effect_frame _ _ _ _ _ Hsh Hk1) as (Hshk & _).
  destruct (reset_slot_effect_spec _ _ _ _ _ Hshk Hslot)
    as (_&_&_&_&_&_&_&_&_&Hshk'&_).
  destruct (reset_effect_frame _ _ _ _ _ Hshk' Hl) as (_&_&_&_&Hframe).
  exists vk, vk'. split; [done|]. split; [done|]. split; [done|].
  apply Hframe. lia.
Qed.

(** ** [reset] on the store *)

Lemma shaped_fresh self st l : shaped (bound self l) (fresh_view self st).
Proof. unfold shaped. simpl. repeat split; apply wf_zeros. Qed.

Lemma pool_at_after_alloc self st :
  let n := length (arrays st) in
  pool_at (bound self n) n (S n) (S (S n)) (fresh_view self st)
          (after_alloc self st).
Proof.
  intros n. subst n. unfold pool_at, after_alloc, returned. simpl.
  repeat split; try done; try lia.
  - by rewrite lookup_app_r, Nat.sub_diag by done.
  - rewrite lookup_app_r by lia.
    replace (S (length (arrays st)) - length (arrays st)) with 1 by lia. done.
  - rewrite lookup_app_r by lia.
    replace (S (S (length (arrays st))) - length (arrays st)) with 2 by lia.
    done.
Qed.

Lemma reset_eq self st :
  let n := length (arrays st) in
  reset self st
  = (v' ← reset_effect 0 (envs self) (fresh_view self st);
     let st1 := put n (S n) (S (S n)) v' (after_alloc self st) in
     Some ((n + 3, bound self n),
           set_arrays st1 (arrays st1 ++ [VFloat (v_states v')]))).
Proof.
  intros n. unfold reset. rewrite bind_eq. unfold alloc at 1.
  rewrite bind_eq. unfold alloc at 1. rewrite bind_eq. unfold alloc at 1.
  cbn [arrays set_arrays world log].
  rewrite !length_app. cbn [length].
  replace (length (arrays st) + 1) with (S n) by (unfold n; lia).
  replace (S n + 1) with (S (S n)) by lia. fold n.
  change (mk (initial_env self) (n_envs self) (env_shape self) (envs self)
            (Some n) (Some (S n)) (Some (S (S n)))) with (bound self n).
  assert (set_arrays (set_arrays (set_arrays st
            (arrays st ++ [VFloat (zeros zero (n_envs self :: env_shape self))]))
            ((arrays st ++ [VFloat (zeros zero (n_envs self :: env_shape self))])
               ++ [VFloat (zeros zero [n_envs self])]))
            (((arrays st ++ [VFloat (zeros zero (n_envs self :: env_shape self))])
               ++ [VFloat (zeros zero [n_envs self])])
               ++ [VBool (zeros false [n_envs self])])
          = after_alloc self st) as ->.
  { apply state_eq; [reflexivity| |reflexivity].
    unfold after_alloc, returned. simpl.
    by rewrite <- !app_assoc. }
  rewrite bind_eq.
  erewrite reset_loop_eq by apply pool_at_after_alloc.
  change (envs (bound self n)) with (envs self).
  destruct (reset_effect 0 (envs self) (fresh_view self st)) as [v'|]; [|done].
  simpl. rewrite ret_bind_eq, bind_eq.
  pose proof (pool_at_put _ _ _ _ _ v' _ (pool_at_after_alloc self st))
    as (_&_&_&_&_&_&Has&_).
  fold n in Has.
  erewrite np_copy_eq by exact Has.
  rewrite put_length. unfold after_alloc at 1. simpl.
  rewrite length_app. simpl. fold n. unfold mret, M_ret. done.
Qed.

(** ** The constructor *)

Lemma copies_spec e n : ∀ st es st',
  copies e n st = Some (es, st') →
  length es = n ∧ arrays st' = arrays st
  ∧ log st' = log st ++ (EvCopy e <$> es).
Proof.
  induction n as [|n IH]; intros st es st' Hc; simpl in Hc.
  - injection Hc as <- <-. by rewrite app_nil_r.
  - rewrite bind_eq in Hc. unfold call_copy in Hc.
    destruct (env_copy e (world st)) as [[e' w]|]; [|done]. simpl in Hc.
    rewrite bind_eq in Hc.
    destruct (copies e n _) as [[cs st1]|] eqn:Hcs; [|done].
    injection Hc as <- <-.
    destruct (IH _ _ _ Hcs) as (Hlen & Harr & Hlog). simpl in *.
    split; [by rewrite Hlen|]. split; [done|].
    by rewrite Hlog, <- app_assoc.
Qed.

Lemma pool_at_append self ls lr ld v st xs :
  pool_at self ls lr ld v st →
  pool_at self ls lr ld v (set_arrays st (arrays st ++ xs)).
Proof.
  intros (?&?&?&?&?&?&Has&Har&Had&?&?).
  repeat split; try done; simpl;
    rewrite lookup_app_l by (by eapply lookup_lt_Some); done.
Qed.

Lemma returned_lookup st v k x :
  returned v !! k = Some x →
  arrays (set_arrays st (arrays st ++ returned v)) !! (length (arrays st) + k)
  = Some x.
Proof.
  intros Hk. simpl. rewrite lookup_app_r by lia.
  by replace (length (arrays st) + k - length (arrays st)) with k by lia.
Qed.

(** what a successful [step] leaves in the store *)
Lemma step_spec self ls lr ld v st actions out st' :
  pool_at self ls lr ld v st →
  step self actions st = Some (out, st') →
  ∃ v',
    loop_effect 0 (zip actions (envs self)) v = Some v'
    ∧ out = (length (arrays st), S (length (arrays st)),
             S (S (length (arrays st))), None)
    ∧ st' = set_arrays (put ls lr ld v' st)
              (arrays (put ls lr ld v' st) ++ returned v')
    ∧ pool_at self ls lr ld v' st'
    ∧ arrays st' !! length (arrays st) = Some (VFloat (v_states v'))
    ∧ arrays st' !! S (length (arrays st)) = Some (VFloat (v_rewards v'))
    ∧ arrays st' !! S (S (length (arrays st))) = Some (VBool (v_dones v')).
Proof.
  intros Hp Hstep. rewrite (step_eq _ _ _ _ _ _ _ Hp) in Hstep.
  destruct (loop_effect 0 (zip actions (envs self)) v) as [v'|]; [|done].
  simpl in Hstep. injection Hstep as <- <-.
  exists v'. split; [done|]. split; [done|]. split; [done|].
  pose proof (pool_at_put _ _ _ _ _ v' _ Hp) as Hp'.
  split; [by apply pool_at_append|].
  pose proof (put_length ls lr ld v' st) as Hlen.
  rewrite <- Hlen.
  pose proof (returned_lookup (put ls lr ld v' st) v') as Hret.
  split; [|split].
  - rewrite <- (Nat.add_0_r (length _)). by apply Hret.
  - replace (S (length (arrays (put ls lr ld v' st))))
      with (length (arrays (put ls lr ld v' st)) + 1) by lia. by apply Hret.
  - replace (S (S (length (arrays (put ls lr ld v' st)))))
      with (length (arrays (put ls lr ld v' st)) + 2) by lia. by apply Hret.
Qed.

(** the body of the loop returns whenever the calls it makes to the
    slot return and the observation fits a row of the batch *)
Lemma step_slot_returns self ls lr ld v st (i : nat) (a : action) (env : E)
    new_s r (dn : bool) inf w1 obs w2 elts :
  pool_at self ls lr ld v st → shaped self v → i < n_envs self →
  env_step env a (world st) = Some ((new_s, r, dn, inf), w1) →
  (if dn then env_reset env w1 = Some (obs, w2) else obs = new_s) →
  broadcast_to obs (env_shape self) = Some elts →
  is_Some (step_slot self i a env st).
Proof.
  intros Hp (HsS & HwS & HsR & HwR & HsD & HwD) Hi Hes Hdn Hb.
  erewrite step_slot_eq by exact Hp.
  pose proof Hp as (_&_&_&_&_&_&_&_&_&Hw&_).
  unfold slot_effect. rewrite <- Hw, Hes. simpl.
  unfold setitem. unfold wf in HwR, HwD. rewrite HsR in HwR. rewrite HsD in HwD.
  simpl in HwR, HwD.
  rewrite !decide_True by lia. simpl.
  assert (is_Some (setitem_row (v_states v) i obs)) as [S' HS'].
  { unfold setitem_row. rewrite HsS. rewrite decide_True by done.
    rewrite Hb. simpl. eauto. }
  destruct dn; simpl.
  - rewrite Hdn. simpl. rewrite HS'. simpl. eauto.
  - subst obs. rewrite HS'. simpl. eauto.
Qed.

(** C1: when the step of slot [i] reports [done], the pool calls the
    [reset] of that slot right after the step and stores the
    observation returned by the reset; otherwise it stores the
    observation returned by the step.  The reward and the done flag
    stored and returned are those of the step in both cases. *)
Theorem step_auto_reset self ls lr ld v st actions outS outR outD inf st'
    (i : nat) (env : E) (a : action) :
  pool_at self ls lr ld v st → shaped self v →
  step self actions st = Some ((outS, outR, outD, inf), st') →
  envs self !! i = Some env → actions !! i = Some a →
  ∃ sti stj new_s r dn inf1 w1 obs elts v',
    step_loop self 0 (take i (zip actions (envs self))) st = Some (tt, sti)
    ∧ step_slot self i a env sti = Some (tt, stj)
    ∧ env_step env a (world sti) = Some ((new_s, r, dn, inf1), w1)
    ∧ (if dn
       then env_reset env w1 = Some (obs, world stj)
            ∧ log stj = log sti ++ [EvStep env a; EvReset env]
       else obs = new_s ∧ world stj = w1
            ∧ log stj = log sti ++ [EvStep env a])
    ∧ broadcast_to obs (env_shape self) = Some elts
    ∧ pool_at self ls lr ld v' st' ∧ shaped self v'
    ∧ arrays st' !! outS = Some (VFloat (v_states v'))
    ∧ arrays st' !! outR = Some (VFloat (v_rewards v'))
    ∧ arrays st' !! outD = Some (VBool (v_dones v'))
    ∧ row (v_states v') i
      = Some (mk_ndarray (env_shape self) (to_float32 <$> elts))
    ∧ data (v_rewards v') !! i = Some (to_float32 r)
    ∧ data (v_dones v') !! i = Some dn.
Proof.
  intros Hp Hsh Hstep Henv Hact.
  destruct (step_spec _ _ _ _ _ _ _ _ _ Hp Hstep)
    as (v' & Hloop & Hout & _ & Hp' & HoS & HoR & HoD).
  injection Hout as -> -> -> ->.
  destruct (loop_effect_frame _ _ _ _ _ Hsh Hloop) as (Hsh' & _).
  assert (zip actions (envs self) !! i = Some (a, env)) as Hpair.
  { apply lookup_zip_with_Some. eauto. }
  destruct (loop_effect_slot _ _ _ _ _ _ _ _ Hsh Hloop Hpair)
    as (vk & vk' & Hk & Hshk & Hslot & Hentry).
  simpl in Hslot, Hentry.
  destruct (slot_effect_spec _ _ _ _ _ _ Hshk Hslot)
    as (new_s & r & dn & inf1 & w1 & obs & elts & Hes & Hdn & Hi & Hb & Hent & _).
  rewrite Hent in Hentry. unfold slot_entry in Hentry.
  injection Hentry as Hrow HR HD.
  pose proof (pool_at_put _ _ _ _ _ vk _ Hp) as Hpk.
  exists (put ls lr ld vk st), (put ls lr ld vk' (put ls lr ld vk st)),
    new_s, r, dn, inf1, w1, obs, elts, v'.
  split. { erewrite step_loop_eq by done. by rewrite Hk. }
  split. { erewrite step_slot_eq by done. by rewrite Hslot. }
  split; [exact Hes|]. split; [exact Hdn|].
  split; [exact Hb|]. split; [exact Hp'|]. split; [exact Hsh'|].
  split; [exact HoS|]. split; [exact HoR|]. split; [exact HoD|].
  by rewrite Hrow, HR, HD.
Qed.

#[local] Opaque put.

Lemma zip_take_r {A B} (l : list A) (k : list B) :
  zip l k = zip (take (length k) l) k.
Proof.
  revert k. induction l as [|x l IH]; intros [|y k]; simpl; try done.
  by rewrite <- IH.
Qed.

(** C2, as the code has it: [step] runs over [zip(actions, envs)].
    Actions beyond the number of slots are ignored; with fewer actions
    than slots the call steps the slots that have an action, in index
    order, and leaves the entries of the others as they were. *)
Theorem step_zip_truncates self ls lr ld v st (actions : list action) :
  pool_at self ls lr ld v st → shaped self v →
  step self actions st = step self (take (length (envs self)) actions) st
  ∧ ∀ out st', step self actions st = Some (out, st') →
      ∃ v', pool_at self ls lr ld v' st'
            ∧ steps_of (log st')
              = steps_of (log st) ++ zip actions (envs self)
            ∧ ∀ j, length actions ≤ j → slot_entry v' j = slot_entry v j.
Proof.
  intros Hp Hsh. split.
  - unfold step. by rewrite <- zip_take_r.
  - intros out st' Hstep.
    destruct (step_spec _ _ _ _ _ _ _ _ _ Hp Hstep)
      as (v' & Hloop & _ & _ & Hp' & _).
    destruct (loop_effect_frame _ _ _ _ _ Hsh Hloop) as (_ & Hsteps & Hframe).
    exists v'. split; [done|]. split.
    + destruct Hp as (_&_&_&_&_&_&_&_&_&_&->).
      destruct Hp' as (_&_&_&_&_&_&_&_&_&_&->). done.
    + intros j Hj. apply Hframe. right. simpl.
      rewrite length_zip_with. lia.
Qed.

(** ** Calls and the store *)

Lemma pool_at_write self ls lr ld v st l x :
  pool_at self ls lr ld v st → l ≠ ls → l ≠ lr → l ≠ ld →
  pool_at self ls lr ld v (set_arrays st (<[l := x]> (arrays st))).
Proof.
  intros (?&?&?&?&?&?&?&?&?&?&?) ? ? ?.
  repeat split; try done; simpl; by rewrite list_lookup_insert_ne.
Qed.

Lemma run_call_spec self ls lr ld v st c outs self' st' :
  pool_at self ls lr ld v st →
  run_call c self st = Some ((outs, self'), st') →
  ∃ ls' lr' ld' v',
    pool_at self' ls' lr' ld' v' st'
    ∧ Forall2 (λ l x, arrays st' !! l = Some x) outs
        (take (length outs) (returned v'))
    ∧ NoDup outs
    ∧ Forall (λ l, length (arrays st) ≤ l < length (arrays st')
                   ∧ l ≠ ls' ∧ l ≠ lr' ∧ l ≠ ld') outs
    ∧ ∀ l, l < length (arrays st) → l ≠ ls → l ≠ lr → l ≠ ld →
           arrays st' !! l = arrays st !! l
           ∧ l < length (arrays st') ∧ l ≠ ls' ∧ l ≠ lr' ∧ l ≠ ld'.
Proof.
  intros Hp Hrun. pose proof (pool_at_lt _ _ _ _ _ _ Hp) as (Hls & Hlr & Hld).
  destruct c as [|actions|]; simpl in Hrun; rewrite bind_eq in Hrun.
  - rewrite reset_eq in Hrun.
    destruct (reset_effect 0 (envs self) (fresh_view self st)) as [v'|];
      [|done].
    simpl in Hrun. injection Hrun as <- <- <-.
    set (n := length (arrays st)) in *.
    pose proof (pool_at_put _ _ _ _ _ v' _ (pool_at_after_alloc self st))
      as Hp'. fold n in Hp'.
    assert (length (arrays (put n (S n) (S (S n)) v' (after_alloc self st)))
            = n + 3) as Hlen.
    { rewrite put_length. unfold after_alloc. simpl.
      rewrite length_app. done. }
    assert (∀ l, l < n →
              arrays (put n (S n) (S (S n)) v' (after_alloc self st)) !! l
              = arrays st !! l) as Hother.
    { intros l Hl. rewrite put_lookup_other by lia. unfold after_alloc. simpl.
      by rewrite lookup_app_l by done. }
    generalize dependent (put n (S n) (S (S n)) v' (after_alloc self st)).
    intros st1 Hp' Hlen Hother.
    exists n, (S n), (S (S n)), v'.
    split; [by apply pool_at_append|]. split; [|split; [|split]].
    + simpl. constructor; [|constructor].
      rewrite lookup_app_r by lia. by rewrite Hlen, Nat.sub_diag.
    + apply NoDup_singleton.
    + simpl. rewrite length_app. simpl. constructor; [lia|constructor].
    + intros l Hl _ _ _. simpl. rewrite length_app, Hlen.
      split; [|lia]. rewrite lookup_app_l by lia. by apply Hother.
  - destruct (step self actions st) as [[[[[s r] d] i] st1]|] eqn:Hstep;
      [|done].
    injection Hrun as <- <- <-.
    destruct (step_spec _ _ _ _ _ _ _ _ _ Hp Hstep)
      as (v' & _ & Hout & Hst & Hp' & HoS & HoR & HoD).
    injection Hout as -> -> -> ->.
    assert (length (arrays st1) = length (arrays st) + 3) as Hlen.
    { rewrite Hst. simpl. by rewrite length_app, put_length. }
    exists ls, lr, ld, v'. split; [done|]. split; [|split; [|split]].
    + simpl. repeat constructor; done.
    + repeat (apply NoDup_cons_2;
        [rewrite ?not_elem_of_cons; repeat split; try lia; apply not_elem_of_nil|]).
      apply NoDup_nil_2.
    + repeat constructor; lia.
    + intros l Hl ? ? ?. rewrite Hlen. split; [|lia]. rewrite Hst. simpl.
      rewrite lookup_app_l by (by rewrite put_length).
      by rewrite put_lookup_other.
  - rewrite (pool_states_eq _ _ _ _ _ _ Hp) in Hrun.
    injection Hrun as <- <- <-.
    exists ls, lr, ld, v. split; [by apply pool_at_append|].
    split; [|split; [|split]].
    + simpl. constructor; [|constructor].
      by rewrite lookup_app_r, Nat.sub_diag by done.
    + apply NoDup_singleton.
    + simpl. rewrite length_app. simpl. constructor; [lia|constructor].
    + intros l Hl ? ? ?. simpl. rewrite length_app.
      split; [|lia]. by rewrite lookup_app_l by done.
Qed.

Lemma run_calls_frame cs : ∀ self ls lr ld v st self' st' l,
  pool_at self ls lr ld v st →
  l < length (arrays st) → l ≠ ls → l ≠ lr → l ≠ ld →
  run_calls cs self st = Some (self', st') →
  arrays st' !! l = arrays st !! l.
Proof.
  induction cs as [|c cs IH]; intros self ls lr ld v st self' st' l Hp Hl ? ? ? Hrun;
    simpl in Hrun.
  - by injection Hrun as <- <-.
  - rewrite bind_eq in Hrun.
    destruct (run_call c self st) as [[[outs self1] st1]|] eqn:Hc; [|done].
    destruct (run_call_spec _ _ _ _ _ _ _ _ _ _ Hp Hc)
      as (ls' & lr' & ld' & v' & Hp' & _ & _ & _ & Hframe).
    destruct (Hframe l) as (Heq & Hl' & ? & ? & ?); [done..|].
    rewrite <- Heq. by eapply IH.
Qed.

(** C4: every array a call returns sits at a new location of the
    store, distinct from the locations of the pool's own arrays, and
    holds the value of the pool's array; writing into it leaves the
    pool's arrays as they are, and later calls of the pool leave it as
    it is.  Two calls of [pool_states] in a row return two distinct
    locations with equal contents. *)
Theorem returned_arrays_are_copies self ls lr ld v st :
  pool_at self ls lr ld v st →
  (∀ c outs self' st',
     run_call c self st = Some ((outs, self'), st') →
     ∃ ls' lr' ld' v',
       pool_at self' ls' lr' ld' v' st'
       ∧ Forall2 (λ l x, arrays st' !! l = Some x) outs
           (take (length outs) (returned v'))
       ∧ NoDup outs
       ∧ Forall (λ l, length (arrays st) ≤ l < length (arrays st')
                      ∧ l ≠ ls' ∧ l ≠ lr' ∧ l ≠ ld') outs
       ∧ (∀ l x, l ∈ outs →
            pool_at self' ls' lr' ld' v'
              (set_arrays st' (<[l := x]> (arrays st'))))
       ∧ (∀ l cs self'' st'', l ∈ outs →
            run_calls cs self' st' = Some (self'', st'') →
            arrays st'' !! l = arrays st' !! l))
  ∧ (∀ l1 st1 l2 st2,
       pool_states self st = Some (l1, st1) →
       pool_states self st1 = Some (l2, st2) →
       l1 ≠ l2 ∧ l1 ≠ ls ∧ l2 ≠ ls
       ∧ arrays st2 !! l1 = Some (VFloat (v_states v))
       ∧ arrays st2 !! l2 = Some (VFloat (v_states v))
       ∧ arrays st2 !! ls = Some (VFloat (v_states v))
       ∧ ∀ x, <[l1 := x]> (arrays st2) !! l2 = Some (VFloat (v_states v))
              ∧ <[l1 := x]> (arrays st2) !! ls = Some (VFloat (v_states v))
              ∧ <[l2 := x]> (arrays st2) !! l1 = Some (VFloat (v_states v))
              ∧ <[l2 := x]> (arrays st2) !! ls = Some (VFloat (v_states v))).
Proof.
  intros Hp. split.
  - intros c outs self' st' Hrun.
    destruct (run_call_spec _ _ _ _ _ _ _ _ _ _ Hp Hrun)
      as (ls' & lr' & ld' & v' & Hp' & Hvals & Hnd & Hfresh & _).
    exists ls', lr', ld', v'. split; [done|]. split; [done|].
    split; [done|]. split; [done|].
    rewrite list.Forall_forall in Hfresh. split.
    + intros l x Hl.
      destruct (Hfresh l Hl) as (_ & ? & ? & ?). by apply pool_at_write.
    + intros l cs self'' st'' Hl Hcs.
      destruct (Hfresh l Hl) as ([_ ?] & ? & ? & ?).
      by eapply run_calls_frame.
  - intros l1 st1 l2 st2 H1 H2.
    rewrite (pool_states_eq _ _ _ _ _ _ Hp) in H1. injection H1 as <- <-.
    pose proof (pool_at_append _ _ _ _ _ _ [VFloat (v_states v)] Hp) as Hp1.
    rewrite (pool_states_eq _ _ _ _ _ _ Hp1) in H2. injection H2 as <- <-.
    pose proof (pool_at_lt _ _ _ _ _ _ Hp) as (Hls & _).
    destruct Hp as (_&_&_&_&_&_&Has&_).
    simpl. rewrite !length_app. simpl.
    assert (((arrays st ++ [VFloat (v_states v)]) ++ [VFloat (v_states v)])
              !! length (arrays st) = Some (VFloat (v_states v))) as Ha1.
    { rewrite lookup_app_l by (rewrite length_app; simpl; lia).
      by rewrite lookup_app_r, Nat.sub_diag by done. }
    assert (((arrays st ++ [VFloat (v_states v)]) ++ [VFloat (v_states v)])
              !! (length (arrays st) + 1) = Some (VFloat (v_states v))) as Ha2.
    { rewrite lookup_app_r by (rewrite length_app; simpl; lia).
      rewrite length_app. simpl. by rewrite Nat.sub_diag. }
    assert (((arrays st ++ [VFloat (v_states v)]) ++ [VFloat (v_states v)])
              !! ls = Some (VFloat (v_states v))) as Ha3.
    { rewrite !lookup_app_l by (rewrite ?length_app; simpl; lia). done. }
    split; [lia|]. split; [lia|]. split; [lia|].
    split; [done|]. split; [done|]. split; [done|].
    intros x. rewrite !list_lookup_insert_ne by lia. done.
Qed.

Lemma reset_spec self st out self' st' :
  reset self st = Some ((out, self'), st') →
  ∃ v,
    self' = bound self (length (arrays st))
    ∧ out = length (arrays st) + 3
    ∧ pool_at self' (length (arrays st)) (S (length (arrays st)))
        (S (S (length (arrays st)))) v st'
    ∧ shaped self v
    ∧ arrays st' !! out = Some (VFloat (v_states v))
    ∧ log st' = log st ++ (EvReset <$> envs self)
    ∧ v_rewards v = zeros zero [n_envs self]
    ∧ v_dones v = zeros false [n_envs self]
    ∧ ∀ i env, envs self !! i = Some env →
        ∃ sti obs elts w',
          reset_loop self' 0 (take i (envs self)) (after_alloc self st)
            = Some (tt, sti)
          ∧ env_reset env (world sti) = Some (obs, w')
          ∧ broadcast_to obs (env_shape self) = Some elts
          ∧ row (v_states v) i
            = Some (mk_ndarray (env_shape self) (to_float32 <$> elts)).
Proof.
  intros Hreset. rewrite reset_eq in Hreset.
  destruct (reset_effect 0 (envs self) (fresh_view self st)) as [v|] eqn:Hv;
    [|done].
  simpl in Hreset. injection Hreset as <- <- <-.
  set (n := length (arrays st)) in *.
  pose proof (pool_at_after_alloc self st) as Hp0. fold n in Hp0. simpl in Hp0.
  pose proof (pool_at_put _ _ _ _ _ v _ Hp0) as Hp.
  pose proof (shaped_fresh self st n) as Hsh0.
  destruct (reset_effect_frame _ _ _ _ _ Hsh0 Hv) as (Hsh & Hev & HR & HD & _).
  exists v. split; [done|]. split; [done|].
  split; [by apply pool_at_append|]. split; [exact Hsh|]. split; [|split].
  - simpl. rewrite lookup_app_r; rewrite put_length; unfold after_alloc; simpl;
      rewrite length_app; simpl; fold n; [|lia].
    by rewrite Nat.sub_diag.
  - simpl. destruct Hp as (_&_&_&_&_&_&_&_&_&_&->). by rewrite Hev.
  - split; [exact HR|]. split; [exact HD|].
    intros i env Henv.
    destruct (reset_effect_slot _ _ _ _ _ _ _ Hsh0 Hv Henv)
      as (vk & vk' & Hk & Hshk & Hslot & Hrow).
    destruct (reset_slot_effect_spec _ _ _ _ _ Hshk Hslot)
      as (obs & elts & Hr & _ & _ & Hb & Hrow' & _).
    exists (put n (S n) (S (S n)) vk (after_alloc self st)), obs, elts,
      (v_world vk').
    split. { erewrite reset_loop_eq by exact Hp0. by rewrite Hk. }
    split. { pose proof (pool_at_put _ _ _ _ _ vk _ Hp0)
               as (_&_&_&_&_&_&_&_&_&->&_). exact Hr. }
    split; [exact Hb|]. simpl in Hrow. by rewrite Hrow.
Qed.

(** C5, as the code has it: [reset] keeps the slot environments the
    pool holds (it copies nothing; the slots are created from the
    template by [recreate_envs], which the constructor calls), resets
    each of them once in index order, stores the observations in a
    new batch-state array, binds new zeroed reward and done arrays,
    and returns a copy of the batch of observations. *)
Theorem reset_keeps_slots self st out self' st' :
  reset self st = Some ((out, self'), st') →
  envs self' = envs self ∧ initial_env self' = initial_env self
  ∧ n_envs self' = n_envs self ∧ env_shape self' = env_shape self
  ∧ log st' = log st ++ (EvReset <$> envs self)
  ∧ ∃ ls lr ld v,
      pool_at self' ls lr ld v st' ∧ shaped self' v
      ∧ length (arrays st) ≤ ls ∧ length (arrays st) ≤ lr
      ∧ length (arrays st) ≤ ld
      ∧ v_rewards v = zeros zero [n_envs self]
      ∧ v_dones v = zeros false [n_envs self]
      ∧ arrays st' !! out = Some (VFloat (v_states v)) ∧ out ≠ ls
      ∧ ∀ i env, envs self !! i = Some env →
          ∃ st0 sti obs elts w',
            world st0 = world st ∧ log st0 = log st
            ∧ reset_loop self' 0 (take i (envs self)) st0 = Some (tt, sti)
            ∧ env_reset env (world sti) = Some (obs, w')
            ∧ broadcast_to obs (env_shape self) = Some elts
            ∧ row (v_states v) i
              = Some (mk_ndarray (env_shape self) (to_float32 <$> elts)).
Proof.
  intros Hreset.
  destruct (reset_spec _ _ _ _ _ Hreset)
    as (v & -> & -> & Hp & Hsh & Hout & Hlog & HR & HD & Hslots).
  repeat (split; [done|]).
  exists (length (arrays st)), (S (length (arrays st))),
    (S (S (length (arrays st)))), v.
  split; [done|]. split; [exact Hsh|].
  repeat (split; [done || lia|]).
  intros i env Henv.
  destruct (Hslots i env Henv) as (sti & obs & elts & w' & ? & ? & ? & ?).
  by exists (after_alloc self st), sti, obs, elts, w'.
Qed.

Lemma resets_of_app (l1 l2 : list (@event action E)) :
  resets_of (l1 ++ l2) = resets_of l1 ++ resets_of l2.
Proof. apply omap_app. Qed.

Lemma resets_of_copies (e : E) (es : list E) :
  resets_of (EvCopy (action:=action) e <$> es) = [].
Proof. induction es; simpl; done. Qed.

Lemma resets_of_resets (es : list E) :
  resets_of (EvReset (action:=action) <$> es) = es.
Proof. induction es as [|e es IH]; simpl; [done|]. f_equal. exact IH. Qed.

Lemma init_eq (env : E) (n : nat) (flag : bool) st :
  __init__ env n flag st
  = (space ← env_observation_space env (world st);
     '(es, stc) ← copies env n st;
     '(_, self, st') ← reset (mk env n (box_shape space) es None None None) stc;
     Some (self, st')).
Proof.
  unfold __init__, call_observation_space, recreate_envs, close.
  rewrite bind_eq.
  destruct (env_observation_space env (world st)) as [space|]; [|done].
  simpl. unfold mbind, M_bind, mret, M_ret. simpl.
  destruct (copies env n st) as [[es stc]|]; [|done].
  simpl. 
  destruct (reset _ stc) as [[[out self] st']|]; done.
Qed.

(** C10: the constructor makes [n_envs] copies of the template and
    then resets every slot exactly once, in index order; the pool it
    returns holds a batch of [n_envs] observations, the one returned
    by the reset of each slot, and zeroed reward and done arrays, and
    [pool_states] returns a copy of that batch. *)
Theorem init_resets_every_slot (env : E) (n : nat) (flag : bool) st self st' :
  __init__ env n flag st = Some (self, st') →
  ∃ space ls lr ld v,
    env_observation_space env (world st) = Some space
    ∧ initial_env self = env ∧ n_envs self = n
    ∧ env_shape self = box_shape space
    ∧ length (envs self) = n
    ∧ log st' = log st ++ (EvCopy env <$> envs self)
                       ++ (EvReset <$> envs self)
    ∧ resets_of (log st') = resets_of (log st) ++ envs self
    ∧ pool_at self ls lr ld v st' ∧ shaped self v
    ∧ v_rewards v = zeros zero [n] ∧ v_dones v = zeros false [n]
    ∧ (∀ i e, envs self !! i = Some e →
         ∃ st0 sti obs elts w',
           log st0 = log st ++ (EvCopy env <$> envs self)
           ∧ reset_loop self 0 (take i (envs self)) st0 = Some (tt, sti)
           ∧ env_reset e (world sti) = Some (obs, w')
           ∧ broadcast_to obs (env_shape self) = Some elts
           ∧ row (v_states v) i
             = Some (mk_ndarray (env_shape self) (to_float32 <$> elts)))
    ∧ ∃ out st'',
        pool_states self st' = Some (out, st'')
        ∧ arrays st'' !! out = Some (VFloat (v_states v)) ∧ out ≠ ls.
Proof.
  intros Hinit. rewrite init_eq in Hinit.
  destruct (env_observation_space env (world st)) as [space|] eqn:Hsp; [|done].
  simpl in Hinit.
  destruct (copies env n st) as [[es stc]|] eqn:Hc; [|done].
  simpl in Hinit.
  destruct (reset _ stc) as [[[out self2] st2]|] eqn:Hreset; [|done].
  simpl in Hinit. injection Hinit as <- <-.
  destruct (copies_spec _ _ _ _ _ Hc) as (Hlen & Harr & Hlogc).
  destruct (reset_spec _ _ _ _ _ Hreset)
    as (v & -> & -> & Hp & Hsh & Hout & Hlog & HR & HD & Hslots).
  simpl in *.
  exists space, (length (arrays stc)), (S (length (arrays stc))),
    (S (S (length (arrays stc)))), v.
  split; [done|]. repeat (split; [done|]).
  split. { by rewrite Hlog, Hlogc, <- app_assoc. }
  split. { rewrite Hlog, Hlogc, !resets_of_app, resets_of_copies,
             resets_of_resets. by rewrite app_nil_r. }
  split; [exact Hp|]. split; [exact Hsh|]. split; [exact HR|].
  split; [exact HD|]. split.
  - intros i e He.
    destruct (Hslots i e He) as (sti & obs & elts & w' & ? & ? & ? & ?).
    eexists _, sti, obs, elts, w'. split; [|done]. simpl. exact Hlogc.
  - rewrite (pool_states_eq _ _ _ _ _ _ Hp).
    eexists _, _. split; [done|]. split.
    + simpl. by rewrite lookup_app_r, Nat.sub_diag by done.
    + pose proof (pool_at_lt _ _ _ _ _ _ Hp) as (? & _). lia.
Qed.

End Pool.


(** *** The claims on concrete inputs *)

(** a concrete pool holds the view read off its store *)
Ltac concrete_pool :=
  unfold pool_at, shaped, wf; simpl;
  repeat split; first [reflexivity | discriminate | lia].

Lemma step_auto_reset_witness :
  ∃ pool st out st' v' obs elts w1 w2,
    Scenario.stepped_once = Some (pool, st)
    ∧ step pool [false; true; false] st = Some (out, st')
    ∧ pool_at pool 0 1 2 v' st'
    ∧ env_reset (action:=bool) (info:=unit) 2 w1 = Some (obs, w2)
    ∧ broadcast_to obs [2] = Some elts
    ∧ row (v_states v') 1 = Some (mk_ndarray [2] (to_float32 <$> elts))
    ∧ data (v_dones v') = [false; true; false].
Proof.
  destruct Scenario.stepped_once as [[pool st]|] eqn:Hb;
    [|vm_compute in Hb; discriminate].
  destruct (view_at 0 1 2 st) as [v|] eqn:Hv;
    [|vm_compute in Hb; injection Hb as <- <-;
      vm_compute in Hv; discriminate].
  destruct (step (info:=unit) pool [false; true; false] st)
    as [[[[[outS outR] outD] inf] st']|] eqn:Hstep;
    [|vm_compute in Hb; injection Hb as <- <-;
      vm_compute in Hstep; discriminate].
  destruct (step_auto_reset pool 0 1 2 v st [false; true; false]
              outS outR outD inf st' 1 2 true)
    as (sti & stj & new_s & r & dn & inf1 & w1 & obs & elts & v' & Hloop
        & Hslot & Hes & Hdn & Hbr & Hp' & _ & HoS & HoR & HoD & Hrow & HR & HD);
    [vm_compute in Hb; injection Hb as <- <-;
     vm_compute in Hv; injection Hv as <-; concrete_pool
    |vm_compute in Hb; injection Hb as <- <-;
     vm_compute in Hv; injection Hv as <-; concrete_pool
    |exact Hstep
    |vm_compute in Hb; injection Hb as <- <-; reflexivity
    |reflexivity|].
  assert (v_dones v' = mk_ndarray [3] [false; true; false]) as HD'.
  { destruct Hp' as (_&_&_&_&_&_&_&_&Had&_).
    vm_compute in Hb. injection Hb as <- <-.
    vm_compute in Hstep. injection Hstep as <- <- <- <- <-.
    vm_compute in Had. injection Had as Had. symmetry. exact Had. }
  rewrite HD' in HD. simpl in HD. injection HD as <-.
  destruct Hdn as [Hreset _].
  exists pool, st, (outS, outR, outD, inf), st', v', obs, elts, w1, (world stj).
  split; [reflexivity|]. split; [exact Hstep|]. split.
  { vm_compute in Hb. injection Hb as <- <-. exact Hp'. }
  split; [exact Hreset|]. split.
  { vm_compute in Hb. injection Hb as <- <-. exact Hbr. }
  split; [|by rewrite HD'].
  vm_compute in Hb. injection Hb as <- <-. exact Hrow.
Defined.

Lemma step_zip_truncates_witness :
  ∃ pool st v out st' v',
    Scenario.built = Some (pool, st)
    ∧ view_at 0 1 2 st = Some v
    ∧ step pool [false] st = Some (out, st')
    ∧ pool_at pool 0 1 2 v' st'
    ∧ steps_of (log st') = steps_of (log st) ++ [(false, 1)]
    ∧ slot_entry v' 1 = slot_entry v 1
    ∧ slot_entry v' 2 = slot_entry v 2.
Proof.
  destruct Scenario.built as [[pool st]|] eqn:Hb;
    [|vm_compute in Hb; discriminate].
  destruct (view_at 0 1 2 st) as [v|] eqn:Hv;
    [|vm_compute in Hb; injection Hb as <- <-;
      vm_compute in Hv; discriminate].
  destruct (step (info:=unit) pool [false] st) as [[out st']|] eqn:Hstep;
    [|vm_compute in Hb; injection Hb as <- <-;
      vm_compute in Hstep; discriminate].
  destruct (step_zip_truncates pool 0 1 2 v st [false]) as [_ Hsteps];
    [vm_compute in Hb; injection Hb as <- <-;
     vm_compute in Hv; injection Hv as <-; concrete_pool
    |vm_compute in Hb; injection Hb as <- <-;
     vm_compute in Hv; injection Hv as <-; concrete_pool|].
  destruct (Hsteps out st' Hstep) as (v' & Hp' & Hlog & Hframe).
  exists pool, st, v, out, st', v'.
  split; [reflexivity|]. split; [exact Hv|]. split; [exact Hstep|].
  split; [exact Hp'|]. split.
  { vm_compute in Hb. injection Hb as <- <-. exact Hlog. }
  split; apply Hframe; simpl; lia.
Defined.

(** C2 as stated fails: on a pool of three slots a batch of one
    action is accepted, and slot 0 is stepped. *)
Lemma action_count_mismatch_counterexample :
  ∃ pool st out st',
    Scenario.built = Some (pool, st)
    ∧ n_envs pool = 3
    ∧ length [false] ≠ n_envs pool
    ∧ step (info:=unit) pool [false] st = Some (out, st')
    ∧ steps_of (log st') = [(false, 1)].
Proof.
  destruct Scenario.built as [[pool st]|] eqn:Hb;
    [|vm_compute in Hb; discriminate].
  destruct (step (info:=unit) pool [false] st) as [[out st']|] eqn:Hstep;
    [|vm_compute in Hb; injection Hb as <- <-;
      vm_compute in Hstep; discriminate].
  exists pool, st, out, st'. split; [reflexivity|].
  vm_compute in Hb. injection Hb as <- <-.
  split; [reflexivity|]. split; [simpl; lia|]. split; [exact Hstep|].
  vm_compute in Hstep. injection Hstep as <- <-. reflexivity.
Qed.

Lemma returned_arrays_are_copies_witness :
  ∃ pool st v l1 st1 l2 st2,
    Scenario.built = Some (pool, st)
    ∧ view_at 0 1 2 st = Some v
    ∧ pool_states pool st = Some (l1, st1)
    ∧ pool_states pool st1 = Some (l2, st2)
    ∧ l1 ≠ l2
    ∧ arrays st2 !! l1 = Some (VFloat (v_states v))
    ∧ arrays st2 !! l2 = Some (VFloat (v_states v)).
Proof.
  destruct Scenario.built as [[pool st]|] eqn:Hb;
    [|vm_compute in Hb; discriminate].
  destruct (view_at 0 1 2 st) as [v|] eqn:Hv;
    [|vm_compute in Hb; injection Hb as <- <-;
      vm_compute in Hv; discriminate].
  destruct (pool_states pool st) as [[l1 st1]|] eqn:H1;
    [|vm_compute in Hb; injection Hb as <- <-;
      vm_compute in H1; discriminate].
  destruct (pool_states pool st1) as [[l2 st2]|] eqn:H2;
    [|vm_compute in Hb; injection Hb as <- <-;
      vm_compute in H1; injection H1 as <- <-;
      vm_compute in H2; discriminate].
  destruct (returned_arrays_are_copies pool 0 1 2 v st) as [_ Htwice];
    [vm_compute in Hb; injection Hb as <- <-;
     vm_compute in Hv; injection Hv as <-; concrete_pool|].
  destruct (Htwice l1 st1 l2 st2 H1 H2) as (Hne & _ & _ & Ha1 & Ha2 & _).
  exists pool, st, v, l1, st1, l2, st2.
  split; [reflexivity|]. split; [exact Hv|]. split; [exact H1|].
  split; [exact H2|]. split; [exact Hne|]. split; [exact Ha1|exact Ha2].
Defined.

Lemma reset_keeps_slots_witness :
  ∃ pool st out pool' st',
    Scenario.built = Some (pool, st)
    ∧ reset pool st = Some ((out, pool'), st')
    ∧ envs pool' = envs pool
    ∧ log st' = log st ++ (EvReset <$> envs pool).
Proof.
  destruct Scenario.built as [[pool st]|] eqn:Hb;
    [|vm_compute in Hb; discriminate].
  destruct (reset (info:=unit) pool st) as [[[out pool'] st']|] eqn:Hr;
    [|vm_compute in Hb; injection Hb as <- <-;
      vm_compute in Hr; discriminate].
  destruct (reset_keeps_slots pool st out pool' st' Hr)
    as (Henvs & _ & _ & _ & Hlog & _).
  exists pool, st, out, pool', st'.
  split; [reflexivity|]. split; [exact Hr|]. split; [exact Henvs|exact Hlog].
Defined.

(** C5 as stated fails, on a pool of two [FrameBuffer] slots: [reset]
    copies nothing (the slots and the number of objects of the store
    are as before, and the log gains two resets only); and the two
    slots are not independent, since they wrap the same environment:
    what slot 1 observes on a step depends on whether slot 0 was
    stepped before. *)
Lemma reset_recreates_counterexample :
  ∃ pool st out pool' st',
    Scenario.wrapped_built = Some (pool, st)
    ∧ reset (info:=unit) pool st = Some ((out, pool'), st')
    ∧ envs pool = [1; 2] ∧ envs pool' = [1; 2]
    ∧ length (world st').2 = length (world st).2
    ∧ log st' = log st ++ [EvReset 1; EvReset 2]
    ∧ (fst <$> env_step (info:=unit) 2 false (world st'))
      ≠ ('(_, w) ← env_step (info:=unit) 1 false (world st');
         fst <$> env_step (info:=unit) 2 false w).
Proof.
  destruct Scenario.wrapped_built as [[pool st]|] eqn:Hb;
    [|vm_compute in Hb; discriminate].
  destruct (reset (info:=unit) pool st) as [[[out pool'] st']|] eqn:Hr;
    [|vm_compute in Hb; injection Hb as <- <-;
      vm_compute in Hr; discriminate].
  exists pool, st, out, pool', st'. split; [reflexivity|].
  split; [exact Hr|].
  vm_compute in Hb. injection Hb as <- <-.
  vm_compute in Hr. injection Hr as <- <- <-.
  split; [reflexivity|]. split; [reflexivity|]. split; [reflexivity|].
  split; [reflexivity|].
  intros Heq. vm_compute in Heq. discriminate.
Qed.

Lemma init_resets_every_slot_witness :
  ∃ self st',
    Scenario.built = Some (self, st')
    ∧ length (envs self) = 3
    ∧ resets_of (log st') = envs self.
Proof.
  destruct Scenario.built as [[self st']|] eqn:Hb;
    [|vm_compute in Hb; discriminate].
  destruct (init_resets_every_slot (action:=bool) (info:=unit)
              0 3 false Scenario.state0 self st' Hb)
    as (space & ls & lr & ld & v & _ & _ & _ & _ & Hlen & _ & Hres & _).
  exists self, st'. split; [reflexivity|]. split; [exact Hlen|exact Hres].
Defined.

End EnvPoolFacts.

(** ** FrameBuffer: the constructor, the buffer and the stacked layout *)

Module FrameBufferLaws.
Import FrameBuffer.
Import FrameBufferFacts.

(** *** Indices of the rotated buffer *)

Lemma unravel_app_last base K p k :
  p < size_of base → k < K →
  unravel (base ++ [K]) (p * K + k) = unravel base p ++ [k].
Proof.
  revert p. induction base as [|d rest IH]; intros p Hp Hk.
  - change (size_of []) with 1 in Hp. assert (p = 0) as -> by lia.
    change ([k / 1] = [k]). by rewrite Nat.div_1_r.
  - change (size_of (d :: rest)) with (d * size_of rest) in Hp.
    change ((p * K + k) / size_of (rest ++ [K])
            :: unravel (rest ++ [K]) ((p * K + k) mod size_of (rest ++ [K]))
            = (p / size_of rest :: unravel rest (p mod size_of rest)) ++ [k]).
    rewrite size_of_app. change (size_of [K]) with (K * 1).
    rewrite Nat.mul_1_r.
    set (sr := size_of rest) in *.
    assert (sr ≠ 0) as Hsr by (intros Hz; rewrite Hz in Hp; lia).
    pose proof (Nat.div_mod_eq p sr) as Hdm.
    pose proof (Nat.mod_upper_bound p sr Hsr) as Hmod.
    assert ((p * K + k) / (sr * K) = p / sr) as ->.
    { symmetry. apply (Nat.div_unique _ _ _ (p mod sr * K + k)); nia. }
    assert ((p * K + k) mod (sr * K) = p mod sr * K + k) as ->.
    { symmetry. apply (Nat.mod_unique _ _ (p / sr)); nia. }
    by rewrite IH.
Qed.

Lemma index_of_seq s n i l :
  i < n → index_of (s + i) (seq s n ++ l) = i.
Proof.
  revert s i. induction n as [|n IH]; intros s i Hi; [lia|]. simpl.
  destruct i as [|i].
  - by rewrite Nat.add_0_r, decide_True.
  - rewrite decide_False by lia.
    replace (s + S i) with (S s + i) by lia. rewrite IH by lia. done.
Qed.

Lemma index_of_after_seq s n a l :
  a < s → index_of a (seq s n ++ a :: l) = n.
Proof.
  revert s. induction n as [|n IH]; intros s Ha; simpl.
  - by rewrite decide_True.
  - rewrite decide_False by lia. by rewrite IH by lia.
Qed.

Lemma source_index_rotation idx k :
  source_index (seq 1 (length idx) ++ [0]) (idx ++ [k]) = k :: idx.
Proof.
  unfold source_index. rewrite length_app, length_seq.
  replace (length idx + length [0]) with (S (length idx)) by (simpl; lia).
  rewrite <- cons_seq. rewrite fmap_cons. f_equal.
  - rewrite (index_of_after_seq 1 (length idx) 0 []) by lia.
    by rewrite lookup_total_app_r, Nat.sub_diag by done.
  - apply list_eq. intros i. rewrite list_lookup_fmap.
    destruct (decide (i < length idx)) as [Hi|Hi].
    + rewrite lookup_seq_lt by done. cbn [fmap option_fmap option_map].
      rewrite (index_of_seq 1 (length idx) i [0] Hi).
      destruct (lookup_lt_is_Some_2 idx i) as [x Hxi]; [lia|].
      rewrite Hxi. f_equal. apply list_lookup_total_correct.
      by rewrite lookup_app_l by lia.
    + rewrite lookup_seq_ge by lia. by rewrite lookup_ge_None_2 by lia.
Qed.

Lemma unravel_length shp j : length (unravel shp j) = length shp.
Proof. revert j. induction shp as [|d rest IH]; intros j; simpl; [done|]. by rewrite IH. Qed.

Lemma mapM_lookup {A B} (f : A → option B) (l : list A) (k : list B) i x :
  mapM f l = Some k → l !! i = Some x → k !! i = f x.
Proof.
  intros Hm Hx. apply mapM_Some in Hm.
  destruct (Forall2_lookup_l _ _ _ _ _ Hm Hx) as (y & Hy & Hf). by rewrite Hy, Hf.
Qed.

(** the elements of the rotated array: position [p * K + k] holds
    the element at position [p] of row [k] *)
Lemma transpose_rotation_lookup {A} (x y : ndarray A) K base k p :
  shape x = K :: base →
  transpose x (seq 1 (length base) ++ [0]) = Some y →
  k < K → p < size_of base →
  data y !! (p * K + k) = data x !! (k * size_of base + p).
Proof.
  intros Hs Ht Hk Hp. unfold transpose in Ht.
  destruct (bool_decide _); [|done].
  rewrite Hs, rotated_shape in Ht.
  destruct (mapM _ _) as [elts|] eqn:Hm; [|done].
  injection Ht as <-. simpl.
  rewrite (mapM_lookup _ _ _ (p * K + k) (p * K + k) Hm).
  2:{ apply lookup_seq. split; [done|]. rewrite size_of_app. simpl. nia. }
  rewrite unravel_app_last by done.
  rewrite <- (unravel_length base p) at 1.
  rewrite source_index_rotation. simpl.
  by rewrite ravel_unravel.
Qed.

Lemma row_data_lookup {A} (x f : ndarray A) k p :
  row x k = Some f → p < size_of (shape f) →
  data f !! p = data x !! (k * size_of (shape f) + p).
Proof.
  unfold row. destruct (shape x) as [|n rest]; [done|].
  destruct (decide _); [|done]. intros [= <-]. simpl. intros Hp.
  rewrite lookup_take_lt by lia. by rewrite lookup_drop.
Qed.

Lemma row_shape {A} (x f : ndarray A) K base k :
  shape x = K :: base → row x k = Some f → k < K ∧ shape f = base.
Proof.
  unfold row. intros ->. destruct (decide _); [|done]. by intros [= <-].
Qed.

Lemma take_row {A} (l : list A) K sz j :
  j < K → take sz (drop (j * sz) (take (K * sz) l)) = take sz (drop (j * sz) l).
Proof.
  intros Hj. rewrite !take_drop_commute, take_take. do 2 f_equal. nia.
Qed.

Lemma auto_result_shape_size base K rs :
  auto_result_shape base K = Some rs →
  base ≠ [] ∧ size_of rs = size_of (base ++ [K]).
Proof.
  intros Hrs. destruct base as [|d [|d' base]].
  - done.
  - rewrite auto_result_shape_flat in Hrs. injection Hrs as <-. done.
  - destruct (auto_result_shape_stack (d :: d' :: base) K) as (x & Hx & Hrs');
      [simpl; lia|].
    rewrite Hrs' in Hrs. injection Hrs as <-. split; [done|].
    exact (size_of_result_stack _ _ _ Hx).
Qed.

Lemma take_app_take {A} (l1 l2 : list A) n m :
  n ≤ length l1 + m → take n (l1 ++ take m l2) = take n (l1 ++ l2).
Proof.
  intros Hn. rewrite !take_app. f_equal.
  rewrite take_take. f_equal. lia.
Qed.

Lemma concat_data_length (obss : list (ndarray float)) base :
  Forall (λ o, shape o = base ∧ wf o) obss →
  length (concat (data <$> obss)) = length obss * size_of base.
Proof.
  induction 1 as [|o obss [Hs Hw] _ IH]; [done|].
  rewrite fmap_cons. cbn [concat]. rewrite length_app, IH.
  unfold wf in Hw. rewrite Hw, Hs. simpl. lia.
Qed.

Lemma concat_row (obss : list (ndarray float)) base rest j o :
  Forall (λ o, shape o = base ∧ wf o) obss →
  obss !! j = Some o →
  take (size_of base) (drop (j * size_of base) (concat (data <$> obss) ++ rest))
  = data o.
Proof.
  intros Hall. revert j. induction Hall as [|o' obss [Hs Hw] _ IH]; intros j Hj;
    [done|].
  unfold wf in Hw. rewrite Hs in Hw.
  rewrite fmap_cons. cbn [concat]. rewrite <- app_assoc.
  destruct j as [|j]; simpl in Hj.
  - injection Hj as ->. rewrite Nat.mul_0_l, drop_0.
    by rewrite take_app_length'.
  - rewrite drop_app_ge by lia.
    replace (S j * size_of base - length (data o'))
      with (j * size_of base) by lia.
    by apply IH.
Qed.

Section Wrapper.
Context {action info W E : Type} `{!Env action info W E}.
Implicit Types (self fb : t E) (obs : ndarray float).

(** X1: with the default [reshape_fn] the constructor returns exactly
    when the wrapped environment has an observation space of at least
    one axis (on a 0-d space [result_shape[-1]] raises).  The wrapper
    it returns holds the environment and a zero buffer of shape
    [(n_frames, *base)]; the exported space is the shape of the
    reshaped zero buffer and has [n_frames] times the entries of the
    base space. *)
Theorem init_default_succeeds_iff (e : E) (K : nat) (w : W) :
  (is_Some (__init__ e K None w)
   ↔ ∃ space, env_observation_space e w = Some space ∧ box_shape space ≠ [])
  ∧ ∀ fb, __init__ e K None w = Some fb →
      env fb = e
      ∧ ∃ space, env_observation_space e w = Some space
                 ∧ framebuffer fb = zeros zero (K :: box_shape space)
                 ∧ reshape_fn fb (framebuffer fb)
                   = Some (zeros zero (box_shape (observation_space fb)))
                 ∧ size_of (box_shape (observation_space fb))
                   = K * size_of (box_shape space).
Proof.
  assert (∀ space, env_observation_space e w = Some space →
            box_shape space ≠ [] →
            ∃ rs, auto_result_shape (box_shape space) K = Some rs
                  ∧ size_of rs = size_of (box_shape space ++ [K])) as Hrs.
  { intros space _ Hne. destruct (box_shape space) as [|d [|d' base]] eqn:Hb.
    - done.
    - eexists. split; [apply auto_result_shape_flat|done].
    - destruct (auto_result_shape_stack (d :: d' :: base) K) as (x & Hx & Hrs');
        [simpl; lia|].
      eexists. split; [exact Hrs'|]. by apply size_of_result_stack. }
  split; [split|].
  - intros [fb Hfb]. unfold __init__ in Hfb.
    destruct (env_observation_space e w) as [space|] eqn:Hsp; [|done].
    exists space. split; [done|]. simpl in Hfb.
    destruct (auto_result_shape (box_shape space) K) as [rs|] eqn:Hr;
      [|done].
    by apply auto_result_shape_size in Hr as [? _].
  - intros (space & Hsp & Hne).
    destruct (Hrs space Hsp Hne) as (rs & Hr & Hsz).
    rewrite (init_default e K w space rs Hsp Hr Hsz). eauto.
  - intros fb Hfb.
    assert (is_Some (__init__ e K None w)) as Hs by eauto.
    unfold __init__ in Hs. destruct Hs as [fb0 Hs].
    destruct (env_observation_space e w) as [space|] eqn:Hsp; [|done].
    simpl in Hs.
    destruct (auto_result_shape (box_shape space) K) as [rs|] eqn:Hr; [|done].
    clear Hs fb0.
    destruct (auto_result_shape_size _ _ _ Hr) as [Hne Hsz].
    rewrite (init_default e K w space rs Hsp Hr Hsz) in Hfb.
    injection Hfb as <-. simpl. split; [done|].
    exists space. split; [done|]. split; [done|]. split.
    + unfold auto_reshape_fn.
      destruct (transpose_Some (zeros zero (K :: box_shape space))
                  (seq 1 (length (box_shape space)) ++ [0]))
        as (y & Hy & Hsy & Hwy); [apply wf_zeros|apply rotation_perm|].
      rewrite Hy. simpl. unfold reshape. simpl in Hsy.
      rewrite rotated_shape in Hsy. rewrite Hsy, decide_True by done.
      f_equal. unfold zeros. f_equal.
      apply list_eq. intros i.
      unfold transpose in Hy. simpl in Hy.
      destruct (bool_decide _); [|done].
      destruct (mapM _ _) as [elts|] eqn:Hm; [|done]. injection Hy as <-.
      simpl. simpl in Hwy. unfold wf in Hwy. simpl in Hwy.
      destruct (decide (i < size_of rs)) as [Hi|Hi].
      * rewrite lookup_replicate_2 by done.
        rewrite (mapM_lookup _ _ _ i i Hm)
          by (apply lookup_seq; split; [done|]; rewrite rotated_shape; lia).
        match goal with |- replicate ?n _ !! ?j = _ =>
          destruct (decide (j < n)) as [Hj|Hj] end.
        { by rewrite lookup_replicate_2. }
        exfalso. apply Hj.
        assert (is_Some (elts !! i)) as [x Hx].
        { apply lookup_lt_is_Some. rewrite Hwy, rotated_shape. lia. }
        rewrite (mapM_lookup _ _ _ i i Hm) in Hx
          by (apply lookup_seq; split; [done|]; rewrite rotated_shape; lia).
        apply lookup_lt_Some in Hx. by rewrite length_replicate in Hx.
      * rewrite lookup_ge_None_2 by (rewrite Hwy, rotated_shape; lia).
        by rewrite lookup_ge_None_2 by (rewrite length_replicate; lia).
    + rewrite Hsz, size_of_app. simpl. lia.
Qed.


Lemma update_buffer_eq self obs (K : nat) (base : list nat) :
  shape (framebuffer self) = K :: base → base ≠ [] →
  update_buffer self obs
  = if decide ((if decide (shape obs = []) then [1] else shape obs) = base)
    then Some (set_framebuffer self
                 (mk_ndarray (S (pred K) :: base)
                    (data obs ++ take (pred K * size_of base)
                                   (data (framebuffer self)))))
    else None.
Proof.
  intros Hfb Hne. unfold update_buffer, drop_last_row. rewrite Hfb.
  cbn [mbind option_bind]. unfold vstack2.
  set (ra := if decide (shape obs = []) then [1] else shape obs).
  assert (shape (atleast_2d (newaxis obs)) = 1 :: ra
          ∧ data (atleast_2d (newaxis obs)) = data obs) as [Hs Hd].
  { unfold atleast_2d, newaxis, ra. cbn [shape data].
    destruct (shape obs) as [|a [|b l]]; done. }
  assert (atleast_2d (mk_ndarray (pred K :: base)
            (take (pred K * size_of base) (data (framebuffer self))))
          = mk_ndarray (pred K :: base)
              (take (pred K * size_of base) (data (framebuffer self)))) as ->.
  { unfold atleast_2d. cbn [shape]. destruct base; done. }
  unfold concatenate0. rewrite Hs, Hd. cbn [shape data].
  destruct (decide (ra = base)) as [->|Hneq]; done.
Qed.

(** X2: on a buffer of shape [(K, *base)] with a base of at least one
    axis, [update_buffer] returns exactly when the observation has the
    base shape (or is 0-d with base [(1,)], which [vstack] promotes);
    any other shape raises.  The new buffer is the observation
    followed by the first [K - 1] rows of the old buffer; with
    [K = 0] it has one row.  The other attributes are kept. *)
Theorem update_buffer_accepts self obs (K : nat) (base : list nat) :
  shape (framebuffer self) = K :: base → base ≠ [] →
  (is_Some (update_buffer self obs)
   ↔ shape obs = base ∨ (shape obs = [] ∧ base = [1]))
  ∧ ∀ self', update_buffer self obs = Some self' →
      shape (framebuffer self') = S (pred K) :: base
      ∧ data (framebuffer self')
        = data obs ++ take (pred K * size_of base) (data (framebuffer self))
      ∧ env self' = env self ∧ reshape_fn self' = reshape_fn self
      ∧ observation_space self' = observation_space self.
Proof.
  intros Hfb Hne. rewrite (update_buffer_eq self obs K base Hfb Hne).
  destruct (decide (shape obs = [])) as [Hnil|Hnn].
  - destruct (decide ([1] = base)) as [<-|Hb].
    + split; [split; eauto|]. by intros self' [= <-].
    + split; [|done]. split; [by intros [? ?]|].
      intros [Heq|[_ Heq]]; congruence.
  - destruct (decide (shape obs = base)) as [Hb|Hb].
    + split; [split; eauto|]. by intros self' [= <-].
    + split; [|done]. split; [by intros [? ?]|].
      intros [Heq|[Heq _]]; congruence.
Qed.

(** the buffer after a run of steps *)
Lemma run_steps_data (K : nat) (base rs : list nat) (acts : list action) :
  1 ≤ K → base ≠ [] → size_of rs = size_of (base ++ [K]) →
  ∀ fb w obss w',
    shape (framebuffer fb) = K :: base → wf (framebuffer fb) →
    reshape_fn fb = auto_reshape_fn (seq 1 (length base) ++ [0]) rs →
    env_observations (env fb) acts w = Some (obss, w') →
    Forall (λ o, shape o = base ∧ wf o) obss →
    ∃ outs fb',
      run (Step <$> acts) fb w = Some (outs, fb', w')
      ∧ length outs = length acts
      ∧ Forall (λ o, shape o = rs) outs
      ∧ shape (framebuffer fb') = K :: base
      ∧ data (framebuffer fb')
        = take (K * size_of base)
            (concat (data <$> reverse obss) ++ data (framebuffer fb)).
Proof.
  intros HK Hne Hsz.
  induction acts as [|a acts IH]; intros fb w obss w' Hsh Hwf Hfn Hobs Hall.
  - simpl in Hobs. injection Hobs as <- <-. exists [], fb.
    split; [done|]. split; [done|]. split; [done|]. split; [done|].
    simpl. rewrite take_ge; [done|]. rewrite Hwf, Hsh. simpl. lia.
  - simpl in Hobs.
    destruct (env_step (env fb) a w) as [[[[[obs r] d] i] w1]|] eqn:Hstep;
      [|done].
    simpl in Hobs.
    destruct (env_observations (env fb) acts w1) as [[obss' w2]|] eqn:Hrest;
      [|done].
    simpl in Hobs. injection Hobs as <- <-.
    apply list.Forall_cons in Hall as [[Hso Hwo] Hall].
    pose proof (update_buffer_Some fb obs K base Hsh Hne HK Hso) as Hu.
    set (fb1 := set_framebuffer fb
                  (mk_ndarray (K :: base)
                     (data obs ++ take ((K - 1) * size_of base)
                                    (data (framebuffer fb))))) in *.
    assert (length (data obs) = size_of base) as Hlen by (by rewrite <- Hso).
    assert (wf (framebuffer fb1)) as Hwf1.
    { unfold wf in *. simpl. rewrite length_app, length_take, Hlen, Hwf, Hsh.
      simpl. nia. }
    destruct (auto_reshape_fn_Some K base rs (framebuffer fb1) Hwf1 eq_refl Hsz)
      as (out & Hout & Hso' & _).
    destruct (IH fb1 w1 obss' w2 eq_refl Hwf1 Hfn Hrest Hall)
      as (outs & fb' & Hrun & Hlo & Hshapes & Hsh' & Hdata).
    exists (out :: outs), fb'. split; [|split; [|split; [|split]]].
    + cbn [fmap list_fmap run run_call]. unfold step. rewrite Hstep.
      cbn [mbind option_bind]. rewrite Hu. cbn [mbind option_bind].
      change (reshape_fn fb1) with (reshape_fn fb). rewrite Hfn, Hout.
      cbn [mbind option_bind].
      change (list_fmap action call Step acts) with (Step <$> acts).
      rewrite Hrun. done.
    + simpl. by rewrite Hlo.
    + by constructor.
    + done.
    + rewrite Hdata. simpl. rewrite reverse_cons, fmap_app, concat_app.
      simpl. rewrite app_nil_r, <- !app_assoc.
      rewrite !(app_assoc _ (data obs)).
      apply take_app_take. rewrite length_app, Hlen. nia.
Qed.

(** X3: after a run of [step] calls the buffer holds the latest
    observations of the wrapped environment, newest first: row [j] is
    the observation of the [j]-th last step, and the rows beyond the
    number of steps are the rows the buffer had before, moved back.
    With the default [reshape_fn] the run returns whenever the wrapped
    environment does and its observations have the base shape. *)
Theorem buffer_after_steps fb (acts : list action) (w w' : W)
    (obss : list (ndarray float)) (K : nat) (base rs : list nat) :
  1 ≤ K → base ≠ [] →
  shape (framebuffer fb) = K :: base → wf (framebuffer fb) →
  reshape_fn fb = auto_reshape_fn (seq 1 (length base) ++ [0]) rs →
  size_of rs = size_of (base ++ [K]) →
  env_observations (env fb) acts w = Some (obss, w') →
  Forall (λ o, shape o = base ∧ wf o) obss →
  ∃ outs fb',
    run (Step <$> acts) fb w = Some (outs, fb', w')
    ∧ length outs = length acts
    ∧ (∀ j o, j < K → reverse obss !! j = Some o →
         row (framebuffer fb') j = Some o)
    ∧ (∀ j, length obss ≤ j < K →
         row (framebuffer fb') j = row (framebuffer fb) (j - length obss)).
Proof.
  intros HK Hne Hsh Hwf Hfn Hsz Hobs Hall.
  destruct (run_steps_data K base rs acts HK Hne Hsz fb w obss w'
              Hsh Hwf Hfn Hobs Hall)
    as (outs & fb' & Hrun & Hlo & _ & Hsh' & Hdata).
  exists outs, fb'. split; [done|]. split; [done|].
  assert (Forall (λ o, shape o = base ∧ wf o) (reverse obss)) as Hrev.
  { by apply Forall_reverse. }
  split.
  - intros j o Hj Ho.
    rewrite (row_lookup _ K base j Hsh' Hj). rewrite Hdata.
    rewrite take_row by done.
    rewrite (concat_row _ base _ j o Hrev Ho).
    rewrite list.Forall_forall in Hrev.
    destruct (Hrev o) as [Hso _]; [by eapply list_elem_of_lookup_2|].
    destruct o as [so dt]. simpl in *. by rewrite Hso.
  - intros j [Hge Hj].
    rewrite (row_lookup _ K base j Hsh' Hj).
    rewrite (row_lookup _ K base (j - length obss) Hsh) by lia.
    rewrite Hdata, take_row by done. do 2 f_equal.
    pose proof (concat_data_length _ base Hrev) as Hlen.
    rewrite length_reverse in Hlen.
    rewrite drop_app_ge by (rewrite Hlen; nia). rewrite Hlen. f_equal.
    by rewrite Nat.mul_sub_distr_r.
Qed.

(** X4: the default [reshape_fn] of a constructed wrapper interleaves
    the frames: entry [p] of frame [k] of a buffer is entry
    [p * n_frames + k] of the stacked observation, which has the
    exported shape. *)
Theorem stacked_layout (e : E) (K : nat) (w : W) (space : Box) fb :
  env_observation_space e w = Some space →
  __init__ e K None w = Some fb →
  ∀ x, wf x → shape x = K :: box_shape space →
    ∃ y, reshape_fn fb x = Some y
         ∧ shape y = box_shape (observation_space fb)
         ∧ length (data y) = size_of (box_shape space) * K
         ∧ ∀ k p f, row x k = Some f → p < size_of (box_shape space) →
             data y !! (p * K + k) = data f !! p.
Proof.
  intros Hsp Hfb x Hwf Hsh.
  assert (is_Some (__init__ e K None w)) as Hs by eauto.
  unfold __init__ in Hs. destruct Hs as [fb0 Hs]. rewrite Hsp in Hs.
  simpl in Hs.
  destruct (auto_result_shape (box_shape space) K) as [rs|] eqn:Hr; [|done].
  clear Hs fb0.
  destruct (auto_result_shape_size _ _ _ Hr) as [Hne Hsz].
  rewrite (init_default e K w space rs Hsp Hr Hsz) in Hfb.
  injection Hfb as <-. simpl.
  destruct (auto_reshape_fn_Some K (box_shape space) rs x Hwf Hsh Hsz)
    as (y & Hy & Hsy & Hwy).
  exists y. split; [done|]. split; [done|]. split.
  { rewrite Hwy, Hsy, Hsz, size_of_app. simpl. lia. }
  intros k p f Hrow Hp.
  destruct (row_shape _ _ _ _ _ Hsh Hrow) as [Hk Hsf].
  rewrite (row_data_lookup _ _ _ _ Hrow) by (by rewrite Hsf).
  rewrite Hsf. unfold auto_reshape_fn in Hy.
  destruct (transpose x _) as [z|] eqn:Hz; [|done]. simpl in Hy.
  unfold reshape in Hy. destruct (decide _); [|done]. injection Hy as <-.
  simpl. by eapply transpose_rotation_lookup.
Qed.


End Wrapper.

(** *** The properties on concrete inputs *)

Lemma init_default_succeeds_iff_witness :
  is_Some (__init__ (action:=bool) (info:=unit) 0 2 None Scenario.flat_world)
  ∧ ¬ is_Some (__init__ (action:=bool) (info:=unit) 0 2 None
                 [Ticker.mk_sim [] 5 0]).
Proof.
  split.
  - apply (init_default_succeeds_iff (action:=bool) (info:=unit)
             0 2 Scenario.flat_world).
    exists (mk_Box zero one [3]). split; [reflexivity | discriminate].
  - intros Hs.
    apply (init_default_succeeds_iff (action:=bool) (info:=unit)
             0 2 [Ticker.mk_sim [] 5 0]) in Hs as (space & Hsp & Hne).
    injection Hsp as <-. by apply Hne.
Defined.

Lemma update_buffer_accepts_witness :
  is_Some (update_buffer Scenario.frames2 (zeros zero [2]))
  ∧ ¬ is_Some (update_buffer Scenario.frames2 (zeros zero [3])).
Proof.
  destruct (update_buffer_accepts Scenario.frames2 (zeros zero [2]) 2 [2])
    as [Hyes _]; [reflexivity | discriminate |].
  destruct (update_buffer_accepts Scenario.frames2 (zeros zero [3]) 2 [2])
    as [Hno _]; [reflexivity | discriminate |].
  split.
  - apply Hyes. left. reflexivity.
  - intros Hs. apply Hno in Hs as [Hs|[Hs _]]; discriminate.
Defined.

Lemma buffer_after_steps_witness :
  ∃ outs fb',
    run (info:=unit) (Step <$> [false; false; false]) Scenario.frames2
      Scenario.world0
    = Some (outs, fb', [Ticker.mk_sim [2] 5 3])
    ∧ row (framebuffer fb') 0 = Some (Ticker.observe (Ticker.mk_sim [2] 5 3))
    ∧ row (framebuffer fb') 1 = Some (Ticker.observe (Ticker.mk_sim [2] 5 2)).
Proof.
  destruct (buffer_after_steps (action:=bool) (info:=unit) Scenario.frames2
              [false; false; false] Scenario.world0 [Ticker.mk_sim [2] 5 3]
              [Ticker.observe (Ticker.mk_sim [2] 5 1);
               Ticker.observe (Ticker.mk_sim [2] 5 2);
               Ticker.observe (Ticker.mk_sim [2] 5 3)] 2 [2] [2; 2])
    as (outs & fb' & Hrun & _ & Hrows & _);
    [lia | discriminate | reflexivity | reflexivity | reflexivity
     | reflexivity | reflexivity | repeat constructor |].
  exists outs, fb'. split; [exact Hrun|].
  split; apply Hrows; first [lia | reflexivity].
Defined.

Lemma stacked_layout_witness :
  ∃ fb y,
    __init__ (action:=bool) (info:=unit) 0 2 None Scenario.image_world
    = Some fb
    ∧ reshape_fn fb (mk_ndarray [2; 2; 2; 3] (floats_upto 24)) = Some y
    ∧ length (data y) = 12 * 2
    ∧ data y !! (5 * 2 + 1) = Some (of_Z 17).
Proof.
  destruct (__init__ (action:=bool) (info:=unit) 0 2 None Scenario.image_world)
    as [fb|] eqn:Hfb; [|vm_compute in Hfb; discriminate].
  assert (env_observation_space (action:=bool) (info:=unit) 0
            Scenario.image_world = Some (mk_Box zero one [2; 2; 3])) as Hsp
    by reflexivity.
  destruct (stacked_layout 0 2 Scenario.image_world _ fb Hsp Hfb
              (mk_ndarray [2; 2; 2; 3] (floats_upto 24)))
    as (y & Hy & _ & Hlen & Hlay); [reflexivity | reflexivity |].
  exists fb, y. split; [reflexivity|]. split; [exact Hy|].
  split; [exact Hlen|].
  rewrite (Hlay 1 5 (mk_ndarray [2; 2; 3] (drop 12 (floats_upto 24))));
    [reflexivity | reflexivity | simpl; lia].
Defined.


End FrameBufferLaws.

(** ** PreprocessImage: the declared space and the arithmetic of pixels *)

Module PreprocessImageLaws.
Import PreprocessImage.
Import PreprocessImageFacts.

Section Declared.
Variable imresize : ndarray uint8 → nat * nat → option (ndarray uint8).

(** [imresize] produces an image of the requested height and width
    and keeps the number of channels *)
Hypothesis imresize_keeps_channels : ∀ im h w H Wd c r,
  shape im = [H; Wd; c] → imresize im (h, w) = Some r → shape r = [h; w; c].

(** X6: the observation has the height and the width given to the
    constructor, with one channel under grayscale and the channels of
    the image otherwise; it has the shape of the declared observation
    space exactly when grayscale is on or the image has three
    channels. *)
Theorem declared_shape_iff (height width : nat) (gray : bool)
    (crop_fn : option (ndarray uint8 → option (ndarray uint8)))
    (img cropped : ndarray uint8) (out : ndarray float) (H Wd c : nat) :
  default no_crop crop_fn img = Some cropped →
  shape cropped = [H; Wd; c] →
  _observation imresize (__init__ height width gray crop_fn) img = Some out →
  shape out = [height; width; if gray then 1 else c]
  ∧ (shape out = box_shape (observation_space (__init__ height width gray crop_fn))
     ↔ gray = true ∨ c = 3).
Proof.
  intros Hcrop Hshape. unfold _observation, __init__. simpl.
  rewrite Hcrop. simpl.
  destruct (imresize cropped (height, width)) as [r|] eqn:Hr; [|done]. simpl.
  pose proof (imresize_keeps_channels _ _ _ _ _ _ _ Hshape Hr) as Hrs.
  destruct gray; simpl.
  - unfold mean_last_keepdims. rewrite Hrs. simpl.
    intros [= <-]. simpl. split; [done|]. split; eauto.
  - intros [= <-]. simpl. rewrite Hrs. split; [done|]. split.
    + intros [= ->]. by right.
    + intros [?| ->]; done.
Qed.

End Declared.

(** *** Scaling *)

Lemma Qltb_lt (p q : Q) : Qltb p q = true → (p < q)%Q.
Proof. unfold Qltb, Qlt. apply Z.ltb_lt. Qed.

Lemma increasing_check : range_check 255 increasing_checkb = true.
Proof. vm_compute. reflexivity. Qed.

Lemma scale_next (n : nat) :
  n < 255 →
  ∃ p q, float_value (scale_value (of_Z (Z.of_nat n))) = Some p
         ∧ float_value (scale_value (of_Z (Z.of_nat (S n)))) = Some q
         ∧ (p < q)%Q.
Proof.
  intros Hn.
  assert (0 ≤ Z.of_nat n < Z.of_nat 255)%Z as Hz by lia.
  pose proof (range_check_spec _ _ _ increasing_check Hz) as Hc.
  unfold increasing_checkb in Hc.
  replace (Z.of_nat n + 1)%Z with (Z.of_nat (S n)) in Hc by lia.
  destruct (float_value (scale_value (of_Z (Z.of_nat n)))) as [p|]; [|done].
  destruct (float_value (scale_value (of_Z (Z.of_nat (S n))))) as [q|]; [|done].
  exists p, q. split; [done|]. split; [done|]. by apply Qltb_lt.
Qed.

Lemma scale_increasing (n m : nat) :
  n < m → m ≤ 255 →
  ∃ p q, float_value (scale_value (of_Z (Z.of_nat n))) = Some p
         ∧ float_value (scale_value (of_Z (Z.of_nat m))) = Some q
         ∧ (p < q)%Q.
Proof.
  induction m as [|m IH]; intros Hnm Hm; [lia|].
  destruct (scale_next m) as (p' & q & Hp' & Hq & Hlt); [lia|].
  destruct (decide (n = m)) as [->|Hne].
  - by exists p', q.
  - destruct IH as (p & p'' & Hp & Hp'' & Hlt'); [lia..|].
    rewrite Hp' in Hp''. injection Hp'' as <-.
    exists p, q. split; [done|]. split; [done|].
    by eapply Qlt_trans.
Qed.

(** X7: the scaling [astype('float32') / 255.] is strictly increasing
    on pixel values and stays in [0, 1]; pixel 0 gives 0 and pixel 255
    gives 1, exactly. *)
Theorem scale_strictly_increasing (b1 b2 : uint8) :
  (Byte.to_N b1 < Byte.to_N b2)%N →
  ∃ q1 q2,
    float_value (scale_value (of_uint8 b1)) = Some q1
    ∧ float_value (scale_value (of_uint8 b2)) = Some q2
    ∧ (0 <= q1)%Q ∧ (q1 < q2)%Q ∧ (q2 <= 1)%Q
    ∧ (b1 = "000"%byte → (q1 == 0)%Q)
    ∧ (b2 = "255"%byte → (q2 == 1)%Q).
Proof.
  intros Hlt.
  assert (∃ q1 q2,
            float_value (scale_value (of_uint8 b1)) = Some q1
            ∧ float_value (scale_value (of_uint8 b2)) = Some q2
            ∧ (q1 < q2)%Q) as (q1 & q2 & H1 & H2 & Hq).
  { unfold of_uint8.
    pose proof (uint8_range b1) as H1. pose proof (uint8_range b2) as H2.
    replace (Z.of_N (Byte.to_N b1))
      with (Z.of_nat (N.to_nat (Byte.to_N b1))) by lia.
    replace (Z.of_N (Byte.to_N b2))
      with (Z.of_nat (N.to_nat (Byte.to_N b2))) by lia.
    apply scale_increasing; lia. }
  exists q1, q2. split; [done|]. split; [done|].
  destruct (pixel_in_range b1) as (p1 & Hp1 & Hlo & _).
  destruct (pixel_in_range b2) as (p2 & Hp2 & _ & Hhi).
  rewrite H1 in Hp1. injection Hp1 as <-.
  rewrite H2 in Hp2. injection Hp2 as <-.
  split; [done|]. split; [done|]. split; [done|]. split.
  - intros ->. vm_compute in H1. injection H1 as <-. reflexivity.
  - intros ->. vm_compute in H2. injection H2 as <-. reflexivity.
Qed.

(** *** Grayscale on gray pixels *)

Lemma gray_exact_check :
  range_check 5 (λ c, (c =? 0)%Z || range_check 256 (gray_exact_checkb c))
  = true.
Proof. vm_compute. reflexivity. Qed.

Lemma sumZ_replicate (c : nat) (b : uint8) :
  sumZ (replicate c b) = (Z.of_nat c * Z.of_N (Byte.to_N b))%Z.
Proof. induction c as [|c IH]; [done|]. simpl replicate. simpl sumZ. lia. Qed.

Lemma mean_replicate (c : nat) (b : uint8) :
  1 ≤ c ≤ 4 →
  div64 (sum64 (replicate c b)) (of_Z (Z.of_nat c)) = of_uint8 b.
Proof.
  intros Hc. rewrite sum64_exact by (rewrite length_replicate; lia).
  rewrite sumZ_replicate.
  assert (0 ≤ Z.of_nat c < Z.of_nat 5)%Z as Hc' by lia.
  pose proof (range_check_spec _ _ _ gray_exact_check Hc') as H.
  simpl in H. apply orb_true_iff in H as [H|H]; [apply Z.eqb_eq in H; lia|].
  pose proof (range_check_spec _ _ _ H (uint8_range b)) as Hb.
  unfold gray_exact_checkb in Hb. by apply bool_decide_eq_true in Hb.
Qed.

Lemma gray_run (c : nat) (bs : list uint8) (k : nat) (b : uint8) :
  bs !! k = Some b →
  take c (drop (k * c) (bs ≫= replicate c)) = replicate c b.
Proof.
  revert k. induction bs as [|b0 bs IH]; intros k Hk; [done|].
  rewrite bind_cons.
  destruct k as [|k]; simpl in Hk.
  - injection Hk as ->. rewrite Nat.mul_0_l, drop_0.
    by rewrite take_app_length' by (by rewrite length_replicate).
  - rewrite drop_app_ge by (rewrite length_replicate; lia).
    rewrite length_replicate.
    replace (S k * c - c) with (k * c) by lia. by apply IH.
Qed.

(** X8: on an image whose pixels have up to four equal channels the
    grayscale mean is exact: the mean over the last axis is the array
    of the channel values, with a last axis of length one. *)
Theorem grayscale_exact_on_gray (lead : list nat) (c : nat)
    (bs : list uint8) :
  1 ≤ c ≤ 4 → length bs = size_of lead →
  mean_last_keepdims (mk_ndarray (lead ++ [c]) (bs ≫= replicate c))
  = Some (mk_ndarray (lead ++ [1]) (of_uint8 <$> bs)).
Proof.
  intros Hc Hlen. unfold mean_last_keepdims. cbn [shape data].
  rewrite length_app. cbn [length].
  replace (length lead + 1 - 1) with (length lead) by lia.
  rewrite lookup_app_r, Nat.sub_diag by done. cbn [lookup list_lookup mbind option_bind].
  rewrite take_app_length. do 3 f_equal.
  rewrite <- Hlen. apply list_eq. intros k.
  rewrite !list_lookup_fmap.
  destruct (bs !! k) as [b|] eqn:Hb.
  - rewrite lookup_seq_lt by (by eapply lookup_lt_Some). simpl.
    rewrite (gray_run c bs k b Hb). by rewrite mean_replicate.
  - rewrite lookup_seq_ge; [done|]. by apply lookup_ge_None.
Qed.

(** *** The properties on concrete inputs *)

Lemma declared_shape_iff_witness :
  ∃ out,
    _observation nearest_resize (__init__ 2 2 false None) Scenario.image443
    = Some out
    ∧ shape out = box_shape (observation_space (__init__ 2 2 false None)).
Proof.
  destruct (_observation nearest_resize (__init__ 2 2 false None)
              Scenario.image443) as [out|] eqn:Hobs;
    [|vm_compute in Hobs; discriminate].
  exists out. split; [reflexivity|].
  destruct (declared_shape_iff nearest_resize nearest_resize_shape
              2 2 false None Scenario.image443 Scenario.image443 out 4 4 3)
    as [_ Hiff]; [reflexivity | reflexivity | exact Hobs |].
  apply Hiff. right. reflexivity.
Defined.

Lemma scale_strictly_increasing_witness :
  ∃ q1 q2,
    float_value (scale_value (of_uint8 "a"%byte)) = Some q1
    ∧ float_value (scale_value (of_uint8 "b"%byte)) = Some q2
    ∧ (q1 < q2)%Q.
Proof.
  destruct (scale_strictly_increasing "a"%byte "b"%byte)
    as (q1 & q2 & H1 & H2 & _ & Hlt & _); [vm_compute; reflexivity|].
  exists q1, q2. split; [exact H1|]. split; [exact H2|exact Hlt].
Defined.

Lemma grayscale_exact_on_gray_witness :
  mean_last_keepdims
    (mk_ndarray ([1; 2] ++ [3]) (["a"%byte; "b"%byte] ≫= replicate 3))
  = Some (mk_ndarray ([1; 2] ++ [1]) (of_uint8 <$> ["a"%byte; "b"%byte])).
Proof.
  apply (grayscale_exact_on_gray [1; 2] 3); [lia | reflexivity].
Defined.

End PreprocessImageLaws.

(** ** EnvPool: sequences of calls, closing and progress *)

Module EnvPoolLaws.
Import EnvPool.
Import EnvPoolFacts.

Section Pool.
Context {action info W E : Type} `{!Env action info W E}.
Local Abbreviation state := (@EnvPool.state action W E).
Local Abbreviation view := (@EnvPool.view action W E).
Implicit Types (st : state) (v : view) (self : @t E).

(** *** Calls keep the slots and the shapes of the batch *)

Lemma run_call_invariant self ls lr ld v st c outs self' st' :
  pool_at self ls lr ld v st → shaped self v →
  run_call c self st = Some ((outs, self'), st') →
  envs self' = envs self ∧ initial_env self' = initial_env self
  ∧ n_envs self' = n_envs self ∧ env_shape self' = env_shape self
  ∧ ∃ ls' lr' ld' v', pool_at self' ls' lr' ld' v' st' ∧ shaped self' v'.
Proof.
  intros Hp Hsh Hrun.
  destruct c as [|actions|]; simpl in Hrun; rewrite bind_eq in Hrun.
  - destruct (reset self st) as [[[out self1] st1]|] eqn:Hreset; [|done].
    injection Hrun as <- <- <-.
    destruct (reset_spec _ _ _ _ _ Hreset)
      as (v' & -> & -> & Hp' & Hsh' & _).
    repeat (split; [done|]). eauto 10.
  - destruct (step self actions st) as [[[[[s r] d] i] st1]|] eqn:Hstep;
      [|done].
    injection Hrun as <- <- <-.
    destruct (step_spec _ _ _ _ _ _ _ _ _ Hp Hstep)
      as (v' & Hloop & _ & _ & Hp' & _).
    destruct (loop_effect_frame _ _ _ _ _ Hsh Hloop) as (Hsh' & _).
    repeat (split; [done|]). eauto 10.
  - rewrite (pool_states_eq _ _ _ _ _ _ Hp) in Hrun.
    injection Hrun as <- <- <-.
    repeat (split; [done|]). exists ls, lr, ld, v.
    split; [by apply pool_at_append|done].
Qed.

Lemma run_calls_invariant cs : ∀ self ls lr ld v st self' st',
  pool_at self ls lr ld v st → shaped self v →
  run_calls cs self st = Some (self', st') →
  envs self' = envs self ∧ initial_env self' = initial_env self
  ∧ n_envs self' = n_envs self ∧ env_shape self' = env_shape self
  ∧ ∃ ls' lr' ld' v', pool_at self' ls' lr' ld' v' st' ∧ shaped self' v'.
Proof.
  induction cs as [|c cs IH]; intros self ls lr ld v st self' st' Hp Hsh Hrun;
    simpl in Hrun.
  - injection Hrun as <- <-. repeat (split; [done|]). eauto 10.
  - rewrite bind_eq in Hrun.
    destruct (run_call c self st) as [[[outs self1] st1]|] eqn:Hc; [|done].
    destruct (run_call_invariant _ _ _ _ _ _ _ _ _ _ Hp Hsh Hc)
      as (He & Hi & Hn & Hs & ls1 & lr1 & ld1 & v1 & Hp1 & Hsh1).
    destruct (IH _ _ _ _ _ _ _ _ Hp1 Hsh1 Hrun)
      as (He' & Hi' & Hn' & Hs' & Hex).
    repeat (split; [congruence|]). done.
Qed.

(** X9: no sequence of [reset], [step] and [pool_states] calls on a
    constructed pool changes its slots or the shapes of its arrays:
    the pool still holds the [n_envs] slots made by the constructor, a
    batch of shape [(n_envs, *obs_shape)] and reward and done arrays
    of length [n_envs], and [pool_states] returns that batch. *)
Theorem pool_batch_invariant (env : E) (n : nat) (flag : bool) st self st1
    (cs : list call) self' st' :
  __init__ env n flag st = Some (self, st1) →
  run_calls cs self st1 = Some (self', st') →
  ∃ space ls lr ld v,
    env_observation_space env (world st) = Some space
    ∧ envs self' = envs self ∧ length (envs self') = n
    ∧ initial_env self' = env ∧ n_envs self' = n
    ∧ env_shape self' = box_shape space
    ∧ pool_at self' ls lr ld v st'
    ∧ shape (v_states v) = n :: box_shape space
    ∧ length (data (v_states v)) = n * size_of (box_shape space)
    ∧ shape (v_rewards v) = [n] ∧ length (data (v_rewards v)) = n
    ∧ shape (v_dones v) = [n] ∧ length (data (v_dones v)) = n
    ∧ ∃ out st'',
        pool_states self' st' = Some (out, st'')
        ∧ arrays st'' !! out = Some (VFloat (v_states v)).
Proof.
  intros Hinit Hrun. rewrite init_eq in Hinit.
  destruct (env_observation_space env (world st)) as [space|] eqn:Hsp; [|done].
  simpl in Hinit.
  destruct (copies env n st) as [[es stc]|] eqn:Hc; [|done].
  simpl in Hinit.
  destruct (reset _ stc) as [[[out self2] st2]|] eqn:Hreset; [|done].
  simpl in Hinit. injection Hinit as <- <-.
  destruct (copies_spec _ _ _ _ _ Hc) as (Hlen & _ & _).
  destruct (reset_spec _ _ _ _ _ Hreset) as (v0 & -> & -> & Hp0 & Hsh0 & _).
  destruct (run_calls_invariant _ _ _ _ _ _ _ _ _ Hp0 Hsh0 Hrun)
    as (He & Hi & Hn & Hs & ls & lr & ld & v & Hp & Hsh).
  simpl in *.
  exists space, ls, lr, ld, v. split; [done|]. split; [done|].
  split; [by rewrite He|]. split; [done|]. split; [done|]. split; [done|].
  split; [done|].
  destruct Hsh as (HsS & HwS & HsR & HwR & HsD & HwD).
  unfold wf in *. rewrite Hn, Hs in *.
  rewrite HsS in HwS. rewrite HsR in HwR. rewrite HsD in HwD.
  simpl in HwS, HwR, HwD.
  split; [done|]. split; [done|]. split; [done|]. split; [lia|].
  split; [done|]. split; [lia|].
  rewrite (pool_states_eq _ _ _ _ _ _ Hp). eexists _, _. split; [done|].
  simpl. by rewrite lookup_app_r, Nat.sub_diag by done.
Qed.

(** *** [close] and [recreate_envs] *)

Lemma close_loop_spec (es : list E) : ∀ st st',
  foldr (λ env k, call_close env;; k) (mret tt) es st = Some (tt, st') →
  arrays st' = arrays st ∧ log st' = log st ++ (EvClose <$> es).
Proof.
  induction es as [|e es IH]; intros st st' Hc; simpl in Hc.
  - injection Hc as <-. by rewrite app_nil_r.
  - rewrite bind_eq in Hc. unfold call_close in Hc.
    destruct (env_close e (world st)) as [w|]; [|done]. simpl in Hc.
    destruct (IH _ _ Hc) as [Ha Hl]. simpl in *.
    split; [done|]. by rewrite Hl, <- app_assoc.
Qed.

(** X10: [recreate_envs] closes every slot once, in index order,
    then makes [n_envs] copies of the template, which become the
    slots.  It neither resets the new slots nor touches the arrays:
    [pool_states] still returns the batch stored before. *)
Theorem recreate_envs_keeps_batch self ls lr ld v st self' st' :
  pool_at self ls lr ld v st →
  recreate_envs self st = Some (self', st') →
  length (envs self') = n_envs self
  ∧ initial_env self' = initial_env self
  ∧ log st' = log st ++ (EvClose <$> envs self)
                     ++ (EvCopy (initial_env self) <$> envs self')
  ∧ arrays st' = arrays st
  ∧ pool_at self' ls lr ld
      (mk_view (world st') (log st') (v_states v) (v_rewards v) (v_dones v))
      st'
  ∧ ∃ out st'',
      pool_states self' st' = Some (out, st'')
      ∧ arrays st'' !! out = Some (VFloat (v_states v)).
Proof.
  intros Hp Hre. unfold recreate_envs in Hre. rewrite bind_eq in Hre.
  destruct (close self st) as [[[] stc]|] eqn:Hclose; [|done].
  rewrite bind_eq in Hre.
  destruct (copies (initial_env self) (n_envs self) stc) as [[es stn]|] eqn:Hc;
    [|done].
  injection Hre as <- <-.
  destruct (close_loop_spec _ _ _ Hclose) as [Ha Hl].
  destruct (copies_spec _ _ _ _ _ Hc) as (Hlen & Ha' & Hl').
  simpl.
  assert (pool_at
            (mk (initial_env self) (n_envs self) (env_shape self) es
               (_states self) (_rewards self) (_dones self)) ls lr ld
            (mk_view (world stn) (log stn) (v_states v) (v_rewards v)
               (v_dones v)) stn) as Hp'.
  { destruct Hp as (?&?&?&?&?&?&?&?&?&?&?).
    unfold pool_at. simpl. rewrite Ha', Ha. done. }
  split; [done|]. split; [done|].
  split; [by rewrite Hl', Hl, <- app_assoc|].
  split; [by rewrite Ha', Ha|]. split; [exact Hp'|].
  rewrite (pool_states_eq _ _ _ _ _ _ Hp'). eexists _, _. split; [done|].
  simpl. by rewrite lookup_app_r, Nat.sub_diag by done.
Qed.

(** *** [pool_states] after [step] *)

(** X11: the info returned by [step] is [None], and a [pool_states]
    call after a [step] returns a new array with the contents of the
    observation batch the step returned; the call touches neither the
    environments nor the log. *)
Theorem pool_states_after_step self ls lr ld v st (actions : list action)
    s r d inf st1 :
  pool_at self ls lr ld v st →
  step self actions st = Some ((s, r, d, inf), st1) →
  inf = None
  ∧ ∃ out st2 x,
      pool_states self st1 = Some (out, st2)
      ∧ out ≠ s ∧ out ≠ ls
      ∧ arrays st2 !! out = Some x ∧ arrays st2 !! s = Some x
      ∧ arrays st2 !! ls = Some x
      ∧ world st2 = world st1 ∧ log st2 = log st1.
Proof.
  intros Hp Hstep.
  destruct (step_spec _ _ _ _ _ _ _ _ _ Hp Hstep)
    as (v' & _ & Hout & Hst & Hp' & HoS & _).
  injection Hout as -> -> -> ->. split; [done|].
  rewrite (pool_states_eq _ _ _ _ _ _ Hp').
  pose proof (lookup_lt_Some _ _ _ HoS) as Hlt.
  pose proof (pool_at_lt _ _ _ _ _ _ Hp) as (Hls & _).
  pose proof Hp' as (_&_&_&_&_&_&Has&_).
  pose proof (lookup_lt_Some _ _ _ Has) as Hls'.
  eexists _, _, (VFloat (v_states v')). split; [done|].
  split; [lia|]. split; [lia|]. simpl.
  split; [by rewrite lookup_app_r, Nat.sub_diag by done|].
  split; [by rewrite lookup_app_l by done|].
  split; [by rewrite lookup_app_l by done|done].
Qed.

(** *** Progress *)

Section Progress.
Variable Inv : W → Prop.
Variable self : @t E.

Hypothesis step_returns : ∀ e (a : action) w,
  e ∈ envs self → Inv w →
  ∃ obs r dn inf w',
    env_step e a w = Some ((obs, r, dn, inf), w')
    ∧ Inv w' ∧ shape obs = env_shape self ∧ wf obs.

Hypothesis reset_returns : ∀ e w,
  e ∈ envs self → Inv w →
  ∃ obs w',
    env_reset e w = Some (obs, w')
    ∧ Inv w' ∧ shape obs = env_shape self ∧ wf obs.

Hypothesis slots_fit : length (envs self) ≤ n_envs self.

Lemma setitem_row_returns (arr obs : ndarray float) i :
  shape arr = n_envs self :: env_shape self → i < n_envs self →
  shape obs = env_shape self → wf obs →
  is_Some (setitem_row arr i obs).
Proof.
  intros Hs Hi Ho Hw. unfold setitem_row. rewrite Hs.
  rewrite decide_True by done. rewrite <- Ho.
  rewrite broadcast_to_same by done. simpl. eauto.
Qed.

Lemma slot_effect_returns i a e v :
  shaped self v → Inv (v_world v) → e ∈ envs self → i < n_envs self →
  ∃ v', slot_effect i a e v = Some v' ∧ shaped self v' ∧ Inv (v_world v').
Proof.
  intros Hsh Hinv He Hi.
  pose proof Hsh as (HsS & HwS & HsR & HwR & HsD & HwD).
  destruct (step_returns e a _ He Hinv)
    as (obs & r & dn & inf & w1 & Hstep & Hinv1 & Hso & Hwo).
  assert (∃ R', setitem (v_rewards v) i (to_float32 r) = Some R') as [R' HR].
  { unfold setitem. unfold wf in HwR. rewrite HsR in HwR. simpl in HwR.
    rewrite decide_True by lia. eauto. }
  assert (∃ D', setitem (v_dones v) i dn = Some D') as [D' HD].
  { unfold setitem. unfold wf in HwD. rewrite HsD in HwD. simpl in HwD.
    rewrite decide_True by lia. eauto. }
  assert (∃ w2 obs2, (if dn then env_reset e w1 = Some (obs2, w2)
                      else obs2 = obs ∧ w2 = w1)
                     ∧ Inv w2 ∧ shape obs2 = env_shape self ∧ wf obs2)
    as (w2 & obs2 & Hdn & Hinv2 & Hso2 & Hwo2).
  { destruct dn.
    - destruct (reset_returns e w1 He Hinv1) as (o & w2 & ? & ? & ? & ?).
      by exists w2, o.
    - by exists w1, obs. }
  destruct (setitem_row_returns (v_states v) obs2 i HsS Hi Hso2 Hwo2)
    as [S' HS].
  assert (∃ v', slot_effect i a e v = Some v' ∧ v_world v' = w2)
    as (v' & Hv' & Hw').
  { unfold slot_effect. rewrite Hstep. simpl. rewrite HR. simpl.
    rewrite HD. simpl. destruct dn; simpl.
    - rewrite Hdn. simpl. rewrite HS. simpl. eauto.
    - destruct Hdn as [-> ->]. rewrite HS. simpl. eauto. }
  exists v'. split; [done|]. split; [|by rewrite Hw'].
  by destruct (slot_effect_spec _ _ _ _ _ _ Hsh Hv')
    as (_&_&_&_&_&_&_&_&_&_&_&_&Hsh'&_).
Qed.

Lemma loop_effect_returns pairs : ∀ i v,
  shaped self v → Inv (v_world v) →
  Forall (λ p, p.2 ∈ envs self) pairs → i + length pairs ≤ n_envs self →
  ∃ v', loop_effect i pairs v = Some v' ∧ shaped self v' ∧ Inv (v_world v').
Proof.
  induction pairs as [|[a e] pairs IH]; intros i v Hsh Hinv Hall Hlen.
  - exists v. by split.
  - apply list.Forall_cons in Hall as [He Hall]. simpl in *.
    destruct (slot_effect_returns i a e v Hsh Hinv He) as (v1 & H1 & Hsh1 & Hinv1);
      [lia|].
    rewrite H1. simpl. apply IH; [done..|lia].
Qed.

Lemma reset_effect_returns es : ∀ i v,
  shaped self v → Inv (v_world v) →
  Forall (λ e, e ∈ envs self) es → i + length es ≤ n_envs self →
  ∃ v', reset_effect i es v = Some v' ∧ shaped self v' ∧ Inv (v_world v').
Proof.
  induction es as [|e es IH]; intros i v Hsh Hinv Hall Hlen.
  - exists v. by split.
  - apply list.Forall_cons in Hall as [He Hall]. simpl in *.
    pose proof Hsh as (HsS & HwS & _).
    destruct (reset_returns e _ He Hinv) as (obs & w1 & Hr & Hinv1 & Hso & Hwo).
    destruct (setitem_row_returns (v_states v) obs i HsS) as [S' HS];
      [lia|done|done|].
    assert (reset_slot_effect i e v
            = Some (mk_view w1 (v_events v ++ [EvReset e]) S'
                      (v_rewards v) (v_dones v))) as H1.
    { unfold reset_slot_effect. rewrite Hr. simpl. by rewrite HS. }
    rewrite H1. simpl.
    destruct (reset_slot_effect_spec _ _ _ _ _ Hsh H1)
      as (_&_&_&_&_&_&_&_&_&Hsh1&_).
    apply IH; [done|done|done|lia].
Qed.

Lemma zip_snd_in {A B} (l : list A) (k : list B) :
  Forall (λ p, p.2 ∈ k) (zip l k).
Proof.
  apply list.Forall_forall. intros [a b] Hin.
  apply list_elem_of_lookup in Hin as [i Hi].
  apply lookup_zip_with_Some in Hi as (x & y & Heq & _ & Hy).
  injection Heq as -> ->. simpl. by eapply list_elem_of_lookup_2.
Qed.

(** X12: when the slots do not raise and return observations of the
    shape of the observation space, [step] (on any batch of actions)
    and [reset] return: no store into the arrays of the pool is out of
    range. *)
Theorem pool_calls_return ls lr ld v st (actions : list action) :
  pool_at self ls lr ld v st → shaped self v → Inv (world st) →
  (∃ out st', step self actions st = Some (out, st') ∧ Inv (world st'))
  ∧ (∃ out self' st',
       reset self st = Some ((out, self'), st') ∧ Inv (world st')).
Proof.
  intros Hp Hsh Hinv. split.
  - rewrite (step_eq _ _ _ _ _ _ actions Hp).
    pose proof Hp as (_&_&_&_&_&_&_&_&_&Hw&_).
    destruct (loop_effect_returns (zip actions (envs self)) 0 v Hsh)
      as (v' & Hl & _ & Hinv'); [by rewrite <- Hw|apply zip_snd_in| |].
    { simpl. rewrite length_zip_with. lia. }
    rewrite Hl. simpl. eexists _, _. split; [done|]. done.
  - rewrite reset_eq.
    destruct (reset_effect_returns (envs self) 0 (fresh_view self st))
      as (v' & Hl & _ & Hinv'); [apply (shaped_fresh self st 0)|done| |simpl; lia|].
    { apply list.Forall_forall. done. }
    rewrite Hl. simpl. eexists _, _, _. split; [done|]. done.
Qed.

End Progress.

End Pool.

(** *** A pool of [FrameBuffer] objects *)

Section World.
Context {action info W E : Type} `{!Env action info W E}.

Lemma reset_effect_world (P : W → Prop) (es : list E) :
  (∀ e w obs w', P w → env_reset e w = Some (obs, w') → P w') →
  ∀ i (v v' : @EnvPool.view action W E),
    P (v_world v) → reset_effect i es v = Some v' → P (v_world v').
Proof.
  intros Hpres. induction es as [|e es IH]; intros i v v' HP Hr; simpl in Hr.
  - by injection Hr as <-.
  - unfold reset_slot_effect in Hr.
    destruct (env_reset e (v_world v)) as [[s w']|] eqn:He; [|done].
    simpl in Hr.
    destruct (setitem_row (v_states v) i s) as [S'|]; [|done]. simpl in Hr.
    eapply IH; [|exact Hr]. simpl. by eapply Hpres.
Qed.

End World.

Section Wrapped.
Context {action info W E : Type} `{!Env action info W E}.
Local Abbreviation store := (FrameBufferObj.store (W:=W) (E:=E)).
Local Abbreviation pstate := (@EnvPool.state action store loc).
Implicit Types (s : store) (st : pstate) (tmpl obj : FrameBuffer.t E).

Lemma frame_reset_env (self self' : FrameBuffer.t E) (w w' : W) out :
  FrameBuffer.reset self w = Some (out, self', w') →
  FrameBuffer.env self' = FrameBuffer.env self.
Proof.
  unfold FrameBuffer.reset, FrameBuffer.update_buffer. simpl. intros Hr.
  destruct (env_reset (FrameBuffer.env self) w) as [[obs w1]|]; [|done].
  simpl in Hr.
  destruct (drop_last_row _) as [rest|]; [|done]. simpl in Hr.
  destruct (vstack2 _ rest) as [fb|]; [|done]. simpl in Hr.
  destruct (FrameBuffer.reshape_fn self fb) as [o|]; [|done]. simpl in Hr.
  by injection Hr as <- <- <-.
Qed.

Lemma object_reset_same_inner objs0 (l : loc) s out s' :
  same_inner objs0 s.2 →
  FrameBufferObj.reset l s = Some (out, s') →
  same_inner objs0 s'.2.
Proof.
  unfold same_inner, FrameBufferObj.reset. intros Hsame Hr.
  destruct (s.2 !! l) as [self|] eqn:Hl; [|done]. simpl in Hr.
  destruct (FrameBuffer.reset self s.1) as [[[o self'] w]|] eqn:Hf; [|done].
  simpl in Hr. injection Hr as <- <-. simpl.
  destruct (Forall2_lookup_r _ _ _ _ _ Hsame Hl) as (o0 & Ho0 & Henv).
  rewrite <- (list_insert_id objs0 l o0 Ho0).
  apply Forall2_insert; [done|].
  rewrite (frame_reset_env _ _ _ _ _ Hf). done.
Qed.

Lemma copies_objects (l : loc) (n : nat) tmpl : ∀ st es stc,
  (world st).2 !! l = Some tmpl →
  copies (info:=info) l n st = Some (es, stc) →
  es = seq (length (world st).2) n
  ∧ world stc = ((world st).1, (world st).2 ++ replicate n tmpl).
Proof.
  induction n as [|n IH]; intros st es stc Hl Hc; simpl in Hc.
  - injection Hc as <- <-. simpl. rewrite app_nil_r. by destruct (world st).
  - rewrite bind_eq in Hc. unfold call_copy in Hc. simpl in Hc.
    unfold FrameBufferObj.copy in Hc. rewrite Hl in Hc. simpl in Hc.
    rewrite bind_eq in Hc.
    destruct (copies l n _) as [[cs st1]|] eqn:Hcs; [|done].
    injection Hc as <- <-.
    destruct (IH _ _ _ (lookup_app_l_Some _ [tmpl] _ _ Hl : (world (mk_state _ _ _)).2 !! l = Some tmpl) Hcs) as [-> Hw].
    simpl in *. rewrite length_app in *. simpl.
    replace (length (world st).2 + 1) with (S (length (world st).2)) by lia.
    split; [done|]. rewrite Hw. by rewrite <- app_assoc.
Qed.

(** X13: a pool built on a [FrameBuffer] object has new objects as
    slots, none of them the template, and each slot wraps the very
    environment the template wraps: [copy.copy] does not copy the
    [env] attribute. *)
Theorem slots_share_inner_env (l : loc) (n : nat) (flag : bool) st
    (self : EnvPool.t) st' tmpl :
  (world st).2 !! l = Some tmpl →
  __init__ (info:=info) l n flag st = Some (self, st') →
  envs self = seq (length (world st).2) n
  ∧ (l ∉ envs self)
  ∧ ∀ e, e ∈ envs self →
      ∃ obj, (world st').2 !! e = Some obj
             ∧ FrameBuffer.env obj = FrameBuffer.env tmpl.
Proof.
  intros Hl Hinit. rewrite init_eq in Hinit.
  destruct (env_observation_space l (world st)) as [space|]; [|done].
  simpl in Hinit.
  destruct (copies l n st) as [[es stc]|] eqn:Hc; [|done]. simpl in Hinit.
  destruct (reset _ stc) as [[[out self2] st2]|] eqn:Hreset; [|done].
  simpl in Hinit. injection Hinit as <- <-.
  destruct (copies_objects _ _ _ _ _ _ Hl Hc) as [-> Hw].
  rewrite reset_eq in Hreset.
  destruct (reset_effect 0 _ (fresh_view _ stc)) as [v'|] eqn:Hv; [|done].
  simpl in Hreset, Hv. injection Hreset as <- <- <-. simpl.
  split; [done|].
  pose proof (lookup_lt_Some _ _ _ Hl) as Hlt.
  split. { rewrite elem_of_seq. lia. }
  assert (same_inner ((world st).2 ++ replicate n tmpl) (v_world v').2)
    as Hsame.
  { refine (reset_effect_world
              (λ w, same_inner ((world st).2 ++ replicate n tmpl) w.2)
              _ _ 0 _ v' _ Hv).
    - intros e w obs w' HP He.
      exact (object_reset_same_inner _ e w obs w' HP He).
    - simpl. rewrite Hw. simpl. unfold same_inner.
      apply Forall2_same_length_lookup. split; [done|].
      intros i a b Ha Hb. congruence. }
  intros e He. apply elem_of_seq in He.
  assert (((world st).2 ++ replicate n tmpl) !! e = Some tmpl) as Htm.
  { rewrite lookup_app_r by lia. apply lookup_replicate_2. lia. }
  destruct (Forall2_lookup_l _ _ _ _ _ Hsame Htm) as (obj & Hobj & Henv).
  by exists obj.
Qed.

End Wrapped.

(** *** The properties on concrete inputs *)

Lemma pool_batch_invariant_witness :
  ∃ pool st pool' st' ls lr ld v,
    Scenario.built = Some (pool, st)
    ∧ run_calls (info:=unit)
        [CStep [false; true; false]; CPoolStates; CReset; CStep [true]]
        pool st
      = Some (pool', st')
    ∧ envs pool' = envs pool
    ∧ pool_at pool' ls lr ld v st'
    ∧ shape (v_states v) = [3; 2].
Proof.
  destruct Scenario.built as [[pool st]|] eqn:Hb;
    [|vm_compute in Hb; discriminate].
  destruct (run_calls (info:=unit)
              [CStep [false; true; false]; CPoolStates; CReset; CStep [true]]
              pool st) as [[pool' st']|] eqn:Hrun;
    [|vm_compute in Hb; injection Hb as <- <-;
      vm_compute in Hrun; discriminate].
  destruct (pool_batch_invariant (action:=bool) (info:=unit) 0 3 false
              Scenario.state0 pool st _ pool' st' Hb Hrun)
    as (space & ls & lr & ld & v & Hsp & He & _ & _ & _ & _ & Hp & HsS & _).
  vm_compute in Hsp. injection Hsp as <-.
  exists pool, st, pool', st', ls, lr, ld, v.
  split; [reflexivity|]. split; [exact Hrun|]. split; [exact He|].
  split; [exact Hp|exact HsS].
Defined.

Lemma recreate_envs_keeps_batch_witness :
  ∃ pool st v pool' st' out st'',
    Scenario.stepped_once = Some (pool, st)
    ∧ view_at 0 1 2 st = Some v
    ∧ recreate_envs (info:=unit) pool st = Some (pool', st')
    ∧ log st' = log st ++ (EvClose <$> envs pool) ++ (EvCopy 0 <$> envs pool')
    ∧ pool_states pool' st' = Some (out, st'')
    ∧ arrays st'' !! out = Some (VFloat (v_states v)).
Proof.
  destruct Scenario.stepped_once as [[pool st]|] eqn:Hb;
    [|vm_compute in Hb; discriminate].
  destruct (view_at 0 1 2 st) as [v|] eqn:Hv;
    [|vm_compute in Hb; injection Hb as <- <-;
      vm_compute in Hv; discriminate].
  destruct (recreate_envs (info:=unit) pool st) as [[pool' st']|] eqn:Hre;
    [|vm_compute in Hb; injection Hb as <- <-;
      vm_compute in Hre; discriminate].
  destruct (recreate_envs_keeps_batch pool 0 1 2 v st pool' st')
    as (_ & _ & Hlog & _ & _ & out & st'' & Hps & Hout);
    [vm_compute in Hb; injection Hb as <- <-;
     vm_compute in Hv; injection Hv as <-; concrete_pool
    |exact Hre|].
  exists pool, st, v, pool', st', out, st''.
  split; [reflexivity|]. split; [exact Hv|]. split; [exact Hre|].
  split; [|split; [exact Hps|exact Hout]].
  vm_compute in Hb. injection Hb as <- <-. exact Hlog.
Defined.

Lemma pool_states_after_step_witness :
  ∃ pool st s r d inf st1 out st2 x,
    Scenario.built = Some (pool, st)
    ∧ step (info:=unit) pool [false; false; false] st
      = Some ((s, r, d, inf), st1)
    ∧ pool_states pool st1 = Some (out, st2)
    ∧ out ≠ s
    ∧ arrays st2 !! out = Some x ∧ arrays st2 !! s = Some x.
Proof.
  destruct Scenario.built as [[pool st]|] eqn:Hb;
    [|vm_compute in Hb; discriminate].
  destruct (view_at 0 1 2 st) as [v|] eqn:Hv;
    [|vm_compute in Hb; injection Hb as <- <-;
      vm_compute in Hv; discriminate].
  destruct (step (info:=unit) pool [false; false; false] st)
    as [[[[[s r] d] inf] st1]|] eqn:Hstep;
    [|vm_compute in Hb; injection Hb as <- <-;
      vm_compute in Hstep; discriminate].
  destruct (pool_states_after_step pool 0 1 2 v st [false; false; false]
              s r d inf st1)
    as (_ & out & st2 & x & Hps & Hne & _ & Ho & Hs & _);
    [vm_compute in Hb; injection Hb as <- <-;
     vm_compute in Hv; injection Hv as <-; concrete_pool
    |exact Hstep|].
  exists pool, st, s, r, d, inf, st1, out, st2, x.
  split; [reflexivity|]. split; [exact Hstep|]. split; [exact Hps|].
  split; [exact Hne|]. split; [exact Ho|exact Hs].
Defined.

Lemma ticker_step_returns (e : loc) (a : bool) (w : list Ticker.sim) :
  e < 4 → four_sims w →
  ∃ obs r dn inf w',
    env_step (info:=unit) e a w = Some ((obs, r, dn, inf), w')
    ∧ four_sims w' ∧ shape obs = [2] ∧ wf obs.
Proof.
  intros He [Hlen Hall].
  destruct (lookup_lt_is_Some_2 w e) as [s Hs]; [lia|].
  pose proof (Forall_lookup_1 _ _ _ _ Hall Hs) as Hshape.
  eexists _, _, _, _, _. split.
  { unfold env_step, Ticker.Ticker_Env, Ticker.step, loc. rewrite Hs.
    reflexivity. }
  split; [split|split].
  - by rewrite length_insert.
  - apply Forall_insert; done.
  - done.
  - unfold wf, Ticker.observe. simpl. apply length_replicate.
Qed.

Lemma ticker_reset_returns (e : loc) (w : list Ticker.sim) :
  e < 4 → four_sims w →
  ∃ obs w',
    env_reset (action:=bool) (info:=unit) e w = Some (obs, w')
    ∧ four_sims w' ∧ shape obs = [2] ∧ wf obs.
Proof.
  intros He [Hlen Hall].
  destruct (lookup_lt_is_Some_2 w e) as [s Hs]; [lia|].
  pose proof (Forall_lookup_1 _ _ _ _ Hall Hs) as Hshape.
  eexists _, _. split.
  { unfold env_reset, Ticker.Ticker_Env, Ticker.reset, loc. rewrite Hs.
    reflexivity. }
  split; [split|split].
  - by rewrite length_insert.
  - apply Forall_insert; done.
  - done.
  - unfold wf, Ticker.observe. simpl. apply length_replicate.
Qed.

Lemma pool_calls_return_witness :
  ∃ pool st out st' out' pool' st'',
    Scenario.built = Some (pool, st)
    ∧ step (info:=unit) pool [true; false; true; true] st = Some (out, st')
    ∧ reset (info:=unit) pool st = Some ((out', pool'), st'').
Proof.
  destruct Scenario.built as [[pool st]|] eqn:Hb;
    [|vm_compute in Hb; discriminate].
  destruct (view_at 0 1 2 st) as [v|] eqn:Hv;
    [|vm_compute in Hb; injection Hb as <- <-;
      vm_compute in Hv; discriminate].
  destruct (pool_calls_return (action:=bool) (info:=unit) four_sims pool)
    with (ls := 0) (lr := 1) (ld := 2) (v := v) (st := st)
         (actions := [true; false; true; true])
    as [(out & st' & Hstep & _) (out' & pool' & st'' & Hreset & _)].
  - vm_compute in Hb. injection Hb as <- <-. intros e a w He Hw.
    apply ticker_step_returns; [|done].
    simpl in He. rewrite !elem_of_cons in He.
    destruct He as [->|[->|[->|He]]]; [lia..|by apply elem_of_nil in He].
  - vm_compute in Hb. injection Hb as <- <-. intros e w He Hw.
    apply ticker_reset_returns; [|done].
    simpl in He. rewrite !elem_of_cons in He.
    destruct He as [->|[->|[->|He]]]; [lia..|by apply elem_of_nil in He].
  - vm_compute in Hb. injection Hb as <- <-. simpl. lia.
  - vm_compute in Hb. injection Hb as <- <-.
    vm_compute in Hv. injection Hv as <-. concrete_pool.
  - vm_compute in Hb. injection Hb as <- <-.
    vm_compute in Hv. injection Hv as <-. concrete_pool.
  - vm_compute in Hb. injection Hb as <- <-. split; [reflexivity|].
    repeat constructor.
  - exists pool, st, out, st', out', pool', st''.
    split; [reflexivity|]. split; [exact Hstep|exact Hreset].
Defined.

Lemma slots_share_inner_env_witness :
  ∃ w pool st tmpl obj1 obj2,
    Scenario.wrapped_world = Some w
    ∧ Scenario.wrapped_built = Some (pool, st)
    ∧ envs pool = [1; 2]
    ∧ w.2 !! 0 = Some tmpl
    ∧ (world st).2 !! 1 = Some obj1 ∧ (world st).2 !! 2 = Some obj2
    ∧ FrameBuffer.env obj1 = FrameBuffer.env tmpl
    ∧ FrameBuffer.env obj2 = FrameBuffer.env tmpl.
Proof.
  destruct Scenario.wrapped_world as [w|] eqn:Hw;
    [|vm_compute in Hw; discriminate].
  destruct (w.2 !! 0) as [tmpl|] eqn:Ht;
    [|vm_compute in Hw; injection Hw as <-; vm_compute in Ht; discriminate].
  destruct Scenario.wrapped_built as [[pool st]|] eqn:Hb;
    [|vm_compute in Hb; discriminate].
  assert (length w.2 = 1) as Hlen.
  { vm_compute in Hw. injection Hw as <-. reflexivity. }
  destruct (slots_share_inner_env (action:=bool) (info:=unit) 0 2 false
              (mk_state w [] []) pool st tmpl Ht)
    as (Henvs & _ & Hall).
  { unfold Scenario.wrapped_built in Hb. rewrite Hw in Hb. exact Hb. }
  simpl in Henvs. rewrite Hlen in Henvs. simpl in Henvs.
  destruct (Hall 1) as (obj1 & Ho1 & He1).
  { rewrite Henvs. apply list_elem_of_here. }
  destruct (Hall 2) as (obj2 & Ho2 & He2).
  { rewrite Henvs. apply list_elem_of_further, list_elem_of_here. }
  exists w, pool, st, tmpl, obj1, obj2.
  split; [reflexivity|]. split; [reflexivity|]. split; [exact Henvs|].
  split; [exact Ht|]. split; [exact Ho1|]. split; [exact Ho2|].
  split; [exact He1|exact He2].
Defined.

End EnvPoolLaws.
